(** * EventBus.ts: the typed event bus, its subscription groups and the legacy shim

    A shallow embedding of [packages/grafana-data/src/utils/EventBus.ts].

    The file builds on three rxjs primitives ([Subject], the [filter]
    operator and [Subscription]); they are imported, not defined, by the
    source, and are modelled in [Module Rx] by their rxjs 6 contracts (the
    version whose [Subscription.add] returns the child, as line 226 needs).

    Callbacks are the environment of the bus.  A handler is known by its
    identity, and the world says what each one does at each of its calls:
    the lines it writes to the console, the subscriptions and groups on
    which it calls [unsubscribe()], and whether it ends by throwing; rxjs
    unsubscribes a subscriber whose handler throws.  Each call of a handler
    appends one record to a call trace, and [console.log] one line to a
    console trace.  A handler that emits or subscribes while an event is
    dispatched is outside this model.  [start] is the program whose
    handlers only return; [program b] is the one whose handlers behave as
    [b] says. *)

From Stdlib Require Import ZArith.
From stdpp Require Import base option gmap strings countable list.

Local Open Scope string_scope.
Local Open Scope list_scope.

(** ** Values *)

(** What a payload ([any]) can be. *)
Unset Elimination Schemes.
Inductive JsValue :=
  | JsUndefined
  | JsNull
  | JsBool (b : bool)
  | JsNum (n : Z)
  | JsStr (s : string)
  | JsObj (props : list (string * JsValue)).
Set Elimination Schemes.

Inductive JsError :=
  | TypeError (message : string).

(** Subscriptions are named by their allocation number. *)
Abbreviation addr := nat (only parsing).

(** How a call ends: [return v] or a thrown error. *)
Inductive JsReturn :=
  | RetUndefined
  | RetUnsubscribable (sub : addr).

Inductive Completion :=
  | Normal (v : JsReturn)
  | Throw (e : JsError).

(** ** Event model (lines 8-42) *)

(** A value travelling on the stream: a [BusEvent] (no [payload] property),
    a [BusEventWithPayload], or the record literal [{type, payload}] that
    the legacy [emit] builds.  [payload = None] is an absent property. *)
Record BusEvent := mkBusEvent {
  type : string;
  payload : option JsValue
}.

(** [interface BusEventType]: an event class, of which the bus reads the
    static member [type] only. *)
Record BusEventType := mkBusEventType {
  static_type : string
}.

(** [constructor() { this.type = this.__proto__.constructor.type }] *)
Definition new_BusEvent (ctor : BusEventType) : BusEvent :=
  {| type := static_type ctor; payload := None |}.

(** [constructor(payload) { super(); this.payload = payload }] *)
Definition new_BusEventWithPayload (ctor : BusEventType) (p : JsValue) : BusEvent :=
  {| type := static_type ctor; payload := Some p |}.

(** [streamEvent.payload]: reading an absent property gives [undefined]. *)
Definition get_payload (streamEvent : BusEvent) : JsValue :=
  default JsUndefined (payload streamEvent).

(** Modelled from the spec: [AppEvent] is imported from [../types/appEvents],
    which is not part of the sources at hand.  The spec calls it an event
    descriptor whose [name] the legacy shim reads.  Typing is structural, so
    a descriptor object may carry further properties ([other]). *)
Record AppEvent := mkAppEvent {
  name : string;
  other : list (string * JsValue)
}.

(** The first argument of the legacy functions, [AppEvent<T> | string];
    the code tells the two apart with [typeof event === 'string']. *)
Inductive EventArg :=
  | ByName (event : string)
  | ByDescriptor (event : AppEvent).

(** ** The environment: callbacks and the console *)

(** A callback is known by its identity. *)
Abbreviation Handler := nat (only parsing).

(** What a handler is called with: the event itself ([BusEventHandler]) or
    the unwrapped payload (legacy handlers). *)
Inductive HandlerArg :=
  | ArgEvent (event : BusEvent)
  | ArgPayload (value : JsValue).

(** One invocation of a handler.  [call_sub] names the subscription whose
    [next] made the call. *)
Record Call := mkCall {
  call_sub : addr;
  call_handler : Handler;
  call_arg : HandlerArg
}.

Inductive ConsoleArg :=
  | LogStr (s : string)
  | LogAppEvent (d : AppEvent).

Record Env := mkEnv {
  console : list (list ConsoleArg);
  calls : list Call
}.

Definition console_log (args : list ConsoleArg) (e : Env) : Env :=
  {| console := console e ++ [args]; calls := calls e |}.

(** ** Objects *)

(** The implementors of [interface EventBus]: the one [EventBusSrv] of the
    world, and [Group bus id], the [id]-th [new EventBusGroup(bus)]. *)
Inductive EventBus :=
  | Srv
  | Group (bus : EventBus) (id : nat).

Global Instance EventBus_eq_dec : EqDecision EventBus.
Proof. solve_decision. Defined.

Fixpoint EventBus_path (b : EventBus) : list nat :=
  match b with
  | Srv => []
  | Group bus id => id :: EventBus_path bus
  end.

Fixpoint EventBus_of_path (l : list nat) : EventBus :=
  match l with
  | [] => Srv
  | id :: l => Group (EventBus_of_path l) id
  end.

Global Instance EventBus_countable : Countable EventBus.
Proof.
  refine (inj_countable' EventBus_path EventBus_of_path _).
  intros b. induction b as [|bus IH id]; simpl; [reflexivity | by rewrite IH].
Defined.

(** A call that a handler makes on the bus while it runs: [unsubscribe()]
    on a subscription, or on a group. *)
Inductive Act :=
  | act_unsubscribe (sub : addr)
  | act_group_unsubscribe (g : EventBus).

(** One run of a handler: the lines it writes to the console, its calls on
    the bus, and whether it ends by throwing. *)
Record Reaction := mkReaction {
  prints : list (list ConsoleArg);
  acts : list Act;
  throws : bool
}.

(** The handler that only returns. *)
Definition returns : Reaction := {| prints := []; acts := []; throws := false |}.

(** What each handler does at each of its calls.  Handlers are closures
    and may keep state of their own: [b n h arg] is what handler [h] does
    when it is called with [arg] after [n] handler calls have been made in
    the program. *)
Definition Behaviour : Type := nat -> Handler -> HandlerArg -> Reaction.

(** The object that [.pipe(filter(p)).subscribe(observer)] returns.  The
    observer's [next] calls a handler: [destination] gives the handler and
    the argument it is called with. *)
Record Subscriber := mkSubscriber {
  closed : bool;
  parentOrParents : list EventBus;
  predicate : BusEvent -> Env -> bool * Env;
  destination : BusEvent -> Handler * HandlerArg
}.

(** A [new Subscription()]; each one is the [groupSub] of one group, and the
    group names it in [parentOrParents]. *)
Record Subscription := mkSubscription {
  Subscription_closed : bool;
  subscriptions : list addr
}.

Record Subject := mkSubject {
  observers : list addr
}.

(** [class EventBusSrv { private eventStream: Subject<any> }] *)
Record EventBusSrv := mkEventBusSrv {
  eventStream : Subject
}.

Record World := mkWorld {
  srv : EventBusSrv;
  heap : list Subscriber;
  groupSub : gmap EventBus Subscription;
  env : Env;
  callbacks : Behaviour
}.

(** [new EventBusSrv()] in a fresh program whose handlers behave as [b]
    says: [this.eventStream = new Subject()]. *)
Definition init_with (b : Behaviour) : World :=
  {| srv := {| eventStream := {| observers := [] |} |};
     heap := [];
     groupSub := ∅;
     env := {| console := []; calls := [] |};
     callbacks := b |}.

Definition set_env (e : Env) (w : World) : World :=
  {| srv := srv w; heap := heap w; groupSub := groupSub w; env := e;
     callbacks := callbacks w |}.

Definition set_observers (l : list addr) (w : World) : World :=
  {| srv := {| eventStream := {| observers := l |} |};
     heap := heap w; groupSub := groupSub w; env := env w;
     callbacks := callbacks w |}.

Definition set_heap (h : list Subscriber) (w : World) : World :=
  {| srv := srv w; heap := h; groupSub := groupSub w; env := env w;
     callbacks := callbacks w |}.

Definition set_groupSub (m : gmap EventBus Subscription) (w : World) : World :=
  {| srv := srv w; heap := heap w; groupSub := m; env := env w;
     callbacks := callbacks w |}.

Definition observers_of (w : World) : list addr := observers (eventStream (srv w)).

(** ** rxjs *)

Module Rx.

(** [observers.indexOf(x)] then [splice]: drops the first occurrence. *)
Fixpoint splice_out (x : addr) (l : list addr) : list addr :=
  match l with
  | [] => []
  | y :: l' => if decide (y = x) then l' else y :: splice_out x l'
  end.

(** [subject.pipe(filter(p)).subscribe(observer)]: a fresh subscriber is
    pushed at the end of [observers]. *)
Definition subscribe
    (p : BusEvent -> Env -> bool * Env)
    (observer : BusEvent -> Handler * HandlerArg)
    (w : World) : addr * World :=
  let a := length (heap w) in
  let s := {| closed := false; parentOrParents := []; predicate := p; destination := observer |} in
  (a, set_observers (observers_of w ++ [a]) (set_heap (heap w ++ [s]) w)).

(** [parent.remove(child)] *)
Definition remove (child : addr) (w : World) (parent : EventBus) : World :=
  match groupSub w !! parent with
  | None => w
  | Some c =>
      set_groupSub
        (<[parent := {| Subscription_closed := Subscription_closed c;
                        subscriptions := splice_out child (subscriptions c) |}]> (groupSub w)) w
  end.

(** [subscriber.unsubscribe()]: nothing when already closed; otherwise the
    subscriber is closed, taken out of its parents and out of the
    subject's [observers]. *)
Definition unsubscribe (w : World) (a : addr) : World :=
  match heap w !! a with
  | None => w
  | Some s =>
      if closed s then w
      else
        let s' := {| closed := true; parentOrParents := [];
                     predicate := predicate s; destination := destination s |} in
        let w1 := set_heap (<[a := s']> (heap w)) w in
        let w2 := foldl (remove a) w1 (parentOrParents s) in
        set_observers (splice_out a (observers_of w2)) w2
  end.

(** [subscription.unsubscribe()] on the composite of group [g]. *)
Definition Subscription_unsubscribe (g : EventBus) (w : World) : World :=
  match groupSub w !! g with
  | None => w
  | Some c =>
      if Subscription_closed c then w
      else
        let w1 := set_groupSub
                    (<[g := {| Subscription_closed := true; subscriptions := [] |}]> (groupSub w)) w in
        foldl unsubscribe w1 (subscriptions c)
  end.

(** [subscription.add(child)] on the composite of group [g], for a child
    that is a subscriber; it returns the child. *)
Definition add (g : EventBus) (child : addr) (w : World) : addr * World :=
  match groupSub w !! g, heap w !! child with
  | Some c, Some s =>
      if closed s then (child, w)
      else if Subscription_closed c then (child, unsubscribe w child)
      else if decide (g ∈ parentOrParents s) then (child, w)
      else
        let s' := {| closed := closed s; parentOrParents := parentOrParents s ++ [g];
                     predicate := predicate s; destination := destination s |} in
        let c' := {| Subscription_closed := Subscription_closed c;
                     subscriptions := subscriptions c ++ [child] |} in
        (child, set_groupSub (<[g := c']> (groupSub w)) (set_heap (<[child := s']> (heap w)) w))
  | _, _ => (child, w)
  end.

(** A call that a handler makes on the bus.  [unsubscribe()] on a group
    (lines 229-233) is [Subscription_unsubscribe] on its composite, and
    nothing when it has none. *)
Definition run (w : World) (act : Act) : World :=
  match act with
  | act_unsubscribe sub => unsubscribe w sub
  | act_group_unsubscribe g => Subscription_unsubscribe g w
  end.

(** [SafeSubscriber.next]: the handler is called inside [__tryOrUnsub]; when
    it throws, the subscriber is unsubscribed, and the error is reported
    later, outside the dispatch. *)
Definition invoke (sub : addr) (handler : Handler) (arg : HandlerArg) (w : World) : World :=
  let r := callbacks w (length (calls (env w))) handler arg in
  let e := {| console := console (env w) ++ prints r;
              calls := calls (env w) ++ [mkCall sub handler arg] |} in
  let w := foldl run (set_env e w) (acts r) in
  if throws r then unsubscribe w sub else w.

(** [Subscriber.next] through the [filter] operator: a stopped subscriber
    ignores the value; otherwise a value that passes the predicate goes to
    the destination observer, which calls its handler. *)
Definition Subscriber_next (value : BusEvent) (w : World) (a : addr) : World :=
  match heap w !! a with
  | None => w
  | Some s =>
      if closed s then w
      else
        let '(pass, e1) := predicate s value (env w) in
        if pass then
          let '(handler, arg) := destination s value in
          invoke a handler arg (set_env e1 w)
        else set_env e1 w
  end.

(** [Subject.next]: [copy = observers.slice()], then [copy[i].next(value)]
    for each [i] in turn. *)
Definition Subject_next (value : BusEvent) (w : World) : World :=
  let copy := observers_of w in
  foldl (Subscriber_next value) w copy.

End Rx.

(** ** class EventBusSrv (lines 111-203) *)

Module EventBusSrv.

(** [event => { return event.type === typeFilter.type }] (line 125) *)
Definition typeFilter_predicate (typeFilter : BusEventType) (event : BusEvent) (e : Env)
  : bool * Env :=
  (String.eqb (type event) (static_type typeFilter), e).

(** [{ next: handler }] (line 129) *)
Definition handler_observer (handler : Handler) (event : BusEvent)
  : Handler * HandlerArg :=
  (handler, ArgEvent event).

(** [streamEvent => { console.log('got event', event);
                      return streamEvent.type === event.name }] (line 173) *)
Definition name_predicate (event : AppEvent) (streamEvent : BusEvent) (e : Env)
  : bool * Env :=
  let e := console_log [LogStr "got event"; LogAppEvent event] e in
  (String.eqb (type streamEvent) (name event), e).

(** [{ next: streamEvent => { handler(streamEvent.payload) } }] (line 178) *)
Definition payload_observer (handler : Handler) (streamEvent : BusEvent)
  : Handler * HandlerArg :=
  (handler, ArgPayload (get_payload streamEvent)).

(** [$emit(event) { this.eventStream.next(event) }] *)
Definition dollar_emit (event : BusEvent) (w : World) : World :=
  Rx.Subject_next event w.

(** [$on(typeFilter, handler)
      { return this.eventStream.pipe(filter(...)).subscribe({ next: handler }) }] *)
Definition dollar_on (typeFilter : BusEventType) (handler : Handler) (w : World)
  : addr * World :=
  Rx.subscribe (typeFilter_predicate typeFilter) (handler_observer handler) w.

(** The two deprecation notices (lines 138 and 157). *)
Definition emit_notice : list ConsoleArg :=
  [LogStr "Deprecated emitter function used (emit), use $emit"].

Definition on_notice : list ConsoleArg :=
  [LogStr "Deprecated emitter function used (on), use $on"].

(** Legacy [emit(event, payload)] *)
Definition emit (event : EventArg) (payload : JsValue) (w : World) : Completion * World :=
  let w := set_env (console_log emit_notice (env w)) w in
  match event with
  | ByName event =>
      (Normal RetUndefined, Rx.Subject_next {| type := event; payload := Some payload |} w)
  | ByDescriptor event =>
      (Normal RetUndefined, Rx.Subject_next {| type := name event; payload := Some payload |} w)
  end.

(** Legacy [on(event, handler, scope)].  With a string the function logs
    and returns; with a descriptor it subscribes, keeps no reference to
    the subscription, and falls off its end.  [scope] is not read. *)
Definition on (event : EventArg) (handler : Handler) (w : World) : Completion * World :=
  let w := set_env (console_log on_notice (env w)) w in
  match event with
  | ByName _ => (Normal RetUndefined, w)
  | ByDescriptor event =>
      let '(_, w) := Rx.subscribe (name_predicate event) (payload_observer handler) w in
      (Normal RetUndefined, w)
  end.

(** [this.emitter]: the class declares and assigns [eventStream] only, so
    reading [emitter] from an instance gives [undefined]. *)
Definition emitter (this : EventBusSrv) : JsValue := JsUndefined.

(** [receiver.off(...)]: a member call on [undefined] or [null] throws; no
    other value of this model has methods. *)
Definition call_method_off (receiver : JsValue) : Completion :=
  match receiver with
  | JsUndefined => Throw (TypeError "Cannot read property 'off' of undefined")
  | JsNull => Throw (TypeError "Cannot read property 'off' of null")
  | _ => Throw (TypeError "this.emitter.off is not a function")
  end.

(** Legacy [off(event, handler)] *)
Definition off (event : EventArg) (handler : Handler) (w : World) : Completion * World :=
  match event with
  | ByName event => (call_method_off (emitter (srv w)), w)
  | ByDescriptor event => (call_method_off (emitter (srv w)), w)
  end.

End EventBusSrv.

(** ** class EventBusGroup (lines 208-234) *)

Module EventBusGroup.

(** [addToGroupSub(childSub)] *)
Definition addToGroupSub (this : EventBus) (childSub : addr) (w : World) : addr * World :=
  let w :=
    match groupSub w !! this with
    | None =>
        set_groupSub
          (<[this := {| Subscription_closed := false; subscriptions := [] |}]> (groupSub w)) w
    | Some _ => w
    end in
  Rx.add this childSub w.

(** [$on(typeFilter, handler)], given the [$on] of [this.bus]. *)
Definition dollar_on
    (bus_dollar_on : BusEventType -> Handler -> World -> addr * World)
    (this : EventBus) (typeFilter : BusEventType) (handler : Handler) (w : World)
    : addr * World :=
  let '(childSub, w) := bus_dollar_on typeFilter handler w in
  addToGroupSub this childSub w.

(** [$emit(event)], given the [$emit] of [this.bus]. *)
Definition dollar_emit
    (bus_dollar_emit : BusEvent -> World -> World)
    (event : BusEvent) (w : World) : World :=
  bus_dollar_emit event w.

(** [unsubscribe() { if (this.groupSub) { this.groupSub.unsubscribe() } }] *)
Definition unsubscribe (this : EventBus) (w : World) : World :=
  match groupSub w !! this with
  | Some _ => Rx.Subscription_unsubscribe this w
  | None => w
  end.

End EventBusGroup.

(** ** interface EventBus: dispatch on the receiver *)

Fixpoint dollar_on (this : EventBus) (typeFilter : BusEventType) (handler : Handler)
    (w : World) : addr * World :=
  match this with
  | Srv => EventBusSrv.dollar_on typeFilter handler w
  | Group bus id =>
      EventBusGroup.dollar_on (dollar_on bus) (Group bus id) typeFilter handler w
  end.

Fixpoint dollar_emit (this : EventBus) (event : BusEvent) (w : World) : World :=
  match this with
  | Srv => EventBusSrv.dollar_emit event w
  | Group bus id => EventBusGroup.dollar_emit (dollar_emit bus) event w
  end.

(** ** Clients *)

(** One call of a client.  A client can unsubscribe only what [$on] has
    returned to it: [call_unsubscribe k] is [unsubscribe()] on the handle
    that the [k]-th [$on] of the session returned. *)
Inductive Op :=
  | call_dollar_emit (this : EventBus) (event : BusEvent)
  | call_dollar_on (this : EventBus) (typeFilter : BusEventType) (handler : Handler)
  | call_unsubscribe (k : nat)
  | call_group_unsubscribe (bus : EventBus) (id : nat)
  | call_emit (event : EventArg) (payload : JsValue)
  | call_on (event : EventArg) (handler : Handler)
  | call_off (event : EventArg) (handler : Handler).

Record Session := mkSession {
  world : World;
  handles : list addr
}.

(** The program whose handlers behave as [b] says, before its first call. *)
Definition program (b : Behaviour) : Session := {| world := init_with b; handles := [] |}.

(** The program whose handlers only return. *)
Definition start : Session := program (fun _ _ _ => returns).

Definition step (op : Op) (s : Session) : Completion * Session :=
  match op with
  | call_dollar_emit this event =>
      (Normal RetUndefined,
       {| world := dollar_emit this event (world s); handles := handles s |})
  | call_dollar_on this typeFilter handler =>
      let '(sub, w) := dollar_on this typeFilter handler (world s) in
      (Normal (RetUnsubscribable sub), {| world := w; handles := handles s ++ [sub] |})
  | call_unsubscribe k =>
      match handles s !! k with
      | Some sub =>
          (Normal RetUndefined,
           {| world := Rx.unsubscribe (world s) sub; handles := handles s |})
      | None => (Normal RetUndefined, s)
      end
  | call_group_unsubscribe bus id =>
      (Normal RetUndefined,
       {| world := EventBusGroup.unsubscribe (Group bus id) (world s); handles := handles s |})
  | call_emit event payload =>
      let '(r, w) := EventBusSrv.emit event payload (world s) in
      (r, {| world := w; handles := handles s |})
  | call_on event handler =>
      let '(r, w) := EventBusSrv.on event handler (world s) in
      (r, {| world := w; handles := handles s |})
  | call_off event handler =>
      let '(r, w) := EventBusSrv.off event handler (world s) in
      (r, {| world := w; handles := handles s |})
  end.

(** A client that goes on after each call, whatever its completion. *)
Definition exec (ops : list Op) (s : Session) : Session :=
  foldl (fun s op => snd (step op s)) s ops.

(** ** Observations *)

(** What the handler of subscription [sub] has been called with so far. *)
Definition received (sub : addr) (w : World) : list (Handler * HandlerArg) :=
  (fun c => (call_handler c, call_arg c)) <$>
    filter (fun c => call_sub c = sub) (calls (env w)).

(** The public [closed] flag of a subscription. *)
Definition is_closed (sub : addr) (w : World) : bool :=
  match heap w !! sub with
  | Some s => closed s
  | None => false
  end.

(** The events that the calls [ops] push on the stream, in order. *)
Definition emitted_by (op : Op) : list BusEvent :=
  match op with
  | call_dollar_emit _ event => [event]
  | call_emit (ByName event) payload => [{| type := event; payload := Some payload |}]
  | call_emit (ByDescriptor event) payload => [{| type := name event; payload := Some payload |}]
  | _ => []
  end.

Definition emitted (ops : list Op) : list BusEvent := ops ≫= emitted_by.

(** [through g this]: a subscription made by [this.$on] is added to the
    composite of group [g]. *)
Fixpoint through (g : EventBus) (this : EventBus) : bool :=
  match this with
  | Srv => false
  | Group bus id => bool_decide (g = Group bus id) || through g bus
  end.

(** [this.$on(typeFilter, handler)], called in session [s0], returns the
    handle [sub] and leaves session [s1]. *)
Definition subscribes (s0 : Session) (this : EventBus) (typeFilter : BusEventType)
    (handler : Handler) (sub : addr) (s1 : Session) : Prop :=
  step (call_dollar_on this typeFilter handler) s0 = (Normal (RetUnsubscribable sub), s1).

(** The calls that release the handle which [this.$on] returned in session
    [s0]: [unsubscribe()] on that handle, or on a group it went through. *)
Definition releases (s0 : Session) (this : EventBus) (u : Op) : Prop :=
  match u with
  | call_unsubscribe k => k = length (handles s0)
  | call_group_unsubscribe bus id => through (Group bus id) this = true
  | _ => False
  end.

(** The handler that a call registers, if it registers one. *)
Definition registers (op : Op) : option Handler :=
  match op with
  | call_dollar_on _ _ handler => Some handler
  | call_on (ByDescriptor _) handler => Some handler
  | _ => None
  end.

(** Whether a call adds a subscription to the composite of group [g]. *)
Definition adds_through (g : EventBus) (op : Op) : bool :=
  match op with
  | call_dollar_on this _ _ => through g this
  | _ => false
  end.

(** The tag that the legacy functions read from their first argument. *)
Definition legacy_tag (event : EventArg) : string :=
  match event with
  | ByName event => event
  | ByDescriptor event => name event
  end.

(** No closure of subscriber [s] calls handler [h]. *)
Definition spares (h : Handler) (s : Subscriber) : Prop :=
  (exists typeFilter handler,
     handler <> h /\
     predicate s = EventBusSrv.typeFilter_predicate typeFilter /\
     destination s = EventBusSrv.handler_observer handler) \/
  (exists event handler,
     handler <> h /\
     predicate s = EventBusSrv.name_predicate event /\
     destination s = EventBusSrv.payload_observer handler).

(** ** Invariants of the reachable worlds *)

(** Every subscriber was built at one of the two [subscribe] sites of the
    source, and so runs one of the two pairs of closures. *)
Inductive from_source (s : Subscriber) : Prop :=
  | from_dollar_on (typeFilter : BusEventType) (handler : Handler) :
      predicate s = EventBusSrv.typeFilter_predicate typeFilter ->
      destination s = EventBusSrv.handler_observer handler ->
      from_source s
  | from_on (event : AppEvent) (handler : Handler) :
      predicate s = EventBusSrv.name_predicate event ->
      destination s = EventBusSrv.payload_observer handler ->
      from_source s.

(** The handler calls that subscriber [s], at address [a], makes for one
    value of the stream. *)
Definition fires (s : Subscriber) (a : addr) (value : BusEvent) : list Call :=
  if closed s then []
  else
    let '(pass, e1) := predicate s value {| console := []; calls := [] |} in
    if pass then
      let '(handler, arg) := destination s value in [mkCall a handler arg]
    else [].

Definition dispatch (w : World) (value : BusEvent) (a : addr) : list Call :=
  match heap w !! a with
  | Some s => fires s a value
  | None => []
  end.

(** The children of the composite of group [g], if it has one yet. *)
Definition children_of (g : EventBus) (w : World) : list addr :=
  match groupSub w !! g with
  | Some c => subscriptions c
  | None => []
  end.

(** Whether group [g] has a composite that was unsubscribed. *)
Definition group_closed (g : EventBus) (w : World) : bool :=
  match groupSub w !! g with
  | Some c => Subscription_closed c
  | None => false
  end.

(** An open subscriber is a child of each composite that it names as a
    parent, and that composite is open; the subscribers in [pending] are
    excused for the composite of [g], which is being torn down. *)
Definition parents_ok (pending : list addr) (g : EventBus) (w : World) : Prop :=
  forall a s p,
    heap w !! a = Some s -> closed s = false -> p ∈ parentOrParents s ->
    (exists c, groupSub w !! p = Some c /\ Subscription_closed c = false /\
               a ∈ subscriptions c)
    \/ (p = g /\ a ∈ pending).

Record Wf (w : World) : Prop := {
  wf_observers :
    observers_of w =
    filter (fun a => is_closed a w = false) (seq 0 (length (heap w)));
  wf_closures : forall a s, heap w !! a = Some s -> from_source s;
  wf_calls : forall c, c ∈ calls (env w) -> call_sub c < length (heap w);
  wf_children : forall g a, a ∈ children_of g w -> a < length (heap w)
}.

Definition Inv (w : World) : Prop := Wf w /\ parents_ok [] Srv w.

(** [m'] is [m] after [remove(a)] on some composites. *)
Definition shrinks (a : addr) (m m' : gmap EventBus Subscription) : Prop :=
  forall g,
    match m' !! g, m !! g with
    | Some c', Some c =>
        Subscription_closed c' = Subscription_closed c /\
        (forall b, b ∈ subscriptions c -> b <> a -> b ∈ subscriptions c') /\
        (forall b, b ∈ subscriptions c' -> b ∈ subscriptions c)
    | None, None => True
    | _, _ => False
    end.

(** [w'] is a later state of [w]: subscribers are never freed, keep their
    closures, stay closed once closed, and keep their parents while open;
    no composite adopts a subscriber of [w]; the traces only grow. *)
Record evolves (w w' : World) : Prop := {
  ev_heap :
    forall a s, heap w !! a = Some s ->
      exists s', heap w' !! a = Some s' /\
        predicate s' = predicate s /\ destination s' = destination s /\
        (closed s = true -> closed s' = true) /\
        (closed s' = false -> parentOrParents s ⊆ parentOrParents s');
  ev_children :
    forall g a, a < length (heap w) -> a ∈ children_of g w' -> a ∈ children_of g w;
  ev_calls : calls (env w) `prefix_of` calls (env w');
  ev_console : console (env w) `prefix_of` console (env w')
}.

(** [m'] is [m] after any number of [remove]s. *)
Definition narrows (m m' : gmap EventBus Subscription) : Prop :=
  forall g,
    match m' !! g, m !! g with
    | Some c', Some c =>
        Subscription_closed c' = Subscription_closed c /\
        (forall b, b ∈ subscriptions c' -> b ∈ subscriptions c)
    | None, None => True
    | _, _ => False
    end.

(** [w'] is [w] after a [$on] whose subscriber [s] went through the groups
    of [chain]; [s] is closed when one of them had been unsubscribed. *)
Definition registered (w : World) (chain : EventBus -> bool) (s : Subscriber)
    (w' : World) : Prop :=
  heap w' = heap w ++ [s] /\ env w' = env w /\ Inv w' /\ evolves w w' /\
  (forall g, chain g = true -> closed s = true \/ g ∈ parentOrParents s) /\
  (forall g, length (heap w) ∈ children_of g w' -> chain g = true) /\
  (forall g, chain g = false -> groupSub w !! g = None -> groupSub w' !! g = None) /\
  (closed s = true <-> exists g, chain g = true /\ group_closed g w = true) /\
  (forall g, group_closed g w' = group_closed g w) /\
  (forall g, is_Some (groupSub w !! g) \/ chain g = true -> is_Some (groupSub w' !! g)).

(** Nothing that a client holds reaches subscription [a]: it is open, no
    handle of the session names it, and no composite has it as a child. *)
Definition out_of_reach (a : addr) (s : Session) : Prop :=
  a < length (heap (world s)) /\
  is_closed a (world s) = false /\
  (a ∉ handles s) /\
  forall g, a ∉ children_of g (world s).

(** The client holds subscription [sub] as its handle number [k] only, and
    only the composites of the groups that [this.$on] goes through have it as
    a child; it is open. *)
Definition held (k : nat) (this : EventBus) (sub : addr) (s : Session) : Prop :=
  sub < length (heap (world s)) /\
  is_closed sub (world s) = false /\
  (forall j, handles s !! j = Some sub -> j = k) /\
  (forall g, sub ∈ children_of g (world s) -> through g this = true).

(** ** What handlers may do *)

(** No handler calls the bus when it is given [value], or its payload. *)
Definition calm (w : World) (value : BusEvent) : Prop :=
  forall n h,
    acts (callbacks w n h (ArgEvent value)) = [] /\
    acts (callbacks w n h (ArgPayload (get_payload value))) = [].

(** The call [act] releases the subscription [sub] that [this.$on]
    returned: it is [unsubscribe()] on it, or on a group it went through. *)
Definition lets_go (this : EventBus) (sub : addr) (act : Act) : Prop :=
  match act with
  | act_unsubscribe a => a = sub
  | act_group_unsubscribe g => through g this = true
  end.

(** No handler of [b] releases that subscription. *)
Definition keeps (b : Behaviour) (this : EventBus) (sub : addr) : Prop :=
  forall n h arg act, act ∈ acts (b n h arg) -> ~ lets_go this sub act.

(** The subscription [sub], made by [this.$on], is open, and only the
    composites of the groups that [this.$on] goes through have it as a
    child. *)
Definition guarded (this : EventBus) (sub : addr) (w : World) : Prop :=
  sub < length (heap w) /\
  is_closed sub w = false /\
  forall g, sub ∈ children_of g w -> through g this = true.

(** Composites are never dropped, and a closed one stays closed. *)
Definition lasting (g : EventBus) (w w' : World) : Prop :=
  (is_Some (groupSub w !! g) -> is_Some (groupSub w' !! g)) /\
  (group_closed g w = true -> group_closed g w' = true).

(** No handler calls [unsubscribe()] on a group. *)
Definition leaves_groups (b : Behaviour) : Prop :=
  forall n h arg g, act_group_unsubscribe g ∉ acts (b n h arg).

(** The handler [h] never ends by throwing. *)
Definition never_throws (b : Behaviour) (h : Handler) : Prop :=
  forall n arg, throws (b n h arg) = false.

(** No handler writes to the console. *)
Definition silent (b : Behaviour) : Prop := forall n h arg, prints (b n h arg) = [].

(** The subscriptions that [on(descriptor, _)] made are open, in no
    composite, their handlers do not throw, and no handler unsubscribes
    them. *)
Definition legacy_kept (w : World) : Prop :=
  forall a s event handler,
    heap w !! a = Some s ->
    predicate s = EventBusSrv.name_predicate event ->
    destination s = EventBusSrv.payload_observer handler ->
    guarded Srv a w /\ keeps (callbacks w) Srv a /\ never_throws (callbacks w) handler.

(** The program in which the handler [h0] reacts with [r] and every other
    handler only returns. *)
Definition only (h0 : Handler) (r : Reaction) : Behaviour :=
  fun _ h _ => if decide (h = h0) then r else returns.

(** A handler that throws, and one that calls [unsubscribe()] on the
    subscription at [sub]. *)
Definition throwing : Reaction := {| prints := []; acts := []; throws := true |}.

Definition unsubscribing (sub : addr) : Reaction :=
  {| prints := []; acts := [act_unsubscribe sub]; throws := false |}.

(** ** States met along the way *)

(** A list of calls, as the handlers see it. *)
Definition shown (cs : list Call) : list (Handler * HandlerArg) :=
  (fun c => (call_handler c, call_arg c)) <$> cs.

(** The subscriber that [unsubscribe] leaves in place of [s]. *)
Definition closed_copy (s : Subscriber) : Subscriber :=
  {| closed := true; parentOrParents := [];
     predicate := predicate s; destination := destination s |}.

(** The child, its composite and the world after [add] has linked them. *)
Definition adopted (g : EventBus) (s : Subscriber) : Subscriber :=
  {| closed := closed s; parentOrParents := parentOrParents s ++ [g];
     predicate := predicate s; destination := destination s |}.

Definition adopting (child : addr) (c : Subscription) : Subscription :=
  {| Subscription_closed := Subscription_closed c;
     subscriptions := subscriptions c ++ [child] |}.

Definition adopt (g : EventBus) (child : addr) (s : Subscriber) (c : Subscription)
    (w : World) : World :=
  set_groupSub (<[g := adopting child c]> (groupSub w))
    (set_heap (<[child := adopted g s]> (heap w)) w).

(** The composite that [addToGroupSub] creates on first use. *)
Definition fresh_groupSub (g : EventBus) (w : World) : World :=
  set_groupSub
    (<[g := {| Subscription_closed := false; subscriptions := [] |}]> (groupSub w)) w.

(** The world once a composite is marked closed, before its children are. *)
Definition torn_down (g : EventBus) (w : World) : World :=
  set_groupSub
    (<[g := {| Subscription_closed := true; subscriptions := [] |}]> (groupSub w)) w.

(** ** One emission, read off the calls of the session *)

(** The handler calls that [bus.$emit(event)] makes in world [w]. *)
Definition delivered (bus : EventBus) (event : BusEvent) (w : World) : list Call :=
  drop (length (calls (env w))) (calls (env (dollar_emit bus event w))).

(** The calls of a session that subscribe: every [$on], and [on] with a
    descriptor. *)
Definition registrations (ops : list Op) : list Op :=
  ops ≫= fun op => match registers op with Some _ => [op] | None => [] end.

(** Subscriber [st] runs the closures that the subscribing call [op] builds. *)
Definition runs (op : Op) (st : Subscriber) : Prop :=
  match op with
  | call_dollar_on _ typeFilter handler =>
      predicate st = EventBusSrv.typeFilter_predicate typeFilter /\
      destination st = EventBusSrv.handler_observer handler
  | call_on (ByDescriptor event) handler =>
      predicate st = EventBusSrv.name_predicate event /\
      destination st = EventBusSrv.payload_observer handler
  | _ => False
  end.

(** What the subscription numbered [a], made by the call [op], does with one
    event in world [w]. *)
Definition answer (w : World) (event : BusEvent) (a : addr) (op : Op) : list Call :=
  if is_closed a w then []
  else
    match op with
    | call_dollar_on _ typeFilter handler =>
        if decide (type event = static_type typeFilter)
        then [mkCall a handler (ArgEvent event)] else []
    | call_on (ByDescriptor d) handler =>
        if decide (type event = name d)
        then [mkCall a handler (ArgPayload (get_payload event))] else []
    | _ => []
    end.

(** The subscriptions that [unsubscribe()] on group [g] closes in world [w]. *)
Definition released_by (g : EventBus) (w : World) : list addr :=
  if group_closed g w then [] else children_of g w.

(** ** The console *)

(** The line that the filter of a descriptor subscription logs (line 174). *)
Definition got_event (event : AppEvent) : list ConsoleArg :=
  [LogStr "got event"; LogAppEvent event].

(** The descriptor that a call subscribes with, if it is [on(descriptor, _)]. *)
Definition described (op : Op) : list AppEvent :=
  match op with
  | call_on (ByDescriptor event) _ => [event]
  | _ => []
  end.

(** The lines that one call writes when [ds] are the descriptors that [on]
    has subscribed with so far. *)
Definition logged_by (ds : list AppEvent) (op : Op) : list (list ConsoleArg) :=
  match op with
  | call_dollar_emit _ _ => got_event <$> ds
  | call_emit _ _ => EventBusSrv.emit_notice :: (got_event <$> ds)
  | call_on _ _ => [EventBusSrv.on_notice]
  | _ => []
  end.

(** The lines that subscriber [s], at address [a], writes for one value of
    the stream. *)
Definition logs (s : Subscriber) (a : addr) (value : BusEvent) : list (list ConsoleArg) :=
  if closed s then []
  else console (predicate s value {| console := []; calls := [] |}).2.

Definition chatter (w : World) (value : BusEvent) (a : addr) : list (list ConsoleArg) :=
  match heap w !! a with
  | Some s => logs s a value
  | None => []
  end.

(** ** The composites *)

(** The children of a composite are distinct, open, and name the composite
    as a parent. *)
Definition kids_ok (w : World) : Prop :=
  forall g,
    NoDup (children_of g w) /\
    forall a, a ∈ children_of g w ->
      exists s, heap w !! a = Some s /\ closed s = false /\ g ∈ parentOrParents s.

(** ** The life of a subscription *)

Global Instance releases_dec s0 this u : Decision (releases s0 this u).
Proof. destruct u; simpl; apply _. Defined.

(** The calls of [ops] up to the first one that releases the handle which
    [this.$on] returned in session [s0]. *)
Fixpoint before_release (s0 : Session) (this : EventBus) (ops : list Op) : list Op :=
  match ops with
  | [] => []
  | u :: ops =>
      if decide (releases s0 this u) then [] else u :: before_release s0 this ops
  end.

(** The call [c] is one that the subscription made by [op] makes for an
    event of [es]: its own handler, with an event of its tag ([$on]) or the
    payload of one ([on]). *)
Definition called_as (op : Op) (es : list BusEvent) (c : Call) : Prop :=
  match op with
  | call_dollar_on _ typeFilter handler =>
      call_handler c = handler /\
      exists e, e ∈ es /\ type e = static_type typeFilter /\ call_arg c = ArgEvent e
  | call_on (ByDescriptor d) handler =>
      call_handler c = handler /\
      exists e, e ∈ es /\ type e = name d /\ call_arg c = ArgPayload (get_payload e)
  | _ => False
  end.

(** Whether a call is [unsubscribe()] on group [g]. *)
Definition unsubscribes_group (g : EventBus) (op : Op) : bool :=
  match op with
  | call_group_unsubscribe bus id => bool_decide (g = Group bus id)
  | _ => false
  end.

(** Whether the calls [ops] leave group [g] unsubscribed for good: some
    [unsubscribe()] on it comes after a [$on] that went through it.  [used]
    tells whether such a [$on] came before [ops]. *)
Fixpoint unsubscribed_for_good (g : EventBus) (used : bool) (ops : list Op) : bool :=
  match ops with
  | [] => false
  | op :: ops =>
      if used && unsubscribes_group g op then true
      else unsubscribed_for_good g (used || adds_through g op) ops
  end.

(** * Properties *)

(** ** Lists of addresses *)

Lemma filter_all {A} (P : A -> Prop) `{!forall x, Decision (P x)} (l : list A) :
  Forall P l -> filter P l = l.
Proof.
  induction 1 as [|x l Hx Hl IH]; [done|].
  rewrite filter_cons_True by done. by rewrite IH.
Qed.

Lemma filter_none {A} (P : A -> Prop) `{!forall x, Decision (P x)} (l : list A) :
  Forall (fun x => ~ P x) l -> filter P l = [].
Proof.
  induction 1 as [|x l Hx Hl IH]; [done|].
  by rewrite filter_cons_False.
Qed.

Lemma splice_out_filter (x : addr) (l : list addr) :
  NoDup l -> Rx.splice_out x l = filter (fun y => y <> x) l.
Proof.
  induction 1 as [|y l Hy Hl IH]; simpl; [done|].
  destruct (decide (y = x)) as [->|Hne].
  - rewrite filter_cons_False by (intros H; by apply H).
    symmetry. apply filter_all. apply Forall_forall.
    intros z Hz ->. by apply Hy.
  - rewrite filter_cons_True by done. by rewrite IH.
Qed.

Lemma elem_of_splice_out (x y : addr) (l : list addr) :
  y ∈ l -> y <> x -> y ∈ Rx.splice_out x l.
Proof.
  induction l as [|z l IH]; simpl; [done|].
  intros Hy Hne. destruct (decide (z = x)) as [->|Hz].
  - apply elem_of_cons in Hy as [->|Hy]; [done | done].
  - apply elem_of_cons in Hy as [->|Hy]; [left | right; auto].
Qed.

Lemma splice_out_elem_of (x y : addr) (l : list addr) :
  y ∈ Rx.splice_out x l -> y ∈ l.
Proof.
  induction l as [|z l IH]; simpl; [done|].
  destruct (decide (z = x)) as [->|Hz]; intros Hy.
  - by right.
  - apply elem_of_cons in Hy as [->|Hy]; [left | right; auto].
Qed.

(** ** What each rxjs primitive leaves alone *)

Lemma foldl_remove_frame a l w :
  srv (foldl (Rx.remove a) w l) = srv w /\
  heap (foldl (Rx.remove a) w l) = heap w /\
  env (foldl (Rx.remove a) w l) = env w.
Proof.
  revert w. induction l as [|g l IH]; intros w; simpl; [done|].
  destruct (IH (Rx.remove a w g)) as (-> & -> & ->).
  unfold Rx.remove. by destruct (groupSub w !! g).
Qed.

(** Removing a child rewrites the child lists only: every composite keeps
    its [closed] flag, and loses at most the child. *)
Lemma shrinks_refl a m : shrinks a m m.
Proof. intros g. destruct (m !! g); naive_solver. Qed.

Lemma shrinks_trans a m1 m2 m3 : shrinks a m1 m2 -> shrinks a m2 m3 -> shrinks a m1 m3.
Proof.
  intros H12 H23 g. specialize (H12 g). specialize (H23 g).
  destruct (m3 !! g), (m2 !! g), (m1 !! g); try done.
  destruct H12 as (E12 & ? & ?), H23 as (E23 & ? & ?).
  split_and!; [congruence | auto | auto].
Qed.

Lemma remove_shrinks a w p : shrinks a (groupSub w) (groupSub (Rx.remove a w p)).
Proof.
  unfold Rx.remove. destruct (groupSub w !! p) as [cp|] eqn:Hp; [|apply shrinks_refl].
  intros g. simpl. destruct (decide (p = g)) as [->|Hne].
  - rewrite lookup_insert_eq, Hp. simpl. split_and!; [done| |].
    + intros b Hb Hne. by apply elem_of_splice_out.
    + intros b. apply splice_out_elem_of.
  - rewrite lookup_insert_ne by done. destruct (groupSub w !! g); naive_solver.
Qed.

Lemma foldl_remove_shrinks a l w :
  shrinks a (groupSub w) (groupSub (foldl (Rx.remove a) w l)).
Proof.
  revert w. induction l as [|p l IH]; intros w; simpl; [apply shrinks_refl|].
  eapply shrinks_trans; [apply remove_shrinks | apply IH].
Qed.

(** ** Dispatch *)

Lemma fires_dollar_on s a value typeFilter handler :
  closed s = false ->
  predicate s = EventBusSrv.typeFilter_predicate typeFilter ->
  destination s = EventBusSrv.handler_observer handler ->
  fires s a value =
    if String.eqb (type value) (static_type typeFilter)
    then [mkCall a handler (ArgEvent value)] else [].
Proof.
  intros Hc Hp Hd. unfold fires. rewrite Hc, Hp, Hd. simpl.
  by destruct (String.eqb _ _).
Qed.

Lemma fires_on s a value event handler :
  closed s = false ->
  predicate s = EventBusSrv.name_predicate event ->
  destination s = EventBusSrv.payload_observer handler ->
  fires s a value =
    if String.eqb (type value) (name event)
    then [mkCall a handler (ArgPayload (get_payload value))] else [].
Proof.
  intros Hc Hp Hd. unfold fires. rewrite Hc, Hp, Hd. simpl.
  by destruct (String.eqb _ _).
Qed.

Lemma fires_closed s a value : closed s = true -> fires s a value = [].
Proof. intros Hc. unfold fires. by rewrite Hc. Qed.

Lemma fires_tag s a value c :
  from_source s -> c ∈ fires s a value -> call_sub c = a.
Proof.
  intros Hs Hc. destruct (closed s) eqn:Hcl.
  { rewrite fires_closed in Hc by done. by apply elem_of_nil in Hc. }
  destruct Hs as [tf h Hp Hd | d h Hp Hd].
  - rewrite (fires_dollar_on _ _ _ tf h) in Hc by done.
    destruct (String.eqb _ _); [|by apply elem_of_nil in Hc].
    apply list_elem_of_singleton in Hc. by subst.
  - rewrite (fires_on _ _ _ d h) in Hc by done.
    destruct (String.eqb _ _); [|by apply elem_of_nil in Hc].
    apply list_elem_of_singleton in Hc. by subst.
Qed.

Lemma dispatch_heap w w' value a :
  heap w' = heap w -> dispatch w' value a = dispatch w value a.
Proof. unfold dispatch. by intros ->. Qed.

Lemma bind_filter_nil {A B} (P : A -> Prop) `{!forall x, Decision (P x)}
    (f : A -> list B) (l : list A) :
  (forall x, ~ P x -> f x = []) -> filter P l ≫= f = l ≫= f.
Proof.
  intros Hf. induction l as [|x l IH]; [done|].
  destruct (decide (P x)) as [HP|HP].
  - rewrite filter_cons_True by done. by rewrite !bind_cons, IH.
  - rewrite filter_cons_False by done. by rewrite bind_cons, IH, (Hf x HP).
Qed.

Lemma filter_bind_tag (f : addr -> list Call) (sub : addr) (l : list addr) :
  NoDup l ->
  (forall a c, c ∈ f a -> call_sub c = a) ->
  filter (fun c => call_sub c = sub) (l ≫= f) =
    if decide (sub ∈ l) then f sub else [].
Proof.
  intros Hl Hf. induction Hl as [|x l Hx Hl IH].
  - rewrite decide_False; [done | apply not_elem_of_nil].
  - rewrite bind_cons, filter_app, IH. destruct (decide (x = sub)) as [->|Hne].
    + destruct (decide (sub ∈ l)) as [|_]; [done|].
      destruct (decide (sub ∈ sub :: l)) as [_|Hn]; [|exfalso; apply Hn; left].
      rewrite app_nil_r. apply filter_all, Forall_forall. intros c. apply Hf.
    + rewrite (filter_none _ (f x)).
      2:{ apply Forall_forall. intros c Hc Hs. apply Hf in Hc. congruence. }
      simpl. destruct (decide (sub ∈ l)) as [Hi|Hi].
      * destruct (decide (sub ∈ x :: l)) as [_|Hn]; [done|].
        exfalso. apply Hn. by right.
      * destruct (decide (sub ∈ x :: l)) as [Hn|_]; [|done].
        apply elem_of_cons in Hn as [?|?]; [congruence | done].
Qed.

(** ** [unsubscribe] on a subscriber *)

Lemma shrinks_children a g w w' b :
  shrinks a (groupSub w) (groupSub w') -> b ∈ children_of g w' -> b ∈ children_of g w.
Proof.
  intros Hs. specialize (Hs g). unfold children_of.
  destruct (groupSub w' !! g), (groupSub w !! g); try done.
  destruct Hs as (_ & _ & Hs). apply Hs.
Qed.

Lemma group_closed_shrinks a w w' g :
  shrinks a (groupSub w) (groupSub w') -> group_closed g w' = group_closed g w.
Proof.
  intros Hs. specialize (Hs g). unfold group_closed.
  destruct (groupSub w' !! g), (groupSub w !! g); try done. by destruct Hs.
Qed.

Lemma unsubscribe_cases w a :
  (Rx.unsubscribe w a = w /\
   (heap w !! a = None \/ exists s, heap w !! a = Some s /\ closed s = true))
  \/
  (exists s, heap w !! a = Some s /\ closed s = false /\
     heap (Rx.unsubscribe w a) = <[a := closed_copy s]> (heap w) /\
     observers_of (Rx.unsubscribe w a) = Rx.splice_out a (observers_of w) /\
     env (Rx.unsubscribe w a) = env w /\
     shrinks a (groupSub w) (groupSub (Rx.unsubscribe w a))).
Proof.
  unfold Rx.unsubscribe. destruct (heap w !! a) as [s|] eqn:Ha; [|left; auto].
  destruct (closed s) eqn:Hc; [left; eauto|].
  right. exists s.
  pose proof (foldl_remove_frame a (parentOrParents s)
                (set_heap (<[a:=closed_copy s]> (heap w)) w)) as (H1 & H2 & H3).
  pose proof (foldl_remove_shrinks a (parentOrParents s)
                (set_heap (<[a:=closed_copy s]> (heap w)) w)) as H4.
  unfold closed_copy, observers_of in *. simpl in *.
  split_and!; try done. by rewrite H1.
Qed.

Lemma is_closed_unsubscribe w a b :
  is_closed b (Rx.unsubscribe w a) =
    if decide (b = a) then
      match heap w !! a with Some _ => true | None => false end
    else is_closed b w.
Proof.
  destruct (unsubscribe_cases w a)
    as [[-> Hid] | (s & Ha & Hc & Hh & _)].
  - case_decide as Hb; [subst b|done]. unfold is_closed.
    destruct Hid as [->|(s & -> & ->)]; done.
  - unfold is_closed. rewrite Hh, Ha. case_decide as Hb.
    + subst b. rewrite list_lookup_insert_eq; [done|]. by eapply lookup_lt_Some.
    + by rewrite list_lookup_insert_ne.
Qed.

Lemma filter_ext_elem {A} (P Q : A -> Prop)
    `{!forall x, Decision (P x)} `{!forall x, Decision (Q x)} (l : list A) :
  (forall x, x ∈ l -> P x <-> Q x) -> filter P l = filter Q l.
Proof.
  induction l as [|x l IH]; intros Hext; [done|].
  rewrite !filter_cons.
  rewrite IH by (intros y Hy; apply Hext; by right).
  destruct (decide (P x)) as [HP|HP], (decide (Q x)) as [HQ|HQ]; try done.
  - exfalso. apply HQ, Hext; [left | done].
  - exfalso. apply HP, Hext; [left | done].
Qed.

Lemma unsubscribe_Wf w a : Wf w -> Wf (Rx.unsubscribe w a).
Proof.
  intros HW.
  destruct (unsubscribe_cases w a)
    as [[-> _] | (s & Ha & Hc & Hh & Ho & He & Hg)]; [done|].
  constructor.
  - rewrite Ho, (wf_observers _ HW), Hh, length_insert.
    rewrite splice_out_filter by apply NoDup_filter, NoDup_seq.
    rewrite list_filter_filter. apply list_filter_iff. intros b.
    rewrite is_closed_unsubscribe. case_decide as Hb.
    + subst b. rewrite Ha. intuition congruence.
    + intuition congruence.
  - intros b sb. rewrite Hh. destruct (decide (b = a)) as [->|Hb].
    + rewrite list_lookup_insert_eq by (by eapply lookup_lt_Some).
      intros [= <-]. destruct (wf_closures _ HW _ _ Ha) as [tf h ? ?|d h ? ?].
      * by apply (from_dollar_on _ tf h).
      * by apply (from_on _ d h).
    + rewrite list_lookup_insert_ne by done. apply HW.
  - rewrite He, Hh, length_insert. apply HW.
  - intros g b Hb. rewrite Hh, length_insert. apply (wf_children _ HW g).
    by eapply shrinks_children.
Qed.

Lemma unsubscribe_parents_ok pending g w a :
  parents_ok (a :: pending) g w -> parents_ok pending g (Rx.unsubscribe w a).
Proof.
  intros HP b s p Hb Hopen Hp.
  destruct (unsubscribe_cases w a)
    as [[Heq Hid] | (sa & Ha & Hc & Hh & _ & _ & Hg)].
  - rewrite Heq in *. destruct (HP b s p Hb Hopen Hp) as [?|[-> Hin]]; [by left|].
    right. split; [done|]. apply elem_of_cons in Hin as [->|?]; [|done].
    destruct Hid as [Hn|(s' & Hs' & Hc')]; congruence.
  - rewrite Hh in Hb. destruct (decide (b = a)) as [->|Hne].
    { rewrite list_lookup_insert_eq in Hb by (by eapply lookup_lt_Some).
      injection Hb as <-. done. }
    rewrite list_lookup_insert_ne in Hb by done.
    destruct (HP b s p Hb Hopen Hp) as [(c & Hpc & Hcc & Hbc)|[-> Hin]].
    + left. specialize (Hg p). rewrite Hpc in Hg.
      destruct (groupSub (Rx.unsubscribe w a) !! p) as [c'|]; [|done].
      exists c'. destruct Hg as (-> & Hkeep & _). auto.
    + right. split; [done|]. apply elem_of_cons in Hin as [->|?]; done.
Qed.

Lemma parents_ok_weaken (pending : list addr) g g' w :
  parents_ok [] g w -> parents_ok pending g' w.
Proof.
  intros HP b s p Hb Hopen Hp.
  destruct (HP b s p Hb Hopen Hp) as [?|[_ Hin]]; [by left|].
  by apply elem_of_nil in Hin.
Qed.

Lemma unsubscribe_Inv w a : Inv w -> Inv (Rx.unsubscribe w a).
Proof.
  intros [HW HP]. split; [by apply unsubscribe_Wf|].
  apply unsubscribe_parents_ok. by eapply parents_ok_weaken.
Qed.

Lemma evolves_refl w : evolves w w.
Proof. constructor; [|done|done|done]. intros a s Ha. exists s. naive_solver. Qed.

Lemma evolves_length w w' : evolves w w' -> length (heap w) <= length (heap w').
Proof.
  intros [H _ _ _]. destruct (decide (length (heap w) <= length (heap w'))); [done|].
  destruct (lookup_lt_is_Some_2 (heap w) (length (heap w'))) as [s Hs]; [lia|].
  destruct (H _ _ Hs) as (s' & Hs' & _). apply lookup_lt_Some in Hs'. lia.
Qed.

Lemma evolves_trans w1 w2 w3 : evolves w1 w2 -> evolves w2 w3 -> evolves w1 w3.
Proof.
  intros E12 E23. pose proof (evolves_length _ _ E12) as Hlen.
  destruct E12 as [H1 K1 C1 L1], E23 as [H2 K2 C2 L2].
  constructor; [| |by etrans|by etrans]; cycle 1.
  { intros g a Ha Hin. apply K1; [done|]. apply K2; [lia | done]. }
  intros a s Ha.
  destruct (H1 a s Ha) as (s2 & Ha2 & Hp2 & Hd2 & Hc2 & Hpar2).
  destruct (H2 a s2 Ha2) as (s3 & Ha3 & Hp3 & Hd3 & Hc3 & Hpar3).
  exists s3. split_and!; [done|congruence|congruence|auto|].
  intros Hopen. assert (closed s2 = false) as Hopen2.
  { destruct (closed s2); [|done]. rewrite Hc3 in Hopen; done. }
  etrans; [by apply Hpar2 | by apply Hpar3].
Qed.

Lemma evolves_lookup w w' a s :
  evolves w w' -> heap w !! a = Some s ->
  exists s', heap w' !! a = Some s' /\
    predicate s' = predicate s /\ destination s' = destination s /\
    (closed s = true -> closed s' = true) /\
    (closed s' = false -> parentOrParents s ⊆ parentOrParents s').
Proof. intros [H _ _ _]. apply H. Qed.

Lemma is_closed_evolves w w' a :
  evolves w w' -> is_closed a w = true -> is_closed a w' = true.
Proof.
  intros Hev. unfold is_closed. destruct (heap w !! a) as [s|] eqn:Ha; [|done].
  destruct (evolves_lookup _ _ _ _ Hev Ha) as (s' & -> & _ & _ & Hc & _). done.
Qed.

Lemma unsubscribe_evolves w a : evolves w (Rx.unsubscribe w a).
Proof.
  destruct (unsubscribe_cases w a)
    as [[-> _] | (sa & Ha & Hc & Hh & _ & He & Hg)]; [apply evolves_refl|].
  constructor; [| |by rewrite He|by rewrite He]; cycle 1.
  { intros g b _. by eapply shrinks_children. }
  intros b s Hb. rewrite Hh. destruct (decide (b = a)) as [->|Hne].
  - rewrite list_lookup_insert_eq by (by eapply lookup_lt_Some).
    exists (closed_copy sa). assert (s = sa) as -> by congruence.
    split_and!; done.
  - rewrite list_lookup_insert_ne by done. exists s. naive_solver.
Qed.

(** ** Steps that keep the heap and the composites *)

Lemma is_closed_heap w w' a : heap w' = heap w -> is_closed a w' = is_closed a w.
Proof. unfold is_closed. by intros ->. Qed.

Lemma children_of_groupSub w w' g :
  groupSub w' = groupSub w -> children_of g w' = children_of g w.
Proof. unfold children_of. by intros ->. Qed.

Lemma Wf_frame w w' :
  srv w' = srv w -> heap w' = heap w -> groupSub w' = groupSub w ->
  (forall c, c ∈ calls (env w') -> call_sub c < length (heap w)) ->
  Wf w -> Wf w'.
Proof.
  intros Hs Hh Hg Hc HW. constructor.
  - unfold observers_of. rewrite Hs, Hh. fold (observers_of w).
    rewrite (wf_observers _ HW). apply list_filter_iff. intros a.
    by rewrite (is_closed_heap w w').
  - rewrite Hh. apply HW.
  - by rewrite Hh.
  - intros g a. rewrite (children_of_groupSub w w'), Hh by done. apply HW.
Qed.

Lemma parents_ok_frame pending g w w' :
  heap w' = heap w -> groupSub w' = groupSub w ->
  parents_ok pending g w -> parents_ok pending g w'.
Proof. unfold parents_ok. by intros -> ->. Qed.

Lemma evolves_frame w w' :
  heap w' = heap w -> groupSub w' = groupSub w ->
  calls (env w) `prefix_of` calls (env w') ->
  console (env w) `prefix_of` console (env w') ->
  evolves w w'.
Proof.
  intros Hh Hg Hc Hl. constructor; [| |done|done].
  - intros a s. rewrite Hh. intros Ha. exists s. split_and!; auto.
  - intros g a _. by rewrite (children_of_groupSub w w').
Qed.

Lemma dispatch_tag w value a c :
  Wf w -> c ∈ dispatch w value a -> call_sub c = a /\ a < length (heap w).
Proof.
  intros HW. unfold dispatch. destruct (heap w !! a) as [s|] eqn:Hs.
  - intros Hc. split; [|by eapply lookup_lt_Some].
    eapply fires_tag; [|done]. by eapply wf_closures.
  - by intros ?%elem_of_nil.
Qed.

Lemma console_log_Inv args w : Inv w -> Inv (set_env (console_log args (env w)) w).
Proof.
  intros [HW HP]. split; [|by apply (parents_ok_frame _ _ w)].
  apply (Wf_frame w); try done. apply HW.
Qed.

Lemma console_log_evolves args w : evolves w (set_env (console_log args (env w)) w).
Proof. apply evolves_frame; try done. simpl. by apply prefix_app_r. Qed.

(** ** [subscribe] *)

Lemma subscribe_Wf p o w :
  from_source {| closed := false; parentOrParents := []; predicate := p; destination := o |} ->
  Wf w -> Wf (Rx.subscribe p o w).2.
Proof.
  intros Hsrc HW. simpl. constructor; simpl.
  - unfold observers_of at 1. simpl. rewrite length_app. simpl.
    rewrite Nat.add_1_r, seq_S, filter_app. simpl. f_equal.
    + rewrite (wf_observers _ HW). apply filter_ext_elem.
      intros a Ha%elem_of_seq. unfold is_closed. simpl.
      rewrite lookup_app_l by lia. done.
    + rewrite filter_cons_True; [done|].
      unfold is_closed. simpl. by rewrite lookup_app_r, Nat.sub_diag.
  - intros a s. intros [Ha|[_ Ha]]%lookup_app_Some; [by eapply wf_closures|].
    destruct (a - length (heap w)); [|done]. by injection Ha as <-.
  - intros c Hc. rewrite length_app. apply (wf_calls _ HW) in Hc. lia.
  - intros g a Ha. rewrite length_app. apply (wf_children _ HW) in Ha. lia.
Qed.

Lemma subscribe_parents_ok p o pending g w :
  parents_ok pending g w -> parents_ok pending g (Rx.subscribe p o w).2.
Proof.
  intros HP a s q. simpl.
  intros [Ha|[_ Ha]]%lookup_app_Some; [by apply HP|].
  destruct (a - length (heap w)); [|done]. injection Ha as <-. simpl.
  by intros _ ?%elem_of_nil.
Qed.

Lemma subscribe_evolves p o w : evolves w (Rx.subscribe p o w).2.
Proof.
  constructor; simpl; try done.
  intros a s Ha. exists s. rewrite lookup_app_l_Some with (x := s) by done.
  split_and!; auto.
Qed.

(** ** [add] on a composite *)

Lemma add_cases g child w c s :
  groupSub w !! g = Some c -> heap w !! child = Some s ->
  (closed s = true /\ Rx.add g child w = (child, w)) \/
  (closed s = false /\ Subscription_closed c = true /\
   Rx.add g child w = (child, Rx.unsubscribe w child)) \/
  (closed s = false /\ Subscription_closed c = false /\ g ∈ parentOrParents s /\
   Rx.add g child w = (child, w)) \/
  (closed s = false /\ Subscription_closed c = false /\ (g ∉ parentOrParents s) /\
   Rx.add g child w = (child, adopt g child s c w)).
Proof.
  intros Hg Hc. unfold Rx.add. rewrite Hg, Hc.
  destruct (closed s) eqn:Hcl; [by left|].
  destruct (Subscription_closed c) eqn:Hgc; [right; by left|].
  destruct (decide (g ∈ parentOrParents s)); [right; right; by left|].
  right; right; right. unfold adopt, adopted, adopting. by rewrite Hcl, Hgc.
Qed.

Lemma is_closed_adopt g child s c w a :
  heap w !! child = Some s -> is_closed a (adopt g child s c w) = is_closed a w.
Proof.
  intros Hc. unfold is_closed. simpl. destruct (decide (a = child)) as [->|Hne].
  - rewrite list_lookup_insert_eq by (by eapply lookup_lt_Some). by rewrite Hc.
  - by rewrite list_lookup_insert_ne.
Qed.

Lemma children_of_adopt g child s c w g' :
  groupSub w !! g = Some c ->
  children_of g' (adopt g child s c w) =
    if decide (g' = g) then children_of g w ++ [child] else children_of g' w.
Proof.
  intros Hg. unfold children_of. simpl. case_decide as Hd.
  - subst g'. by rewrite lookup_insert_eq, Hg.
  - by rewrite lookup_insert_ne.
Qed.

Lemma adopt_Wf g child s c w :
  groupSub w !! g = Some c -> heap w !! child = Some s ->
  Wf w -> Wf (adopt g child s c w).
Proof.
  intros Hg Hc HW. constructor.
  - unfold observers_of. simpl. fold (observers_of w).
    rewrite (wf_observers _ HW), length_insert. apply list_filter_iff.
    intros a. by rewrite (is_closed_adopt g child s c w).
  - intros a sa. simpl. destruct (decide (a = child)) as [->|Hne].
    + rewrite list_lookup_insert_eq by (by eapply lookup_lt_Some).
      intros [= <-]. destruct (wf_closures _ HW _ _ Hc) as [tf h ? ?|d h ? ?].
      * by apply (from_dollar_on _ tf h).
      * by apply (from_on _ d h).
    + rewrite list_lookup_insert_ne by done. apply HW.
  - simpl. rewrite length_insert. apply HW.
  - intros g' a. rewrite children_of_adopt by done. simpl. rewrite length_insert.
    case_decide; [|apply HW].
    intros [Ha|Ha]%elem_of_app; [by eapply wf_children|].
    apply list_elem_of_singleton in Ha as ->. by eapply lookup_lt_Some.
Qed.

Lemma adopt_parents_ok g child s c w :
  groupSub w !! g = Some c -> heap w !! child = Some s ->
  Subscription_closed c = false ->
  parents_ok [] Srv w -> parents_ok [] Srv (adopt g child s c w).
Proof.
  intros Hg Hc Hopen HP a sa p. simpl.
  assert (forall q b,
    (exists cq, groupSub w !! q = Some cq /\ Subscription_closed cq = false /\
                b ∈ subscriptions cq) ->
    exists cq, (<[g:=adopting child c]> (groupSub w)) !! q = Some cq /\
               Subscription_closed cq = false /\ b ∈ subscriptions cq) as Hkeep.
  { intros q b (cq & Hq & Hcq & Hb). destruct (decide (q = g)) as [->|Hne].
    - rewrite lookup_insert_eq. exists (adopting child c).
      assert (cq = c) as -> by congruence.
      split_and!; [done|done|]. simpl. apply elem_of_app. by left.
    - rewrite lookup_insert_ne by done. eauto. }
  destruct (decide (a = child)) as [->|Hne].
  - rewrite list_lookup_insert_eq by (by eapply lookup_lt_Some).
    intros [= <-]. simpl. intros Hcl [Hp|Hp]%elem_of_app.
    + left. apply Hkeep. destruct (HP child s p Hc Hcl Hp) as [?|[_ Hn]]; [done|].
      by apply elem_of_nil in Hn.
    + apply list_elem_of_singleton in Hp as ->. left.
      rewrite lookup_insert_eq. exists (adopting child c).
      split_and!; [done|done|]. simpl. apply elem_of_app. right. by left.
  - rewrite list_lookup_insert_ne by done. intros Ha Hcl Hp. left. apply Hkeep.
    destruct (HP a sa p Ha Hcl Hp) as [?|[_ Hn]]; [done|].
    by apply elem_of_nil in Hn.
Qed.

Lemma children_of_fresh g w g' :
  groupSub w !! g = None -> children_of g' (fresh_groupSub g w) = children_of g' w.
Proof.
  intros Hg. unfold children_of. simpl. destruct (decide (g' = g)) as [->|Hne].
  - by rewrite lookup_insert_eq, Hg.
  - by rewrite lookup_insert_ne.
Qed.

Lemma fresh_groupSub_Inv g w :
  groupSub w !! g = None -> Inv w -> Inv (fresh_groupSub g w).
Proof.
  intros Hg [HW HP]. split.
  - constructor; try apply HW.
    intros g' a. rewrite children_of_fresh by done. apply HW.
  - intros a s p Ha Hcl Hp. simpl in Ha.
    destruct (HP a s p Ha Hcl Hp) as [(c & Hpc & Hc)|[_ Hn]];
      [|by apply elem_of_nil in Hn].
    left. exists c. simpl. rewrite lookup_insert_ne by congruence. done.
Qed.

(** ** [$on] *)

Lemma insert_last {A} (l : list A) (x y : A) : <[length l := y]> (l ++ [x]) = l ++ [y].
Proof.
  replace (length l) with (length l + 0) at 1 by lia. by rewrite insert_app_r.
Qed.

Lemma lookup_last {A} (l : list A) (x : A) : (l ++ [x]) !! length l = Some x.
Proof. by rewrite lookup_app_r, Nat.sub_diag. Qed.

Lemma evolves_extend w w1 w2 s2 :
  evolves w w1 ->
  heap w2 = heap w ++ [s2] ->
  (forall g a, a < length (heap w) -> a ∈ children_of g w2 -> a ∈ children_of g w1) ->
  env w2 = env w1 ->
  evolves w w2.
Proof.
  intros [H1 K1 C1 L1] Hh Hk He. constructor.
  - intros a s Ha. exists s. rewrite Hh, lookup_app_l_Some with (x := s) by done.
    split_and!; auto.
  - intros g a Ha Hin. apply K1; [done|]. by apply Hk.
  - by rewrite He.
  - by rewrite He.
Qed.

Lemma subscribe_registered p o w :
  from_source {| closed := false; parentOrParents := []; predicate := p; destination := o |} ->
  Inv w ->
  registered w (fun _ => false)
    {| closed := false; parentOrParents := []; predicate := p; destination := o |}
    (Rx.subscribe p o w).2.
Proof.
  intros Hsrc [HW HP]. split_and!; try done.
  - split; [by apply subscribe_Wf | by apply subscribe_parents_ok].
  - apply subscribe_evolves.
  - intros g Hin. apply (wf_children _ HW) in Hin. lia.
  - split; [done | by intros (g & ? & _)].
  - by intros g [?|?].
Qed.

Lemma addToGroupSub_registered w chain s1 w1 g :
  registered w chain s1 w1 ->
  exists s2 w2,
    EventBusGroup.addToGroupSub g (length (heap w)) w1 = (length (heap w), w2) /\
    predicate s2 = predicate s1 /\ destination s2 = destination s1 /\
    registered w (fun g' => bool_decide (g' = g) || chain g') s2 w2.
Proof.
  intros (Hh & He & HI & Hev & Hpar & Hkid & Hnone & Hcl1 & Hgc1 & Hsome1).
  unfold EventBusGroup.addToGroupSub.
  set (w1' := match groupSub w1 !! g with
              | Some _ => w1
              | None => fresh_groupSub g w1
              end).
  change (exists s2 w2,
    Rx.add g (length (heap w)) w1' = (length (heap w), w2) /\
    predicate s2 = predicate s1 /\ destination s2 = destination s1 /\
    registered w (fun g' => bool_decide (g' = g) || chain g') s2 w2).
  assert (heap w1' = heap w1 /\ env w1' = env w1 /\ Inv w1' /\
          (forall g', children_of g' w1' = children_of g' w1) /\
          (forall g', g' <> g -> groupSub w1' !! g' = groupSub w1 !! g') /\
          (forall g', group_closed g' w1' = group_closed g' w1) /\
          exists c, groupSub w1' !! g = Some c)
    as (Hh' & He' & HI' & Hk' & Hg' & Hgc' & c & Hc).
  { subst w1'. destruct (groupSub w1 !! g) as [c|] eqn:Hg.
    - split_and!; eauto.
    - split_and!; try done.
      + by apply fresh_groupSub_Inv.
      + intros g'. by apply children_of_fresh.
      + intros g' Hne. simpl. by rewrite lookup_insert_ne.
      + intros g'. unfold group_closed. simpl.
        destruct (decide (g' = g)) as [->|Hne].
        * by rewrite lookup_insert_eq, Hg.
        * by rewrite lookup_insert_ne.
      + simpl. rewrite lookup_insert_eq. eauto. }
  assert (heap w1' !! length (heap w) = Some s1) as Hs1.
  { rewrite Hh', Hh. apply lookup_last. }
  assert (forall w2 s2,
    heap w2 = heap w ++ [s2] -> env w2 = env w1' -> Inv w2 ->
    (forall g' a, a ∈ children_of g' w2 ->
       a ∈ children_of g' w1' \/ (g' = g /\ a = length (heap w))) ->
    (forall g', g' <> g -> groupSub w1' !! g' = None -> groupSub w2 !! g' = None) ->
    (closed s2 = true \/ g ∈ parentOrParents s2) ->
    (closed s1 = true -> closed s2 = true) ->
    (closed s2 = true \/ parentOrParents s1 ⊆ parentOrParents s2) ->
    (closed s2 = true <-> closed s1 = true \/ group_closed g w1' = true) ->
    (forall g', group_closed g' w2 = group_closed g' w1') ->
    (forall g', is_Some (groupSub w1' !! g') -> is_Some (groupSub w2 !! g')) ->
    registered w (fun g' => bool_decide (g' = g) || chain g') s2 w2) as Hreg.
  { intros w2 s2 Hh2 He2 HI2 Hk2 Hn2 Hg2 Hc2 Hp2 Hcl2 Hgc2 Hsome2.
    split_and!; try done.
    - congruence.
    - apply (evolves_extend w w1 w2 s2); try done; [|congruence].
      intros g' a Ha Hin. destruct (Hk2 g' a Hin) as [Hin'|[_ ->]]; [|lia].
      by rewrite <- Hk'.
    - intros g' [Hd%bool_decide_eq_true| Hch]%orb_true_iff.
      + by subst g'.
      + destruct Hp2 as [?|Hsub]; [by left|].
        destruct (Hpar g' Hch) as [Hcl|Hin]; [left; by apply Hc2 | right; by apply Hsub].
    - intros g' Hin. apply orb_true_iff.
      destruct (Hk2 g' _ Hin) as [Hin'|[-> _]].
      + right. apply Hkid. by rewrite <- Hk'.
      + left. by apply bool_decide_eq_true.
    - intros g' [Hd%bool_decide_eq_false Hch]%orb_false_iff Hw.
      apply Hn2; [done|]. rewrite Hg' by done. by apply Hnone.
    - rewrite Hcl2, Hcl1, Hgc', Hgc1. split.
      + intros [(g' & Hch & Hg'c)|Hgc].
        * exists g'. by rewrite Hch, orb_true_r.
        * exists g. by rewrite bool_decide_true.
      + intros (g' & [Hd%bool_decide_eq_true|Hch]%orb_true_iff & Hg'c).
        * subst g'. by right.
        * left. eauto.
    - intros g'. by rewrite Hgc2, Hgc', Hgc1.
    - intros g' Hg'1. apply Hsome2. destruct (decide (g' = g)) as [->|Hne]; [eauto|].
      rewrite Hg' by done. apply Hsome1.
      destruct Hg'1 as [?|[Hd%bool_decide_eq_true|?]%orb_true_iff]; auto. }
  assert (group_closed g w1' = Subscription_closed c) as Hgcc.
  { unfold group_closed. by rewrite Hc. }
  destruct (add_cases g (length (heap w)) w1' c s1 Hc Hs1)
    as [[Hcl ->] | [(Hcl & Hgc & ->) | [(Hcl & Hgc & Hin & ->) | (Hcl & Hgc & Hin & ->)]]].
  - exists s1, w1'. split_and!; try done. apply Hreg; auto.
    + by rewrite Hh', Hh.
    + split; auto.
  - exists (closed_copy s1), (Rx.unsubscribe w1' (length (heap w))).
    destruct (unsubscribe_cases w1' (length (heap w)))
      as [[_ [Hn|(s' & Hs' & Hc')]] | (s' & Hs' & Hc' & Hhu & _ & Heu & Hgu)];
      try congruence.
    assert (s' = s1) as -> by congruence.
    split_and!; try done. apply Hreg; auto.
    + by rewrite Hhu, Hh', Hh, insert_last.
    + by apply unsubscribe_Inv.
    + intros g' a Ha. left. by eapply shrinks_children.
    + intros g' _ Hn. specialize (Hgu g'). rewrite Hn in Hgu.
      by destruct (groupSub (Rx.unsubscribe w1' (length (heap w))) !! g').
    + split; [|done]. intros _. right. congruence.
    + intros g'. by eapply group_closed_shrinks.
    + intros g' [c' Hc'']. specialize (Hgu g'). rewrite Hc'' in Hgu.
      by destruct (groupSub (Rx.unsubscribe w1' (length (heap w))) !! g').
  - exists s1, w1'. split_and!; try done. apply Hreg; auto.
    + by rewrite Hh', Hh.
    + rewrite Hgcc, Hcl, Hgc. split; [done | by intros [?|?]].
  - exists (adopted g s1), (adopt g (length (heap w)) s1 c w1').
    split_and!; try done. destruct HI' as [HW' HP']. apply Hreg.
    + simpl. by rewrite Hh', Hh, insert_last.
    + done.
    + split; [by apply adopt_Wf | by apply adopt_parents_ok].
    + intros g' a. rewrite children_of_adopt by done. case_decide as Hd.
      * subst g'. intros [?|Ha]%elem_of_app; [by left|].
        apply list_elem_of_singleton in Ha. by right.
      * by left.
    + intros g' Hne. simpl. by rewrite lookup_insert_ne.
    + right. simpl. apply elem_of_app. right. by left.
    + done.
    + right. simpl. intros q Hq. apply elem_of_app. by left.
    + simpl. rewrite Hgcc, Hcl, Hgc. split; [done | by intros [?|?]].
    + intros g'. unfold group_closed. simpl.
      destruct (decide (g' = g)) as [->|Hne].
      * by rewrite lookup_insert_eq, Hc.
      * by rewrite lookup_insert_ne.
    + intros g' Hg'1. simpl. destruct (decide (g' = g)) as [->|Hne].
      * rewrite lookup_insert_eq. eauto.
      * by rewrite lookup_insert_ne.
Qed.

Lemma dollar_on_registered this typeFilter handler w :
  Inv w ->
  exists s w',
    dollar_on this typeFilter handler w = (length (heap w), w') /\
    predicate s = EventBusSrv.typeFilter_predicate typeFilter /\
    destination s = EventBusSrv.handler_observer handler /\
    registered w (fun g => through g this) s w'.
Proof.
  intros HI. induction this as [|bus IH id].
  - eexists _, _. split_and!; [done| | |apply subscribe_registered]; try done.
    by apply (from_dollar_on _ typeFilter handler).
  - destruct IH as (s1 & w1 & Hon & Hp & Hd & Hreg).
    destruct (addToGroupSub_registered _ _ _ _ (Group bus id) Hreg)
      as (s2 & w2 & Hadd & Hp2 & Hd2 & Hreg2).
    exists s2, w2. simpl. unfold EventBusGroup.dollar_on. rewrite Hon.
    split_and!; [done|congruence|congruence|done].
Qed.

Lemma on_registered event handler w :
  Inv w ->
  exists s,
    predicate s = EventBusSrv.name_predicate event /\
    destination s = EventBusSrv.payload_observer handler /\
    closed s = false /\
    registered w (fun _ => false) s
      (Rx.subscribe (EventBusSrv.name_predicate event)
                    (EventBusSrv.payload_observer handler) w).2.
Proof.
  intros HI. eexists. split_and!; [| | |apply subscribe_registered]; try done.
  by apply (from_on _ event handler).
Qed.

(** ** [unsubscribe] on a composite *)

Lemma narrows_refl m : narrows m m.
Proof. intros g. by destruct (m !! g). Qed.

Lemma narrows_trans m1 m2 m3 : narrows m1 m2 -> narrows m2 m3 -> narrows m1 m3.
Proof.
  intros H12 H23 g. specialize (H12 g). specialize (H23 g).
  destruct (m3 !! g), (m2 !! g), (m1 !! g); try done.
  destruct H12 as [E12 ?], H23 as [E23 ?]. split; [congruence | auto].
Qed.

Lemma shrinks_narrows a m m' : shrinks a m m' -> narrows m m'.
Proof.
  intros H g. specialize (H g). destruct (m' !! g), (m !! g); try done.
  by destruct H as (? & _ & ?).
Qed.

Lemma unsubscribe_narrows w a : narrows (groupSub w) (groupSub (Rx.unsubscribe w a)).
Proof.
  destruct (unsubscribe_cases w a) as [[-> _] | (s & _ & _ & _ & _ & _ & Hg)].
  - apply narrows_refl.
  - by eapply shrinks_narrows.
Qed.

Lemma unsubscribe_env w a : env (Rx.unsubscribe w a) = env w.
Proof.
  by destruct (unsubscribe_cases w a) as [[-> _] | (s & _ & _ & _ & _ & He & _)].
Qed.

Lemma unsubscribe_length w a : length (heap (Rx.unsubscribe w a)) = length (heap w).
Proof.
  destruct (unsubscribe_cases w a) as [[-> _] | (s & _ & _ & -> & _)]; [done|].
  apply length_insert.
Qed.

Section teardown.
Variable l : list addr.

Lemma foldl_unsubscribe_Wf w : Wf w -> Wf (foldl Rx.unsubscribe w l).
Proof.
  revert w. induction l as [|a l' IH]; intros w HW; simpl; [done|].
  by apply IH, unsubscribe_Wf.
Qed.

Lemma foldl_unsubscribe_parents_ok g w :
  parents_ok l g w -> parents_ok [] g (foldl Rx.unsubscribe w l).
Proof.
  revert w. induction l as [|a l' IH]; intros w HP; simpl; [done|].
  by apply IH, unsubscribe_parents_ok.
Qed.

Lemma foldl_unsubscribe_evolves w : evolves w (foldl Rx.unsubscribe w l).
Proof.
  revert w. induction l as [|a l' IH]; intros w; simpl; [apply evolves_refl|].
  eapply evolves_trans; [apply unsubscribe_evolves | apply IH].
Qed.

Lemma foldl_unsubscribe_narrows w :
  narrows (groupSub w) (groupSub (foldl Rx.unsubscribe w l)).
Proof.
  revert w. induction l as [|a l' IH]; intros w; simpl; [apply narrows_refl|].
  eapply narrows_trans; [apply unsubscribe_narrows | apply IH].
Qed.

Lemma foldl_unsubscribe_env w : env (foldl Rx.unsubscribe w l) = env w.
Proof.
  revert w. induction l as [|a l' IH]; intros w; simpl; [done|].
  by rewrite IH, unsubscribe_env.
Qed.

Lemma foldl_unsubscribe_is_closed w b :
  b < length (heap w) ->
  is_closed b (foldl Rx.unsubscribe w l) =
    if decide (b ∈ l) then true else is_closed b w.
Proof.
  revert w. induction l as [|a l' IH]; intros w Hb; simpl; [done|].
  - rewrite IH by (by rewrite unsubscribe_length).
    rewrite is_closed_unsubscribe.
    destruct (lookup_lt_is_Some_2 _ _ Hb) as [sb Hsb].
    destruct (decide (b ∈ l')) as [Hin|Hin].
    + destruct (decide (b ∈ a :: l')) as [_|Hn]; [done|].
      exfalso. apply Hn. by right.
    + destruct (decide (b = a)) as [->|Hne].
      * rewrite Hsb. destruct (decide (a ∈ a :: l')) as [_|Hn]; [done|].
        exfalso. apply Hn. by left.
      * destruct (decide (b ∈ a :: l')) as [Hn|_]; [|done].
        apply elem_of_cons in Hn as [?|?]; done.
Qed.
End teardown.

Lemma group_unsubscribe_cases g w :
  (EventBusGroup.unsubscribe g w = w /\
   (groupSub w !! g = None \/
    exists c, groupSub w !! g = Some c /\ Subscription_closed c = true))
  \/
  (exists c, groupSub w !! g = Some c /\ Subscription_closed c = false /\
     EventBusGroup.unsubscribe g w = foldl Rx.unsubscribe (torn_down g w) (subscriptions c)).
Proof.
  unfold EventBusGroup.unsubscribe, Rx.Subscription_unsubscribe.
  destruct (groupSub w !! g) as [c|] eqn:Hg; [|left; auto].
  destruct (Subscription_closed c) eqn:Hc; [left; eauto | right; eauto].
Qed.

Lemma group_unsubscribe_env g w : env (EventBusGroup.unsubscribe g w) = env w.
Proof.
  destruct (group_unsubscribe_cases g w) as [[-> _] | (c & _ & _ & ->)]; [done|].
  by rewrite foldl_unsubscribe_env.
Qed.

Lemma group_unsubscribe_Inv g w : Inv w -> Inv (EventBusGroup.unsubscribe g w).
Proof.
  intros [HW HP].
  destruct (group_unsubscribe_cases g w) as [[-> _] | (c & Hg & Hc & ->)]; [done|].
  split.
  - apply foldl_unsubscribe_Wf. constructor; try apply HW.
    intros g' a. unfold children_of. simpl. destruct (decide (g' = g)) as [->|Hne].
    + rewrite lookup_insert_eq. by intros ?%elem_of_nil.
    + rewrite lookup_insert_ne by done. apply (wf_children _ HW g').
  - apply (parents_ok_weaken _ g). apply foldl_unsubscribe_parents_ok.
    intros a s p Ha Hcl Hp. simpl in Ha.
    destruct (HP a s p Ha Hcl Hp) as [(cp & Hpc & Hcp & Hin)|[_ Hn]];
      [|by apply elem_of_nil in Hn].
    destruct (decide (p = g)) as [->|Hne].
    + right. split; [done|]. congruence.
    + left. exists cp. simpl. by rewrite lookup_insert_ne.
Qed.

Lemma group_unsubscribe_evolves g w : evolves w (EventBusGroup.unsubscribe g w).
Proof.
  destruct (group_unsubscribe_cases g w) as [[-> _] | (c & Hg & Hc & ->)];
    [apply evolves_refl|].
  eapply evolves_trans; [|apply foldl_unsubscribe_evolves].
  constructor; try done.
  - intros a s Ha. exists s. split_and!; auto.
  - intros g' a _. unfold children_of. simpl. destruct (decide (g' = g)) as [->|Hne].
    + rewrite lookup_insert_eq. by intros ?%elem_of_nil.
    + by rewrite lookup_insert_ne.
Qed.

(** After [unsubscribe()] on a group a subscriber is closed if it was a
    child of the open composite, and is as before otherwise. *)
Lemma group_unsubscribe_is_closed g w b :
  b < length (heap w) ->
  is_closed b (EventBusGroup.unsubscribe g w) =
    match groupSub w !! g with
    | Some c =>
        if Subscription_closed c then is_closed b w
        else if decide (b ∈ subscriptions c) then true else is_closed b w
    | None => is_closed b w
    end.
Proof.
  intros Hb.
  destruct (group_unsubscribe_cases g w)
    as [[-> [->|(c & -> & ->)]] | (c & Hg & Hc & ->)]; [done|done|].
  rewrite Hg, Hc. by rewrite foldl_unsubscribe_is_closed.
Qed.

Lemma group_unsubscribe_groupSub g w :
  match groupSub (EventBusGroup.unsubscribe g w) !! g with
  | Some c => Subscription_closed c = true
  | None => groupSub w !! g = None
  end.
Proof.
  destruct (group_unsubscribe_cases g w)
    as [[-> [->|(c & -> & ->)]] | (c & Hg & Hc & ->)]; [done|done|].
  pose proof (foldl_unsubscribe_narrows (subscriptions c) (torn_down g w) g) as Hn.
  simpl in Hn. rewrite lookup_insert_eq in Hn.
  destruct (groupSub (foldl Rx.unsubscribe (torn_down g w) (subscriptions c)) !! g);
    [by destruct Hn | done].
Qed.

Lemma group_unsubscribe_None g w g' :
  groupSub w !! g' = None -> groupSub (EventBusGroup.unsubscribe g w) !! g' = None.
Proof.
  intros Hn.
  destruct (group_unsubscribe_cases g w) as [[-> _] | (c & Hg & Hc & ->)]; [done|].
  pose proof (foldl_unsubscribe_narrows (subscriptions c) (torn_down g w) g') as Hn'.
  simpl in Hn'. rewrite lookup_insert_ne, Hn in Hn' by congruence.
  by destruct (groupSub (foldl Rx.unsubscribe (torn_down g w) (subscriptions c)) !! g').
Qed.

Lemma unsubscribe_None w a g :
  groupSub w !! g = None -> groupSub (Rx.unsubscribe w a) !! g = None.
Proof.
  intros Hn. pose proof (unsubscribe_narrows w a g) as Hn'. rewrite Hn in Hn'.
  by destruct (groupSub (Rx.unsubscribe w a) !! g).
Qed.

(** ** What a handler's calls keep *)

Lemma foldl_unsubscribe_length l w :
  length (heap (foldl Rx.unsubscribe w l)) = length (heap w).
Proof.
  revert w. induction l as [|a l IH]; intros w; simpl; [done|].
  by rewrite IH, unsubscribe_length.
Qed.

Lemma group_unsubscribe_length g w :
  length (heap (EventBusGroup.unsubscribe g w)) = length (heap w).
Proof.
  destruct (group_unsubscribe_cases g w) as [[-> _] | (c & _ & _ & ->)]; [done|].
  by rewrite foldl_unsubscribe_length.
Qed.

Lemma group_unsubscribe_Subscription g w :
  Rx.Subscription_unsubscribe g w = EventBusGroup.unsubscribe g w.
Proof.
  unfold EventBusGroup.unsubscribe, Rx.Subscription_unsubscribe.
  by destruct (groupSub w !! g).
Qed.

Lemma foldl_remove_callbacks a l w : callbacks (foldl (Rx.remove a) w l) = callbacks w.
Proof.
  revert w. induction l as [|g l IH]; intros w; simpl; [done|].
  rewrite IH. unfold Rx.remove. by destruct (groupSub w !! g).
Qed.

Lemma unsubscribe_callbacks w a : callbacks (Rx.unsubscribe w a) = callbacks w.
Proof.
  unfold Rx.unsubscribe. destruct (heap w !! a) as [s|]; [|done].
  destruct (closed s); [done|]. simpl. by rewrite foldl_remove_callbacks.
Qed.

Lemma foldl_unsubscribe_callbacks l w : callbacks (foldl Rx.unsubscribe w l) = callbacks w.
Proof.
  revert w. induction l as [|a l IH]; intros w; simpl; [done|].
  by rewrite IH, unsubscribe_callbacks.
Qed.

Lemma group_unsubscribe_callbacks g w :
  callbacks (EventBusGroup.unsubscribe g w) = callbacks w.
Proof.
  destruct (group_unsubscribe_cases g w) as [[-> _] | (c & _ & _ & ->)]; [done|].
  by rewrite foldl_unsubscribe_callbacks.
Qed.

Lemma run_unsubscribe w a : Rx.run w (act_unsubscribe a) = Rx.unsubscribe w a.
Proof. done. Qed.

Lemma run_group_unsubscribe w g :
  Rx.run w (act_group_unsubscribe g) = EventBusGroup.unsubscribe g w.
Proof. apply group_unsubscribe_Subscription. Qed.

Lemma run_Inv w act : Inv w -> Inv (Rx.run w act).
Proof.
  intros HI. destruct act as [a|g].
  - by apply unsubscribe_Inv.
  - rewrite run_group_unsubscribe. by apply group_unsubscribe_Inv.
Qed.

Lemma run_evolves w act : evolves w (Rx.run w act).
Proof.
  destruct act as [a|g].
  - apply unsubscribe_evolves.
  - rewrite run_group_unsubscribe. apply group_unsubscribe_evolves.
Qed.

Lemma run_env w act : env (Rx.run w act) = env w.
Proof.
  destruct act as [a|g].
  - apply unsubscribe_env.
  - rewrite run_group_unsubscribe. apply group_unsubscribe_env.
Qed.

Lemma run_length w act : length (heap (Rx.run w act)) = length (heap w).
Proof.
  destruct act as [a|g].
  - apply unsubscribe_length.
  - rewrite run_group_unsubscribe. apply group_unsubscribe_length.
Qed.

Lemma run_callbacks w act : callbacks (Rx.run w act) = callbacks w.
Proof.
  destruct act as [a|g].
  - apply unsubscribe_callbacks.
  - rewrite run_group_unsubscribe. apply group_unsubscribe_callbacks.
Qed.

Lemma foldl_run_env l w : env (foldl Rx.run w l) = env w.
Proof.
  revert w. induction l as [|act l IH]; intros w; simpl; [done|].
  by rewrite IH, run_env.
Qed.

Lemma foldl_run_callbacks l w : callbacks (foldl Rx.run w l) = callbacks w.
Proof.
  revert w. induction l as [|act l IH]; intros w; simpl; [done|].
  by rewrite IH, run_callbacks.
Qed.

Lemma set_env_Inv e w :
  Inv w -> (forall c, c ∈ calls e -> call_sub c < length (heap w)) -> Inv (set_env e w).
Proof.
  intros [HW HP] Hc. split; [|by apply (parents_ok_frame _ _ w)].
  by apply (Wf_frame w).
Qed.

Lemma predicate_env s value e :
  from_source s ->
  calls (predicate s value e).2 = calls e /\
  console e `prefix_of` console (predicate s value e).2.
Proof.
  intros [tf h -> _|d h -> _]; simpl; split; try done. by apply prefix_app_r.
Qed.

Lemma invoke_env a h arg w :
  env (Rx.invoke a h arg w) =
    {| console := console (env w) ++ prints (callbacks w (length (calls (env w))) h arg);
       calls := calls (env w) ++ [mkCall a h arg] |}.
Proof.
  unfold Rx.invoke. destruct (throws _); rewrite ?unsubscribe_env, foldl_run_env; done.
Qed.

Lemma invoke_callbacks a h arg w : callbacks (Rx.invoke a h arg w) = callbacks w.
Proof.
  unfold Rx.invoke. destruct (throws _); rewrite ?unsubscribe_callbacks, foldl_run_callbacks;
    done.
Qed.

Lemma Subscriber_next_callbacks value w a :
  callbacks (Rx.Subscriber_next value w a) = callbacks w.
Proof.
  unfold Rx.Subscriber_next. destruct (heap w !! a) as [s|]; [|done].
  destruct (closed s); [done|].
  destruct (predicate s value (env w)) as [[] e1]; [|done].
  destruct (destination s value) as [h arg]. by rewrite invoke_callbacks.
Qed.

Lemma foldl_Subscriber_next_callbacks value l w :
  callbacks (foldl (Rx.Subscriber_next value) w l) = callbacks w.
Proof.
  revert w. induction l as [|a l IH]; intros w; simpl; [done|].
  by rewrite IH, Subscriber_next_callbacks.
Qed.

Lemma Subject_next_callbacks value w : callbacks (Rx.Subject_next value w) = callbacks w.
Proof. apply foldl_Subscriber_next_callbacks. Qed.

(** ** Dispatch, step by step *)

(** A property of worlds holds after an emission when it holds before and
    is kept by what an emission is made of: a filter or a handler writing
    to the traces, a call that a handler makes on the bus, and rxjs
    unsubscribing a subscriber whose handler threw. *)
Section dispatch.
Variable P : World -> Prop.
Variable value : BusEvent.
Variable l : list addr.
Hypothesis P_Inv : forall w, P w -> Inv w.
Hypothesis P_env : forall w e,
  P w ->
  calls (env w) `prefix_of` calls e ->
  console (env w) `prefix_of` console e ->
  (forall c, c ∈ calls e -> call_sub c < length (heap w)) ->
  P (set_env e w).
Hypothesis P_act : forall w a s n h arg act,
  P w -> a ∈ l -> heap w !! a = Some s -> destination s value = (h, arg) ->
  act ∈ acts (callbacks w n h arg) ->
  P (Rx.run w act).
Hypothesis P_throw : forall w a s n h arg,
  P w -> a ∈ l -> heap w !! a = Some s -> destination s value = (h, arg) ->
  throws (callbacks w n h arg) = true ->
  P (Rx.unsubscribe w a).

Lemma foldl_run_ind a n h arg (k : list Act) w s :
  P w -> a ∈ l -> heap w !! a = Some s -> destination s value = (h, arg) ->
  (forall act, act ∈ k -> act ∈ acts (callbacks w n h arg)) ->
  P (foldl Rx.run w k) /\
  exists s', heap (foldl Rx.run w k) !! a = Some s' /\ destination s' value = (h, arg).
Proof.
  revert w s. induction k as [|act k IH]; intros w s HP Ha Hs Hd Hk; simpl; [by eauto|].
  destruct (evolves_lookup _ _ _ _ (run_evolves w act) Hs) as (s' & Hs' & _ & Hd' & _).
  apply (IH _ s').
  - apply (P_act w a s n h arg); [done|done|done|done|]. apply Hk. by left.
  - done.
  - done.
  - congruence.
  - intros act' Hact'. rewrite run_callbacks. apply Hk. by right.
Qed.

Lemma invoke_ind w a s h arg :
  P w -> a ∈ l -> heap w !! a = Some s -> destination s value = (h, arg) ->
  P (Rx.invoke a h arg w).
Proof.
  intros HP Ha Hs Hd. unfold Rx.invoke.
  set (e := {| console := _; calls := _ |}).
  assert (P (set_env e w)) as HP1.
  { apply P_env; [done|by apply prefix_app_r|by apply prefix_app_r|].
    intros c [Hc| ->%list_elem_of_singleton]%elem_of_app.
    - by apply (wf_calls _ (proj1 (P_Inv w HP))).
    - simpl. by eapply lookup_lt_Some. }
  set (n := length (calls (env w))).
  destruct (foldl_run_ind a n h arg (acts (callbacks w n h arg)) (set_env e w) s HP1 Ha Hs Hd)
    as (HP2 & s' & Hs' & Hd'); [done|].
  destruct (throws (callbacks w n h arg)) eqn:Ht; [|done].
  apply (P_throw _ a s' n h arg); try done.
  by rewrite foldl_run_callbacks.
Qed.

Lemma Subscriber_next_ind w a : P w -> a ∈ l -> P (Rx.Subscriber_next value w a).
Proof.
  intros HP Ha. unfold Rx.Subscriber_next.
  destruct (heap w !! a) as [s|] eqn:Hs; [|done].
  destruct (closed s); [done|].
  pose proof (wf_closures _ (proj1 (P_Inv w HP)) _ _ Hs) as Hsrc.
  destruct (predicate_env s value (env w) Hsrc) as [Hc Hl].
  destruct (predicate s value (env w)) as [pass e1]. simpl in Hc, Hl.
  assert (P (set_env e1 w)) as HP1.
  { apply P_env; [done|by rewrite Hc|done|].
    intros c. rewrite Hc. by apply (wf_calls _ (proj1 (P_Inv w HP))). }
  destruct pass; [|done].
  destruct (destination s value) as [h arg] eqn:Hd.
  by apply (invoke_ind _ a s).
Qed.

Lemma foldl_Subscriber_next_ind k w :
  (forall a, a ∈ k -> a ∈ l) -> P w -> P (foldl (Rx.Subscriber_next value) w k).
Proof.
  revert w. induction k as [|a k IH]; intros w Hk HP; simpl; [done|].
  apply IH; [intros b Hb; apply Hk; by right|].
  apply Subscriber_next_ind; [done|]. apply Hk. by left.
Qed.
End dispatch.

Lemma Subject_next_ind (P : World -> Prop) value :
  (forall w, P w -> Inv w) ->
  (forall w e,
     P w ->
     calls (env w) `prefix_of` calls e ->
     console (env w) `prefix_of` console e ->
     (forall c, c ∈ calls e -> call_sub c < length (heap w)) ->
     P (set_env e w)) ->
  (forall w a s n h arg act,
     P w -> heap w !! a = Some s -> destination s value = (h, arg) ->
     act ∈ acts (callbacks w n h arg) ->
     P (Rx.run w act)) ->
  (forall w a s n h arg,
     P w -> heap w !! a = Some s -> destination s value = (h, arg) ->
     throws (callbacks w n h arg) = true ->
     P (Rx.unsubscribe w a)) ->
  forall w, P w -> P (Rx.Subject_next value w).
Proof.
  intros HI He Ha Ht w HP. unfold Rx.Subject_next.
  apply (foldl_Subscriber_next_ind P value (observers_of w)); eauto.
Qed.

(** ** What every emission keeps *)

Lemma Subscriber_next_Inv value w a : Inv w -> Inv (Rx.Subscriber_next value w a).
Proof.
  intros HI. apply (Subscriber_next_ind Inv value [a]); try done.
  - intros. by apply set_env_Inv.
  - intros. by apply run_Inv.
  - intros. by apply unsubscribe_Inv.
  - by apply list_elem_of_singleton.
Qed.

Lemma Subject_next_Inv value w : Inv w -> Inv (Rx.Subject_next value w).
Proof.
  apply (Subject_next_ind Inv); try done.
  - intros. by apply set_env_Inv.
  - intros. by apply run_Inv.
  - intros. by apply unsubscribe_Inv.
Qed.

Lemma foldl_Subscriber_next_evolves value l w :
  Inv w -> evolves w (foldl (Rx.Subscriber_next value) w l).
Proof.
  intros HI.
  apply (foldl_Subscriber_next_ind (fun w' => Inv w' /\ evolves w w') value l).
  - by intros w' [? _].
  - intros w' e [HI' Hev] Hc Hl Hlt. split; [by apply set_env_Inv|].
    eapply evolves_trans; [done|]. by apply evolves_frame.
  - intros w' a s n h arg act [HI' Hev] _ _ _ _. split; [by apply run_Inv|].
    eapply evolves_trans; [done|]. apply run_evolves.
  - intros w' a s n h arg [HI' Hev] _ _ _ _. split; [by apply unsubscribe_Inv|].
    eapply evolves_trans; [done|]. apply unsubscribe_evolves.
  - done.
  - split; [done | apply evolves_refl].
Qed.

Lemma Subscriber_next_evolves value w a : Inv w -> evolves w (Rx.Subscriber_next value w a).
Proof. apply (foldl_Subscriber_next_evolves value [a]). Qed.

Lemma Subject_next_evolves value w : Inv w -> evolves w (Rx.Subject_next value w).
Proof. apply foldl_Subscriber_next_evolves. Qed.

Lemma foldl_Subscriber_next_length value l w :
  Inv w -> length (heap (foldl (Rx.Subscriber_next value) w l)) = length (heap w).
Proof.
  intros HI.
  apply (foldl_Subscriber_next_ind
           (fun w' => Inv w' /\ length (heap w') = length (heap w)) value l).
  - by intros w' [? _].
  - intros w' e [HI' Hlen] Hc Hl Hlt. split; [by apply set_env_Inv | done].
  - intros w' a s n h arg act [HI' Hlen] _ _ _ _. split; [by apply run_Inv|].
    by rewrite run_length.
  - intros w' a s n h arg [HI' Hlen] _ _ _ _. split; [by apply unsubscribe_Inv|].
    by rewrite unsubscribe_length.
  - done.
  - done.
Qed.

Lemma Subject_next_length value w :
  Inv w -> length (heap (Rx.Subject_next value w)) = length (heap w).
Proof. apply foldl_Subscriber_next_length. Qed.

(** One [next] of a subscriber makes the call that the state before it
    tells, whatever the handler then does. *)
Lemma Subscriber_next_calls value w a s :
  heap w !! a = Some s -> from_source s ->
  calls (env (Rx.Subscriber_next value w a)) = calls (env w) ++ fires s a value.
Proof.
  intros Ha Hs. unfold Rx.Subscriber_next, fires. rewrite Ha.
  destruct (closed s); [by rewrite app_nil_r|].
  destruct Hs as [tf h -> ->| d h -> ->]; simpl;
    destruct (String.eqb _ _); simpl; rewrite ?invoke_env; simpl; by rewrite ?app_nil_r.
Qed.

Lemma Subscriber_next_dispatch value w a :
  Wf w ->
  calls (env (Rx.Subscriber_next value w a)) = calls (env w) ++ dispatch w value a.
Proof.
  intros HW. unfold dispatch. destruct (heap w !! a) as [s|] eqn:Ha.
  - apply Subscriber_next_calls; [done|]. by eapply wf_closures.
  - unfold Rx.Subscriber_next. by rewrite Ha, app_nil_r.
Qed.

(** ** Emissions during which no handler calls the bus *)

Lemma calm_acts w value s n h arg :
  calm w value -> from_source s -> destination s value = (h, arg) ->
  acts (callbacks w n h arg) = [].
Proof.
  intros Hc [tf h' _ Hd|d h' _ Hd]; rewrite Hd; intros [= <- <-]; apply Hc.
Qed.

Lemma unsubscribe_lookup_ne w a b :
  b <> a -> heap (Rx.unsubscribe w a) !! b = heap w !! b.
Proof.
  intros Hne. destruct (unsubscribe_cases w a) as [[-> _] | (s & _ & _ & -> & _)]; [done|].
  by rewrite list_lookup_insert_ne.
Qed.

Lemma Subscriber_next_calm_lookup value w a b :
  Wf w -> calm w value -> b <> a ->
  heap (Rx.Subscriber_next value w a) !! b = heap w !! b.
Proof.
  intros HW Hc Hne. unfold Rx.Subscriber_next.
  destruct (heap w !! a) as [s|] eqn:Ha; [|done].
  destruct (closed s); [done|].
  pose proof (wf_closures _ HW _ _ Ha) as Hsrc.
  destruct (predicate s value (env w)) as [[] e1]; [|done].
  destruct (destination s value) as [h arg] eqn:Hd.
  unfold Rx.invoke. simpl. rewrite (calm_acts w value s _ h arg) by done. simpl.
  destruct (throws _); [|done]. by rewrite unsubscribe_lookup_ne.
Qed.

Lemma calm_callbacks w w' value : callbacks w' = callbacks w -> calm w value -> calm w' value.
Proof. unfold calm. by intros ->. Qed.

Lemma foldl_Subscriber_next_calls value l w :
  Inv w -> calm w value -> NoDup l ->
  calls (env (foldl (Rx.Subscriber_next value) w l)) =
    calls (env w) ++ (l ≫= dispatch w value).
Proof.
  revert w. induction l as [|a l IH]; intros w HI Hc Hl; simpl.
  - by rewrite app_nil_r.
  - apply NoDup_cons in Hl as [Ha Hl].
    rewrite IH; [|by apply Subscriber_next_Inv| |done]; cycle 1.
    { eapply calm_callbacks; [apply Subscriber_next_callbacks | done]. }
    rewrite Subscriber_next_dispatch by apply HI.
    rewrite <- app_assoc. do 2 f_equal.
    apply Forall_bind_ext, Forall_forall. intros b Hb.
    unfold dispatch. rewrite Subscriber_next_calm_lookup; [done|apply HI|done|].
    intros ->. done.
Qed.

(** The calls of one [next] on the stream, when no handler calls the bus:
    each subscriber, in the order of the addresses, fires or stays silent. *)
Lemma Subject_next_calls value w :
  Inv w -> calm w value ->
  calls (env (Rx.Subject_next value w)) =
    calls (env w) ++ (seq 0 (length (heap w)) ≫= dispatch w value).
Proof.
  intros HI Hc. unfold Rx.Subject_next.
  rewrite foldl_Subscriber_next_calls; [|done|done|]; cycle 1.
  { rewrite (wf_observers _ (proj1 HI)). apply NoDup_filter, NoDup_seq. }
  f_equal. rewrite (wf_observers _ (proj1 HI)). apply bind_filter_nil.
  intros a Ha. unfold dispatch, is_closed in *.
  destruct (heap w !! a) as [s|]; [|done].
  apply fires_closed. by destruct (closed s).
Qed.

(** ** What an emission gives to one subscription *)

Lemma received_app sub w w' cs :
  calls (env w') = calls (env w) ++ cs ->
  received sub w' = received sub w ++ shown (filter (fun c => call_sub c = sub) cs).
Proof. intros He. unfold received, shown. by rewrite He, filter_app, fmap_app. Qed.

Lemma Subscriber_next_received value w a sub :
  Wf w ->
  received sub (Rx.Subscriber_next value w a) =
    received sub w ++ if decide (a = sub) then shown (dispatch w value sub) else [].
Proof.
  intros HW. rewrite (received_app sub w _ _ (Subscriber_next_dispatch value w a HW)).
  f_equal. case_decide as Ha.
  - subst a. f_equal. apply filter_all, Forall_forall. intros c Hc.
    by apply (dispatch_tag w value sub c HW).
  - rewrite filter_none; [done|]. apply Forall_forall. intros c Hc Hs.
    apply (dispatch_tag w value a c HW) in Hc as [Hc _]. congruence.
Qed.

(** A later state of the same subscribers delivers to a subscription what
    the earlier one does, or nothing. *)
Lemma dispatch_evolves w w' value a :
  evolves w w' -> length (heap w') = length (heap w) ->
  dispatch w' value a = dispatch w value a \/ dispatch w' value a = [].
Proof.
  intros Hev Hlen. unfold dispatch.
  destruct (heap w !! a) as [s|] eqn:Ha.
  - destruct (evolves_lookup _ _ _ _ Hev Ha) as (s' & -> & Hp & Hd & Hc & _).
    destruct (closed s') eqn:Hc'; [right; by rewrite fires_closed|].
    left. unfold fires. rewrite Hc', Hp, Hd.
    destruct (closed s); [by discriminate Hc|done].
  - apply lookup_ge_None in Ha. rewrite lookup_ge_None_2 by lia. by left.
Qed.

Lemma foldl_Subscriber_next_received_other value l w sub :
  Inv w -> sub ∉ l ->
  received sub (foldl (Rx.Subscriber_next value) w l) = received sub w.
Proof.
  revert w. induction l as [|b l IH]; intros w HI Hl; simpl; [done|].
  apply not_elem_of_cons in Hl as [Hne Hl].
  rewrite IH by (by try apply Subscriber_next_Inv).
  rewrite Subscriber_next_received by apply HI.
  rewrite decide_False by done. by rewrite app_nil_r.
Qed.

(** A subscription gets from one emission what the state before it tells,
    or nothing. *)
Lemma foldl_Subscriber_next_received_sub value l w sub :
  Inv w -> NoDup l ->
  received sub (foldl (Rx.Subscriber_next value) w l) = received sub w \/
  received sub (foldl (Rx.Subscriber_next value) w l) =
    received sub w ++ shown (dispatch w value sub).
Proof.
  revert w. induction l as [|b l IH]; intros w HI Hl; simpl; [by left|].
  apply NoDup_cons in Hl as [Hb Hl].
  pose proof (Subscriber_next_Inv value w b HI) as HI1.
  destruct (decide (b = sub)) as [->|Hne].
  - right. rewrite foldl_Subscriber_next_received_other by done.
    rewrite Subscriber_next_received by apply HI. by rewrite decide_True.
  - assert (received sub (Rx.Subscriber_next value w b) = received sub w) as Hsame.
    { rewrite Subscriber_next_received by apply HI.
      rewrite decide_False by done. by rewrite app_nil_r. }
    destruct (IH _ HI1 Hl) as [->| ->]; [by left|]. rewrite Hsame.
    destruct (dispatch_evolves w (Rx.Subscriber_next value w b) value sub)
      as [->| ->].
    + by apply Subscriber_next_evolves.
    + apply (foldl_Subscriber_next_length value [b] w HI).
    + by right.
    + left. by rewrite app_nil_r.
Qed.

Lemma Subject_next_received_sub value w sub :
  Inv w ->
  received sub (Rx.Subject_next value w) = received sub w \/
  received sub (Rx.Subject_next value w) = received sub w ++ shown (dispatch w value sub).
Proof.
  intros HI. apply foldl_Subscriber_next_received_sub; [done|].
  rewrite (wf_observers _ (proj1 HI)). apply NoDup_filter, NoDup_seq.
Qed.

(** ** Subscriptions that no handler releases *)

Lemma run_guarded this sub w act :
  Inv w -> guarded this sub w -> ~ lets_go this sub act -> guarded this sub (Rx.run w act).
Proof.
  intros HI (Hlt & Hopen & Hkid) Hact.
  split_and!.
  - by rewrite run_length.
  - destruct act as [a|g]; simpl in Hact.
    + rewrite run_unsubscribe, is_closed_unsubscribe. by rewrite decide_False by auto.
    + rewrite run_group_unsubscribe, group_unsubscribe_is_closed by done.
      destruct (groupSub w !! g) as [c|] eqn:Hg; [|done].
      destruct (Subscription_closed c); [done|]. rewrite decide_False; [done|].
      intros Hin. apply Hact, Hkid. unfold children_of. by rewrite Hg.
  - intros g Hin. apply Hkid. by apply (ev_children _ _ (run_evolves w act)).
Qed.

Lemma foldl_Subscriber_next_guarded this sub value l w s0 :
  Inv w -> keeps (callbacks w) this sub -> guarded this sub w ->
  heap w !! sub = Some s0 ->
  (sub ∈ l -> forall n h arg,
     destination s0 value = (h, arg) -> throws (callbacks w n h arg) = false) ->
  guarded this sub (foldl (Rx.Subscriber_next value) w l).
Proof.
  intros HI Hkeeps Hg Hs0 Hthrow.
  apply (foldl_Subscriber_next_ind
           (fun w' => Inv w' /\ callbacks w' = callbacks w /\
                      guarded this sub w' /\ evolves w w') value l).
  - by intros w' [? _].
  - intros w' e (HI' & Hcb & Hg' & Hev) Hc Hl Hlt.
    split_and!; [by apply set_env_Inv|done|done|].
    eapply evolves_trans; [done|]. by apply evolves_frame.
  - intros w' a s n h arg act (HI' & Hcb & Hg' & Hev) _ _ _ Hact.
    split_and!; [by apply run_Inv|by rewrite run_callbacks| |].
    + apply run_guarded; [done|done|]. apply (Hkeeps n h arg). by rewrite <- Hcb.
    + eapply evolves_trans; [done|]. apply run_evolves.
  - intros w' a s n h arg (HI' & Hcb & Hg' & Hev) Ha Hs Hd Ht.
    split_and!; [by apply unsubscribe_Inv|by rewrite unsubscribe_callbacks| |].
    + apply (run_guarded this sub w' (act_unsubscribe a)); [done|done|].
      simpl. intros ->.
      destruct (evolves_lookup _ _ _ _ Hev Hs0) as (s' & Hs' & _ & Hd' & _).
      assert (s' = s) as -> by congruence.
      rewrite Hd' in Hd. rewrite Hcb in Ht.
      by rewrite (Hthrow Ha n h arg Hd) in Ht.
    + eapply evolves_trans; [done|]. apply unsubscribe_evolves.
  - done.
  - split_and!; [done|done|done|apply evolves_refl].
Qed.

Lemma guarded_dispatch this sub w w' value :
  evolves w w' -> guarded this sub w -> guarded this sub w' ->
  dispatch w' value sub = dispatch w value sub.
Proof.
  intros Hev (Hlt & Hopen & _) (_ & Hopen' & _). unfold dispatch, is_closed in *.
  destruct (lookup_lt_is_Some_2 _ _ Hlt) as [s Hs].
  destruct (evolves_lookup _ _ _ _ Hev Hs) as (s' & Hs' & Hp & Hd & _).
  rewrite Hs, Hs' in *. unfold fires. by rewrite Hopen, Hopen', Hp, Hd.
Qed.

(** A subscription that no handler releases gets from an emission what the
    state before it tells. *)
Lemma foldl_Subscriber_next_received_guarded this sub value l w :
  Inv w -> keeps (callbacks w) this sub -> guarded this sub w -> NoDup l ->
  received sub (foldl (Rx.Subscriber_next value) w l) =
    received sub w ++ if decide (sub ∈ l) then shown (dispatch w value sub) else [].
Proof.
  revert w. induction l as [|b l IH]; intros w HI Hkeeps Hg Hl; simpl.
  { by rewrite app_nil_r. }
  apply NoDup_cons in Hl as [Hb Hl].
  pose proof (Subscriber_next_Inv value w b HI) as HI1.
  destruct (decide (b = sub)) as [->|Hne].
  - rewrite foldl_Subscriber_next_received_other by done.
    rewrite Subscriber_next_received by apply HI.
    rewrite !decide_True; [done|by left|done].
  - destruct (lookup_lt_is_Some_2 _ _ (proj1 Hg)) as [s0 Hs0].
    assert (guarded this sub (Rx.Subscriber_next value w b)) as Hg1.
    { apply (foldl_Subscriber_next_guarded this sub value [b] w s0); try done.
      intros Hin%list_elem_of_singleton. congruence. }
    rewrite IH; [|done| |done|done]; cycle 1.
    { by rewrite Subscriber_next_callbacks. }
    rewrite Subscriber_next_received by apply HI.
    rewrite decide_False by done. rewrite app_nil_r. f_equal.
    rewrite (guarded_dispatch this sub w (Rx.Subscriber_next value w b))
      by (done || by apply Subscriber_next_evolves).
    destruct (decide (sub ∈ l)) as [Hin|Hin].
    + rewrite decide_True; [done | by right].
    + rewrite decide_False; [done|]. intros [?|?]%elem_of_cons; congruence.
Qed.

Lemma Subject_next_received_guarded this sub value w :
  Inv w -> keeps (callbacks w) this sub -> guarded this sub w ->
  received sub (Rx.Subject_next value w) =
    received sub w ++ shown (dispatch w value sub).
Proof.
  intros HI Hkeeps Hg. unfold Rx.Subject_next.
  rewrite (foldl_Subscriber_next_received_guarded this) by
    (try done; rewrite (wf_observers _ (proj1 HI)); apply NoDup_filter, NoDup_seq).
  rewrite decide_True; [done|].
  rewrite (wf_observers _ (proj1 HI)). apply list_elem_of_filter.
  destruct Hg as (Hlt & Hopen & _). split; [done|]. apply elem_of_seq. lia.
Qed.

Lemma Subject_next_guarded this sub value w s0 :
  Inv w -> keeps (callbacks w) this sub -> guarded this sub w ->
  heap w !! sub = Some s0 ->
  (forall n h arg,
     destination s0 value = (h, arg) -> throws (callbacks w n h arg) = false) ->
  guarded this sub (Rx.Subject_next value w).
Proof.
  intros HI Hkeeps Hg Hs0 Hthrow.
  apply (foldl_Subscriber_next_guarded this sub value _ w s0); auto.
Qed.

(** ** Handlers that throw *)

Lemma foldl_run_length l w : length (heap (foldl Rx.run w l)) = length (heap w).
Proof.
  revert w. induction l as [|act l IH]; intros w; simpl; [done|].
  by rewrite IH, run_length.
Qed.

Lemma invoke_throws a h arg w :
  a < length (heap w) ->
  throws (callbacks w (length (calls (env w))) h arg) = true ->
  is_closed a (Rx.invoke a h arg w) = true.
Proof.
  intros Hlt Ht. unfold Rx.invoke. rewrite Ht.
  rewrite is_closed_unsubscribe, decide_True by done.
  destruct (lookup_lt_is_Some_2 (heap (foldl Rx.run
              (set_env {| console := console (env w) ++
                            prints (callbacks w (length (calls (env w))) h arg);
                          calls := calls (env w) ++ [mkCall a h arg] |} w)
              (acts (callbacks w (length (calls (env w))) h arg)))) a) as [s ->]; [|done].
  by rewrite foldl_run_length.
Qed.

(** A subscriber whose handler throws is closed when its [next] returns. *)
Lemma Subscriber_next_throws value w a s h arg :
  heap w !! a = Some s ->
  (forall e, (predicate s value e).1 = true) ->
  destination s value = (h, arg) ->
  (forall n, throws (callbacks w n h arg) = true) ->
  is_closed a (Rx.Subscriber_next value w a) = true.
Proof.
  intros Hs Hpass Hd Hthrow. unfold Rx.Subscriber_next. rewrite Hs.
  destruct (closed s) eqn:Hc.
  { unfold is_closed. by rewrite Hs. }
  specialize (Hpass (env w)).
  destruct (predicate s value (env w)) as [pass e1]. simpl in Hpass. subst pass.
  rewrite Hd. apply invoke_throws; [|apply Hthrow].
  simpl. by eapply lookup_lt_Some.
Qed.

Lemma foldl_Subscriber_next_throws value l w a s h arg :
  Inv w ->
  heap w !! a = Some s ->
  (forall e, (predicate s value e).1 = true) ->
  destination s value = (h, arg) ->
  (forall n, throws (callbacks w n h arg) = true) ->
  a ∈ l ->
  is_closed a (foldl (Rx.Subscriber_next value) w l) = true.
Proof.
  revert w s. induction l as [|b l IH]; intros w s HI Hs Hpass Hd Hthrow Hin; simpl.
  { by apply elem_of_nil in Hin. }
  pose proof (Subscriber_next_Inv value w b HI) as HI1.
  destruct (decide (b = a)) as [->|Hne].
  - apply (is_closed_evolves (Rx.Subscriber_next value w a)).
    + by apply foldl_Subscriber_next_evolves.
    + by apply (Subscriber_next_throws value w a s h arg).
  - apply elem_of_cons in Hin as [?|Hin]; [congruence|].
    destruct (evolves_lookup _ _ _ _ (Subscriber_next_evolves value w b HI) Hs)
      as (s' & Hs' & Hp' & Hd' & _).
    apply (IH _ s'); try done.
    + intros e. rewrite Hp'. apply Hpass.
    + congruence.
    + intros n. rewrite Subscriber_next_callbacks. apply Hthrow.
Qed.

(** After an emission that a subscriber lets through to a handler that
    throws, the subscriber is closed. *)
Lemma Subject_next_throws value w a s h arg :
  Inv w ->
  heap w !! a = Some s ->
  (forall e, (predicate s value e).1 = true) ->
  destination s value = (h, arg) ->
  (forall n, throws (callbacks w n h arg) = true) ->
  is_closed a (Rx.Subject_next value w) = true.
Proof.
  intros HI Hs Hpass Hd Hthrow.
  destruct (is_closed a w) eqn:Hc.
  - apply (is_closed_evolves w); [by apply Subject_next_evolves | done].
  - apply (foldl_Subscriber_next_throws value _ w a s h arg); try done.
    rewrite (wf_observers _ (proj1 HI)). apply list_elem_of_filter. split; [done|].
    apply elem_of_seq. apply lookup_lt_Some in Hs. lia.
Qed.

(** A closed subscriber is not among the observers of the stream. *)
Lemma closed_not_observed w a : Wf w -> is_closed a w = true -> a ∉ observers_of w.
Proof.
  intros HW Hc. rewrite (wf_observers _ HW). intros [Ho _]%list_elem_of_filter. congruence.
Qed.

(** ** What every emission keeps of the composites *)

Lemma run_None w act g : groupSub w !! g = None -> groupSub (Rx.run w act) !! g = None.
Proof.
  intros Hn. destruct act as [a|g'].
  - by apply unsubscribe_None.
  - rewrite run_group_unsubscribe. by apply group_unsubscribe_None.
Qed.

Lemma Subject_next_None value w g :
  Inv w -> groupSub w !! g = None -> groupSub (Rx.Subject_next value w) !! g = None.
Proof.
  intros HI Hn.
  apply (Subject_next_ind (fun w' => Inv w' /\ groupSub w' !! g = None) value);
    [by intros w' [? _]| | | |done].
  - intros w' e [HI' Hn'] _ _ Hlt. split; [by apply set_env_Inv | done].
  - intros w' a s n h arg act [HI' Hn'] _ _ _. split; [by apply run_Inv | by apply run_None].
  - intros w' a s n h arg [HI' Hn'] _ _ _.
    split; [by apply unsubscribe_Inv | by apply unsubscribe_None].
Qed.

(** ** The console does not steer an emission *)

Lemma remove_set_env e a w p : Rx.remove a (set_env e w) p = set_env e (Rx.remove a w p).
Proof. unfold Rx.remove. simpl. by destruct (groupSub w !! p). Qed.

Lemma foldl_remove_set_env e a l w :
  foldl (Rx.remove a) (set_env e w) l = set_env e (foldl (Rx.remove a) w l).
Proof.
  revert w. induction l as [|p l IH]; intros w; simpl; [done|].
  by rewrite remove_set_env, IH.
Qed.

Lemma unsubscribe_set_env e w a :
  Rx.unsubscribe (set_env e w) a = set_env e (Rx.unsubscribe w a).
Proof.
  unfold Rx.unsubscribe. simpl. destruct (heap w !! a) as [s|]; [|done].
  destruct (closed s); [done|].
  change (set_heap ?h (set_env e w)) with (set_env e (set_heap h w)).
  by rewrite foldl_remove_set_env.
Qed.

Lemma foldl_unsubscribe_set_env e l w :
  foldl Rx.unsubscribe (set_env e w) l = set_env e (foldl Rx.unsubscribe w l).
Proof.
  revert w. induction l as [|a l IH]; intros w; simpl; [done|].
  by rewrite unsubscribe_set_env, IH.
Qed.

Lemma run_set_env e w act : Rx.run (set_env e w) act = set_env e (Rx.run w act).
Proof.
  destruct act as [a|g]; simpl; [apply unsubscribe_set_env|].
  unfold Rx.Subscription_unsubscribe. simpl. destruct (groupSub w !! g) as [c|]; [|done].
  destruct (Subscription_closed c); [done|].
  change (set_groupSub ?m (set_env e w)) with (set_env e (set_groupSub m w)).
  by rewrite foldl_unsubscribe_set_env.
Qed.

Lemma foldl_run_set_env e l w :
  foldl Rx.run (set_env e w) l = set_env e (foldl Rx.run w l).
Proof.
  revert w. induction l as [|act l IH]; intros w; simpl; [done|].
  by rewrite run_set_env, IH.
Qed.

(** Two worlds that differ in what the console shows go through a call of
    a handler in the same way. *)
Lemma invoke_set_env a h arg e1 e2 w :
  calls e1 = calls e2 ->
  exists e',
    calls e' = calls (env (Rx.invoke a h arg (set_env e2 w))) /\
    Rx.invoke a h arg (set_env e1 w) = set_env e' (Rx.invoke a h arg (set_env e2 w)).
Proof.
  intros Hc. unfold Rx.invoke. simpl. rewrite Hc.
  set (r := callbacks w (length (calls e2)) h arg).
  exists {| console := console e1 ++ prints r; calls := calls e2 ++ [mkCall a h arg] |}.
  change (set_env ?e (set_env _ w)) with (set_env e w).
  rewrite !foldl_run_set_env.
  destruct (throws r); rewrite ?unsubscribe_set_env; done.
Qed.

Lemma Subscriber_next_set_env value e w a :
  Wf w -> calls e = calls (env w) ->
  exists e',
    calls e' = calls (env (Rx.Subscriber_next value w a)) /\
    Rx.Subscriber_next value (set_env e w) a = set_env e' (Rx.Subscriber_next value w a).
Proof.
  intros HW Hc. unfold Rx.Subscriber_next. simpl.
  destruct (heap w !! a) as [s|] eqn:Hs; [|by exists e].
  destruct (closed s); [by exists e|].
  destruct (wf_closures _ HW _ _ Hs) as [tf h -> ->| d h -> ->]; simpl;
    destruct (String.eqb _ _).
  - change (set_env ?e0 (set_env _ w)) with (set_env e0 w).
    by apply invoke_set_env.
  - by exists e.
  - change (set_env ?e0 (set_env _ w)) with (set_env e0 w).
    by apply invoke_set_env.
  - by exists (console_log [LogStr "got event"; LogAppEvent d] e).
Qed.

Lemma foldl_Subscriber_next_set_env value l e w :
  Inv w -> calls e = calls (env w) ->
  exists e',
    calls e' = calls (env (foldl (Rx.Subscriber_next value) w l)) /\
    foldl (Rx.Subscriber_next value) (set_env e w) l =
      set_env e' (foldl (Rx.Subscriber_next value) w l).
Proof.
  revert e w. induction l as [|a l IH]; intros e w HI Hc; simpl; [by exists e|].
  destruct (Subscriber_next_set_env value e w a (proj1 HI) Hc) as (e1 & Hc1 & ->).
  by apply IH; [apply Subscriber_next_Inv|].
Qed.

(** The handlers that an emission calls do not depend on what the console
    shows. *)
Lemma Subject_next_set_env value e w :
  Inv w -> calls e = calls (env w) ->
  calls (env (Rx.Subject_next value (set_env e w))) = calls (env (Rx.Subject_next value w)).
Proof.
  intros HI Hc. unfold Rx.Subject_next.
  change (observers_of (set_env e w)) with (observers_of w).
  by destruct (foldl_Subscriber_next_set_env value (observers_of w) e w HI Hc)
    as (e' & Hc' & ->).
Qed.

(** ** One call of a client *)

Lemma dollar_emit_Subject_next this event w :
  dollar_emit this event w = Rx.Subject_next event w.
Proof. induction this as [|bus IH id]; [done|]. simpl. apply IH. Qed.

Lemma Inv_init_with b : Inv (init_with b).
Proof.
  split; [constructor|]; try done.
  - intros c Hc. by apply elem_of_nil in Hc.
  - intros g a Ha. by apply elem_of_nil in Ha.
Qed.

Lemma add_callbacks g child w : callbacks (Rx.add g child w).2 = callbacks w.
Proof.
  unfold Rx.add. destruct (groupSub w !! g) as [c|]; [|done].
  destruct (heap w !! child) as [s|]; [|done].
  destruct (closed s); [done|].
  destruct (Subscription_closed c); [apply unsubscribe_callbacks|].
  by case_decide.
Qed.

Lemma dollar_on_callbacks this typeFilter handler w :
  callbacks (dollar_on this typeFilter handler w).2 = callbacks w.
Proof.
  induction this as [|bus IH id]; simpl; [done|].
  unfold EventBusGroup.dollar_on.
  destruct (dollar_on bus typeFilter handler w) as [childSub w1]. simpl in IH.
  unfold EventBusGroup.addToGroupSub. rewrite add_callbacks.
  by destruct (groupSub w1 !! Group bus id).
Qed.

(** No call changes what the handlers do. *)
Lemma step_callbacks op s : callbacks (world (step op s).2) = callbacks (world s).
Proof.
  destruct op as [this e|this tf h|k|bus id|[n|d] p|[n|d] h|[n|d] h]; simpl; try done.
  - by rewrite dollar_emit_Subject_next, Subject_next_callbacks.
  - pose proof (dollar_on_callbacks this tf h (world s)) as Hc.
    by destruct (dollar_on this tf h (world s)).
  - destruct (handles s !! k); simpl; [apply unsubscribe_callbacks | done].
  - apply group_unsubscribe_callbacks.
  - by rewrite Subject_next_callbacks.
  - by rewrite Subject_next_callbacks.
Qed.

Lemma step_Inv op s : Inv (world s) -> Inv (world (step op s).2).
Proof.
  intros HI. destruct op as [this e|this tf h|k|bus id|[n|d] p|[n|d] h|[n|d] h]; simpl.
  - rewrite dollar_emit_Subject_next. by apply Subject_next_Inv.
  - destruct (dollar_on_registered this tf h _ HI) as (s1 & w' & -> & _ & _ & Hreg).
    simpl. apply Hreg.
  - destruct (handles s !! k); simpl; [by apply unsubscribe_Inv | done].
  - by apply group_unsubscribe_Inv.
  - by apply Subject_next_Inv, console_log_Inv.
  - by apply Subject_next_Inv, console_log_Inv.
  - by apply console_log_Inv.
  - eapply console_log_Inv in HI.
    destruct (on_registered d h _ HI) as (s1 & _ & _ & _ & Hreg). apply Hreg.
  - done.
  - done.
Qed.

Lemma step_evolves op s : Inv (world s) -> evolves (world s) (world (step op s).2).
Proof.
  intros HI. destruct op as [this e|this tf h|k|bus id|[n|d] p|[n|d] h|[n|d] h]; simpl.
  - rewrite dollar_emit_Subject_next. apply Subject_next_evolves, HI.
  - destruct (dollar_on_registered this tf h _ HI) as (s1 & w' & -> & _ & _ & Hreg).
    simpl. apply Hreg.
  - destruct (handles s !! k); simpl; [apply unsubscribe_evolves | apply evolves_refl].
  - apply group_unsubscribe_evolves.
  - eapply evolves_trans; [apply console_log_evolves|].
    apply Subject_next_evolves. by apply console_log_Inv.
  - eapply evolves_trans; [apply console_log_evolves|].
    apply Subject_next_evolves. by apply console_log_Inv.
  - apply console_log_evolves.
  - apply (evolves_trans _
             (set_env (console_log EventBusSrv.on_notice (env (world s))) (world s)));
      [apply console_log_evolves|].
    apply (subscribe_evolves (EventBusSrv.name_predicate d) (EventBusSrv.payload_observer h)).
  - apply evolves_refl.
  - apply evolves_refl.
Qed.

Lemma received_env a w w' : calls (env w') = calls (env w) -> received a w' = received a w.
Proof. unfold received. by intros ->. Qed.

(** Whatever the handlers do, a call adds for one subscription what the
    state before it tells, or nothing. *)
Lemma step_received_sub op s a :
  Inv (world s) ->
  exists cs,
    received a (world (step op s).2) = received a (world s) ++ cs /\
    cs `sublist_of` (emitted_by op ≫= fun e => shown (dispatch (world s) e a)).
Proof.
  intros HI.
  assert (forall e w, Inv w -> calls (env w) = calls (env (world s)) ->
            heap w = heap (world s) ->
            exists cs,
              received a (Rx.Subject_next e w) = received a (world s) ++ cs /\
              cs `sublist_of` ([e] ≫= fun e => shown (dispatch (world s) e a))) as Hemit.
  { intros e w HIw Hc Hh. simpl. rewrite app_nil_r.
    rewrite <- (dispatch_heap (world s) w) by done.
    rewrite <- (received_env a (world s) w) by done.
    destruct (Subject_next_received_sub e w a HIw) as [->| ->].
    - exists []. rewrite app_nil_r. split; [done | apply sublist_nil_l].
    - by eexists. }
  destruct op as [this e|this tf h|k|bus id|[n|d] p|[n|d] h|[n|d] h]; simpl.
  - rewrite dollar_emit_Subject_next. by apply Hemit.
  - exists []. rewrite app_nil_r. split; [|done].
    destruct (dollar_on_registered this tf h _ HI) as (s1 & w' & -> & _ & _ & Hreg).
    simpl. apply received_env. destruct Hreg as (_ & -> & _). done.
  - exists []. rewrite app_nil_r. split; [|done].
    destruct (handles s !! k); simpl; [|done].
    apply received_env. by rewrite unsubscribe_env.
  - exists []. rewrite app_nil_r. split; [|done].
    apply received_env. by rewrite group_unsubscribe_env.
  - apply Hemit; [by apply console_log_Inv|done|done].
  - apply Hemit; [by apply console_log_Inv|done|done].
  - exists []. by rewrite app_nil_r.
  - exists []. by rewrite app_nil_r.
  - exists []. by rewrite app_nil_r.
  - exists []. by rewrite app_nil_r.
Qed.

Lemma received_elem c w :
  c ∈ calls (env w) <-> (call_handler c, call_arg c) ∈ received (call_sub c) w.
Proof.
  unfold received. rewrite list_elem_of_fmap. split.
  - intros Hc. exists c. split; [done|]. by apply list_elem_of_filter.
  - intros (c' & Heq & [Hsub Hc']%list_elem_of_filter).
    destruct c, c'. simpl in *. by simplify_eq.
Qed.

(** Whatever the handlers do, a call of the client adds to the trace only
    calls that an emission of its event delivers in the state before it. *)
Lemma step_calls_elem op s c :
  Inv (world s) ->
  c ∈ calls (env (world (step op s).2)) ->
  c ∈ calls (env (world s)) \/
  exists e, e ∈ emitted_by op /\ c ∈ dispatch (world s) e (call_sub c).
Proof.
  intros HI Hc. apply received_elem in Hc.
  destruct (step_received_sub op s (call_sub c) HI) as (cs & Hrec & Hcs).
  rewrite Hrec in Hc. apply elem_of_app in Hc as [Hc|Hc].
  - left. by apply received_elem.
  - right. apply (elem_of_sublist _ _ _ Hc) in Hcs.
    apply list_elem_of_bind in Hcs as (e & Hcs & He).
    exists e. split; [done|].
    unfold shown in Hcs. apply list_elem_of_fmap in Hcs as (c' & Heq & Hc').
    destruct (dispatch_tag _ _ _ _ (proj1 HI) Hc') as [Hsub _].
    destruct c, c'. simpl in *. by simplify_eq.
Qed.

Lemma step_handles op s : handles s `prefix_of` handles (step op s).2.
Proof.
  destruct op as [this e|this tf h|k|bus id|[n|d] p|[n|d] h|[n|d] h]; simpl; try done.
  - destruct (dollar_on this tf h (world s)) as [sub w']. simpl. by apply prefix_app_r.
  - by destruct (handles s !! k).
Qed.

Lemma exec_cons op ops s : exec (op :: ops) s = exec ops (step op s).2.
Proof. done. Qed.

Lemma exec_app ops1 ops2 s : exec (ops1 ++ ops2) s = exec ops2 (exec ops1 s).
Proof. apply foldl_app. Qed.

Lemma exec_Inv ops s : Inv (world s) -> Inv (world (exec ops s)).
Proof.
  revert s. induction ops as [|op ops IH]; intros s HI; [done|].
  rewrite exec_cons. by apply IH, step_Inv.
Qed.

Lemma exec_evolves ops s : Inv (world s) -> evolves (world s) (world (exec ops s)).
Proof.
  revert s. induction ops as [|op ops IH]; intros s HI; [apply evolves_refl|].
  rewrite exec_cons. eapply evolves_trans; [by apply step_evolves|].
  by apply IH, step_Inv.
Qed.

Lemma exec_handles ops s : handles s `prefix_of` handles (exec ops s).
Proof.
  revert s. induction ops as [|op ops IH]; intros s; [done|].
  rewrite exec_cons. etrans; [apply step_handles | apply IH].
Qed.

Lemma exec_callbacks ops s : callbacks (world (exec ops s)) = callbacks (world s).
Proof.
  revert s. induction ops as [|op ops IH]; intros s; [done|].
  by rewrite exec_cons, IH, step_callbacks.
Qed.

Lemma Inv_program b ops : Inv (world (exec ops (program b))).
Proof. apply exec_Inv, Inv_init_with. Qed.

(** ** Subscriptions in a session *)

Lemma subscribes_facts s0 this typeFilter handler sub s1 :
  Inv (world s0) ->
  subscribes s0 this typeFilter handler sub s1 ->
  sub = length (heap (world s0)) /\
  handles s1 = handles s0 ++ [sub] /\
  exists st,
    predicate st = EventBusSrv.typeFilter_predicate typeFilter /\
    destination st = EventBusSrv.handler_observer handler /\
    registered (world s0) (fun g => through g this) st (world s1).
Proof.
  intros HI. unfold subscribes. simpl.
  destruct (dollar_on_registered this typeFilter handler _ HI)
    as (st & w' & -> & Hp & Hd & Hreg).
  intros [= <- <-]. simpl. eauto 10.
Qed.

Lemma dispatch_dollar_on w value a s typeFilter handler :
  heap w !! a = Some s ->
  predicate s = EventBusSrv.typeFilter_predicate typeFilter ->
  destination s = EventBusSrv.handler_observer handler ->
  shown (dispatch w value a) =
    if is_closed a w then []
    else if decide (type value = static_type typeFilter)
         then [(handler, ArgEvent value)] else [].
Proof.
  intros Ha Hp Hd. unfold dispatch, is_closed. rewrite Ha.
  destruct (closed s) eqn:Hc; [by rewrite fires_closed|].
  rewrite (fires_dollar_on _ _ _ typeFilter handler) by done.
  destruct (String.eqb_spec (type value) (static_type typeFilter));
    case_decide; done.
Qed.

Lemma dispatch_on w value a s event handler :
  heap w !! a = Some s ->
  predicate s = EventBusSrv.name_predicate event ->
  destination s = EventBusSrv.payload_observer handler ->
  shown (dispatch w value a) =
    if is_closed a w then []
    else if decide (type value = name event)
         then [(handler, ArgPayload (get_payload value))] else [].
Proof.
  intros Ha Hp Hd. unfold dispatch, is_closed. rewrite Ha.
  destruct (closed s) eqn:Hc; [by rewrite fires_closed|].
  rewrite (fires_on _ _ _ event handler) by done.
  destruct (String.eqb_spec (type value) (name event));
    case_decide; done.
Qed.

Lemma dispatch_closed w value a : is_closed a w = true -> dispatch w value a = [].
Proof.
  unfold dispatch, is_closed. destruct (heap w !! a) as [s|]; [|done].
  apply fires_closed.
Qed.

(** A closed subscription receives nothing more. *)
Lemma closed_forever post s a :
  Inv (world s) -> is_closed a (world s) = true ->
  received a (world (exec post s)) = received a (world s).
Proof.
  revert s. induction post as [|op post IH]; intros s HI Hc; [done|].
  rewrite exec_cons, IH.
  - assert ((emitted_by op ≫= fun e => shown (dispatch (world s) e a)) = []) as Hnil.
    { induction (emitted_by op) as [|e l IHl]; [done|].
      by rewrite bind_cons, IHl, dispatch_closed. }
    destruct (step_received_sub op s a HI) as (cs & -> & Hcs).
    rewrite Hnil in Hcs. apply sublist_nil_r in Hcs as ->.
    by rewrite app_nil_r.
  - by apply step_Inv.
  - eapply is_closed_evolves; [by apply step_evolves | done].
Qed.

Lemma emitted_cons op ops : emitted (op :: ops) = emitted_by op ++ emitted ops.
Proof. done. Qed.

Lemma emitted_by_length op : length (emitted_by op) <= 1.
Proof. destruct op as [| | | |[] ?|[] ?|[] ?]; simpl; lia. Qed.

(** What a [$on] subscription receives is drawn, in order, from the events
    emitted while it exists. *)
Lemma received_sublist mid s a st typeFilter handler :
  Inv (world s) ->
  heap (world s) !! a = Some st ->
  predicate st = EventBusSrv.typeFilter_predicate typeFilter ->
  destination st = EventBusSrv.handler_observer handler ->
  exists es,
    es `sublist_of` emitted mid /\
    Forall (fun e => type e = static_type typeFilter) es /\
    received a (world (exec mid s)) =
      received a (world s) ++ ((fun e => (handler, ArgEvent e)) <$> es).
Proof.
  revert s st. induction mid as [|op mid IH]; intros s st HI Ha Hp Hd.
  { exists []. by rewrite app_nil_r. }
  destruct (evolves_lookup _ _ _ _ (step_evolves op s HI) Ha)
    as (st' & Ha' & Hp' & Hd' & _).
  destruct (IH (step op s).2 st' (step_Inv op s HI) Ha')
    as (es & Hsub & Hall & Hrec); [congruence|congruence|].
  rewrite exec_cons, Hrec, emitted_cons.
  destruct (step_received_sub op s a HI) as (cs & -> & Hcs).
  assert (exists es0, es0 `sublist_of` emitted_by op /\
            Forall (fun e => type e = static_type typeFilter) es0 /\
            cs = (fun e => (handler, ArgEvent e)) <$> es0) as (es0 & Hsub0 & Hall0 & ->).
  { pose proof (emitted_by_length op) as Hlen.
    destruct (emitted_by op) as [|e [|e' l]]; [| |simpl in Hlen; lia].
    { apply sublist_nil_r in Hcs as ->. by exists []. }
    rewrite bind_cons, app_nil_r in Hcs.
    rewrite (dispatch_dollar_on _ _ _ st typeFilter handler) in Hcs by done.
    destruct (is_closed a (world s)).
    { apply sublist_nil_r in Hcs as ->. exists []. split; [apply sublist_nil_l | done]. }
    case_decide.
    - destruct cs as [|c cs].
      + exists []. split; [apply sublist_nil_l | done].
      + apply sublist_cons_l in Hcs as (k1 & k2 & Hk & Hrest).
        destruct k1 as [|? [|]]; simplify_eq/=.
        apply sublist_nil_r in Hrest as ->.
        exists [e]. split_and!; [done | by constructor | done].
    - apply sublist_nil_r in Hcs as ->. exists []. split; [apply sublist_nil_l | done]. }
  exists (es0 ++ es). split_and!.
  - by apply sublist_app.
  - by apply Forall_app.
  - by rewrite fmap_app, app_assoc.
Qed.

(** * The typed bus *)


(** What [subscribes] leaves true in every later session. *)
Lemma subscribes_later b pre this typeFilter handler sub s1 mid :
  subscribes (exec pre (program b)) this typeFilter handler sub s1 ->
  Inv (world (exec mid s1)) /\
  handles (exec mid s1) !! length (handles (exec pre (program b))) = Some sub /\
  received sub (world s1) = [] /\
  exists st,
    heap (world (exec mid s1)) !! sub = Some st /\
    predicate st = EventBusSrv.typeFilter_predicate typeFilter /\
    destination st = EventBusSrv.handler_observer handler /\
    (forall g, through g this = true ->
       closed st = true \/ g ∈ parentOrParents st) /\
    (forall g, through g this = false -> sub ∉ children_of g (world (exec mid s1))).
Proof.
  intros Hsub.
  destruct (subscribes_facts _ _ _ _ _ _ (Inv_program b pre) Hsub)
    as (-> & Hhs & st & Hp & Hd & Hh & He & HI1 & Hev1 & Hpar & Hkid & _).
  set (a := length (heap (world (exec pre (program b))))) in *.
  assert (heap (world s1) !! a = Some st) as Hst by (rewrite Hh; apply lookup_last).
  pose proof (exec_evolves mid s1 HI1) as Hev.
  destruct (evolves_lookup _ _ _ _ Hev Hst) as (st' & Hst' & Hp' & Hd' & Hc' & Hpar').
  split_and!.
  - by apply exec_Inv.
  - destruct (exec_handles mid s1) as [l ->]. rewrite Hhs.
    rewrite <- app_assoc. by rewrite lookup_app_r, Nat.sub_diag.
  - unfold received. rewrite He.
    rewrite filter_none; [done|]. apply Forall_forall. intros c Hc.
    apply (wf_calls _ (proj1 (Inv_program b pre))) in Hc. subst a. lia.
  - exists st'. split_and!; [done|congruence|congruence| |].
    + intros g Hg. destruct (closed st') eqn:Hcl; [by left|right].
      destruct (Hpar g Hg) as [Hcst|Hin]; [|by apply Hpar'].
      apply Hc' in Hcst. congruence.
    + intros g Hg Hin. apply (ev_children _ _ Hev) in Hin.
      * apply Hkid in Hin. congruence.
      * by eapply lookup_lt_Some.
Qed.

Lemma callbacks_program b ops : callbacks (world (exec ops (program b))) = b.
Proof. by rewrite exec_callbacks. Qed.

Lemma subscribes_callbacks b pre this typeFilter handler sub s1 mid :
  subscribes (exec pre (program b)) this typeFilter handler sub s1 ->
  callbacks (world (exec mid s1)) = b.
Proof.
  unfold subscribes. intros Hsub.
  replace s1 with (step (call_dollar_on this typeFilter handler) (exec pre (program b))).2
    by (by rewrite Hsub).
  by rewrite exec_callbacks, step_callbacks, callbacks_program.
Qed.

(** The programs of the worked sessions. *)
Lemma keeps_only h0 r this sub :
  Forall (fun act => ~ lets_go this sub act) (acts r) -> keeps (only h0 r) this sub.
Proof.
  intros Hr n h arg act. unfold only. case_decide.
  - rewrite Forall_forall in Hr. apply Hr.
  - by intros ?%elem_of_nil.
Qed.

Lemma leaves_groups_only h0 r :
  Forall (fun act => forall g, act <> act_group_unsubscribe g) (acts r) ->
  leaves_groups (only h0 r).
Proof.
  intros Hr n h arg g. unfold only. case_decide.
  - rewrite Forall_forall in Hr. intros Hin. by apply (Hr _ Hin g).
  - by intros ?%elem_of_nil.
Qed.

Lemma never_throws_only h0 r h : h <> h0 -> never_throws (only h0 r) h.
Proof. intros Hne n arg. unfold only. by rewrite decide_False. Qed.

Lemma silent_only h0 r : prints r = [] -> silent (only h0 r).
Proof. intros Hr n h arg. unfold only. by case_decide. Qed.

Lemma calm_only h0 r ops value :
  acts r = [] -> calm (world (exec ops (program (only h0 r)))) value.
Proof.
  intros Hr n h. rewrite callbacks_program. unfold only. by case_decide.
Qed.

(** An open subscription is guarded. *)
Lemma subscribes_guarded b pre this typeFilter handler sub s1 mid :
  subscribes (exec pre (program b)) this typeFilter handler sub s1 ->
  is_closed sub (world (exec mid s1)) = false ->
  guarded this sub (world (exec mid s1)).
Proof.
  intros Hsub Hopen.
  destruct (subscribes_later _ _ _ _ _ _ _ mid Hsub)
    as (_ & _ & _ & st & Hst & _ & _ & _ & Hout).
  split_and!; [by eapply lookup_lt_Some | done |].
  intros g Hin. destruct (through g this) eqn:Ht; [done|]. by apply Hout in Hin.
Qed.

(** A subscription that is open when an event is emitted, and that no
    handler releases, gets the event once if the tags agree, and nothing
    otherwise. *)
Lemma dollar_emit_received b pre this typeFilter handler sub s1 mid bus event :
  subscribes (exec pre (program b)) this typeFilter handler sub s1 ->
  keeps b this sub ->
  let w := world (exec mid s1) in
  is_closed sub w = false ->
  received sub (dollar_emit bus event w) =
    received sub w ++
    if decide (type event = static_type typeFilter)
    then [(handler, ArgEvent event)] else [].
Proof.
  intros Hsub Hkeeps w Hopen.
  destruct (subscribes_later _ _ _ _ _ _ _ mid Hsub)
    as (HI & _ & _ & st & Hst & Hp & Hd & _).
  rewrite dollar_emit_Subject_next.
  rewrite (Subject_next_received_guarded this); [|done| |by eapply subscribes_guarded].
  - f_equal. rewrite (dispatch_dollar_on _ _ _ st typeFilter handler) by done.
    fold w. by rewrite Hopen.
  - unfold w. by rewrite (subscribes_callbacks _ _ _ _ _ _ _ mid Hsub).
Qed.



Lemma foldl_Subscriber_next_Inv value l w :
  Inv w -> Inv (foldl (Rx.Subscriber_next value) w l).
Proof.
  revert w. induction l as [|a l IH]; intros w HI; simpl; [done|].
  by apply IH, Subscriber_next_Inv.
Qed.






Lemma releases_emits_nothing s0 this u : releases s0 this u -> emitted_by u = [].
Proof. by destruct u. Qed.

(** A releasing call closes the subscription. *)
Lemma releases_closes b pre this typeFilter handler sub s1 mid u :
  subscribes (exec pre (program b)) this typeFilter handler sub s1 ->
  releases (exec pre (program b)) this u ->
  is_closed sub (world (step u (exec mid s1)).2) = true.
Proof.
  intros Hsub Hrel.
  destruct (subscribes_later _ _ _ _ _ _ _ mid Hsub)
    as (HI & Hk & _ & st & Hst & _ & _ & Hpar & _).
  destruct u as [| |k|bus id| | |]; try done; simpl in Hrel |- *.
  - subst k. rewrite Hk. simpl. rewrite is_closed_unsubscribe.
    rewrite decide_True by done. by rewrite Hst.
  - destruct (closed st) eqn:Hcl.
    { eapply is_closed_evolves; [apply group_unsubscribe_evolves|].
      unfold is_closed. by rewrite Hst. }
    destruct (Hpar _ Hrel) as [?|Hin]; [congruence|].
    destruct (proj2 HI _ _ _ Hst Hcl Hin) as [(c & Hg & Hc & Hkid)|[_ Hn]];
      [|by apply elem_of_nil in Hn].
    rewrite group_unsubscribe_is_closed by (by eapply lookup_lt_Some).
    rewrite Hg, Hc. by rewrite decide_True.
Qed.

(** Once released, a subscription receives nothing more. *)
Lemma released_receives_nothing b pre this typeFilter handler sub s1 mid u post :
  subscribes (exec pre (program b)) this typeFilter handler sub s1 ->
  releases (exec pre (program b)) this u ->
  received sub (world (exec (mid ++ u :: post) s1)) =
    received sub (world (exec mid s1)).
Proof.
  intros Hsub Hrel. rewrite exec_app, exec_cons.
  destruct (subscribes_later _ _ _ _ _ _ _ mid Hsub) as (HIm & _).
  rewrite closed_forever.
  - destruct (step_received_sub u (exec mid s1) sub HIm) as (cs & -> & Hcs).
    rewrite (releases_emits_nothing _ _ _ Hrel) in Hcs.
    apply sublist_nil_r in Hcs as ->. by rewrite app_nil_r.
  - by apply step_Inv.
  - by eapply releases_closes.
Qed.

(** C2. A handler registered by [$on] gets nothing from the past: when
    [$on] returns it has received nothing, what it receives later is drawn
    from the events emitted after that call, and it receives nothing that is
    emitted after the call that releases its subscription. *)
Theorem dollar_on_no_replay b pre this typeFilter handler sub s1 mid :
  subscribes (exec pre (program b)) this typeFilter handler sub s1 ->
  received sub (world s1) = [] /\
  (exists es,
     es `sublist_of` emitted mid /\
     Forall (fun e => type e = static_type typeFilter) es /\
     received sub (world (exec mid s1)) = (fun e => (handler, ArgEvent e)) <$> es) /\
  (forall u post,
     releases (exec pre (program b)) this u ->
     received sub (world (exec (mid ++ u :: post) s1)) =
       received sub (world (exec mid s1))).
Proof.
  intros Hsub.
  destruct (subscribes_later _ _ _ _ _ _ _ [] Hsub)
    as (HI1 & _ & Hnil & st & Hst & Hp & Hd & _).
  split_and!; [done| |].
  - destruct (received_sublist mid s1 sub st typeFilter handler HI1 Hst Hp Hd)
      as (es & Hes & Hall & Hrec).
    exists es. rewrite Hrec. simpl in Hnil. by rewrite Hnil.
  - intros u post Hrel. by eapply released_receives_nothing.
Qed.

(** * Unsubscribing *)

Lemma unsubscribe_idempotent w sub :
  Rx.unsubscribe (Rx.unsubscribe w sub) sub = Rx.unsubscribe w sub.
Proof.
  destruct (unsubscribe_cases w sub)
    as [[Heq _] | (s & Ha & Hc & Hh & _)]; [by rewrite !Heq|].
  unfold Rx.unsubscribe at 1. rewrite Hh.
  rewrite list_lookup_insert_eq by (by eapply lookup_lt_Some). done.
Qed.

Lemma group_unsubscribe_idempotent g w :
  EventBusGroup.unsubscribe g (EventBusGroup.unsubscribe g w) =
  EventBusGroup.unsubscribe g w.
Proof.
  pose proof (group_unsubscribe_groupSub g w) as Hg.
  destruct (group_unsubscribe_cases g (EventBusGroup.unsubscribe g w))
    as [[Heq _] | (c & Hc & Hopen & _)]; [done|].
  rewrite Hc in Hg. congruence.
Qed.

Lemma step_groupSub_None g op s :
  Inv (world s) -> adds_through g op = false ->
  groupSub (world s) !! g = None -> groupSub (world (step op s).2) !! g = None.
Proof.
  intros HI Hadd Hn.
  destruct op as [this e|this tf h|k|bus id|[n|d] p|[n|d] h|[n|d] h]; simpl in *;
    try done.
  - rewrite dollar_emit_Subject_next. by apply Subject_next_None.
  - destruct (dollar_on_registered this tf h _ HI) as (s1 & w' & -> & _ & _ & Hreg).
    simpl. destruct Hreg as (_ & _ & _ & _ & _ & _ & Hnone & _). by apply Hnone.
  - destruct (handles s !! k); simpl; [by apply unsubscribe_None | done].
  - by apply group_unsubscribe_None.
  - apply Subject_next_None; [by apply console_log_Inv | done].
  - apply Subject_next_None; [by apply console_log_Inv | done].
Qed.

Lemma exec_groupSub_None g ops s :
  Inv (world s) -> Forall (fun op => adds_through g op = false) ops ->
  groupSub (world s) !! g = None -> groupSub (world (exec ops s)) !! g = None.
Proof.
  revert s. induction ops as [|op ops IH]; intros s HI Hall Hn; [done|].
  apply Forall_cons in Hall as [Hop Hall]. rewrite exec_cons.
  apply IH; [by apply step_Inv | done | by apply step_groupSub_None].
Qed.

(** C3. Unsubscribing twice is unsubscribing once, for a handle and for a
    group; neither call throws; and [unsubscribe()] on a group through which
    nothing was ever subscribed changes nothing. *)
Theorem unsubscribe_idempotent_and_safe :
  (forall w sub, Rx.unsubscribe (Rx.unsubscribe w sub) sub = Rx.unsubscribe w sub) /\
  (forall s k,
     (step (call_unsubscribe k) s).1 = Normal RetUndefined /\
     step (call_unsubscribe k) (step (call_unsubscribe k) s).2 =
       step (call_unsubscribe k) s) /\
  (forall w g,
     EventBusGroup.unsubscribe g (EventBusGroup.unsubscribe g w) =
       EventBusGroup.unsubscribe g w) /\
  (forall s bus id,
     (step (call_group_unsubscribe bus id) s).1 = Normal RetUndefined /\
     step (call_group_unsubscribe bus id) (step (call_group_unsubscribe bus id) s).2 =
       step (call_group_unsubscribe bus id) s) /\
  (forall b ops bus id,
     Forall (fun op => adds_through (Group bus id) op = false) ops ->
     step (call_group_unsubscribe bus id) (exec ops (program b)) =
       (Normal RetUndefined, exec ops (program b))).
Proof.
  split_and!.
  - apply unsubscribe_idempotent.
  - intros s k. simpl. destruct (handles s !! k) as [sub|] eqn:Hk; simpl.
    + rewrite Hk. by rewrite unsubscribe_idempotent.
    + by rewrite Hk.
  - intros w g. apply group_unsubscribe_idempotent.
  - intros s bus id. simpl. by rewrite group_unsubscribe_idempotent.
  - intros b ops bus id Hall. simpl.
    pose proof (exec_groupSub_None (Group bus id) ops (program b) (Inv_init_with b) Hall
                  eq_refl) as Hn.
    unfold EventBusGroup.unsubscribe. rewrite Hn. by destruct (exec ops (program b)).
Qed.

(** * Groups *)

Lemma group_unsubscribe_frame b pre this typeFilter handler sub s1 mid g :
  subscribes (exec pre (program b)) this typeFilter handler sub s1 ->
  through g this = false ->
  is_closed sub (EventBusGroup.unsubscribe g (world (exec mid s1))) =
  is_closed sub (world (exec mid s1)).
Proof.
  intros Hsub Hg.
  destruct (subscribes_later _ _ _ _ _ _ _ mid Hsub)
    as (HI & _ & _ & st & Hst & _ & _ & _ & Hkid).
  rewrite group_unsubscribe_is_closed by (by eapply lookup_lt_Some).
  specialize (Hkid g Hg). unfold children_of in Hkid.
  destruct (groupSub (world (exec mid s1)) !! g) as [c|]; [|done].
  destruct (Subscription_closed c); [done|]. by rewrite decide_False.
Qed.

(** C4. Whatever the handlers of the program do, [unsubscribe()] on a
    group closes every subscription made through the group, which then
    receives nothing more; a subscription made on the bus itself, or through
    another group, is left as it is and, when no handler releases it, still
    gets the events emitted afterwards. *)
Theorem group_unsubscribe_releases_its_own :
  (forall b pre this typeFilter handler sub s1 mid bus id post,
     subscribes (exec pre (program b)) this typeFilter handler sub s1 ->
     through (Group bus id) this = true ->
     is_closed sub (world (exec (mid ++ [call_group_unsubscribe bus id]) s1)) = true /\
     received sub (world (exec (mid ++ call_group_unsubscribe bus id :: post) s1)) =
       received sub (world (exec mid s1)))
  /\
  (forall b pre this typeFilter handler sub s1 mid bus id emitter event,
     subscribes (exec pre (program b)) this typeFilter handler sub s1 ->
     through (Group bus id) this = false ->
     let w := world (exec mid s1) in
     let w' := EventBusGroup.unsubscribe (Group bus id) w in
     is_closed sub w' = is_closed sub w /\
     (is_closed sub w = false -> keeps b this sub ->
      received sub (dollar_emit emitter event w') =
        received sub w ++
        if decide (type event = static_type typeFilter)
        then [(handler, ArgEvent event)] else [])).
Proof.
  split.
  - intros b pre this typeFilter handler sub s1 mid bus id post Hsub Hg. split.
    + rewrite exec_app. change (exec [?u] ?s) with (step u s).2.
      by eapply releases_closes.
    + by eapply released_receives_nothing.
  - intros b pre this typeFilter handler sub s1 mid bus id emitter event Hsub Hg.
    cbv zeta.
    pose proof (group_unsubscribe_frame _ _ _ _ _ _ _ mid _ Hsub Hg) as Hsame.
    split; [done|]. intros Hopen Hkeeps.
    assert (EventBusGroup.unsubscribe (Group bus id) (world (exec mid s1)) =
            world (exec (mid ++ [call_group_unsubscribe bus id]) s1)) as Hw'.
    { by rewrite exec_app. }
    rewrite Hw' in *.
    rewrite (dollar_emit_received _ _ _ _ _ _ _ _ emitter event Hsub Hkeeps)
      by congruence.
    f_equal. rewrite <- Hw'. apply received_env. by rewrite group_unsubscribe_env.
Qed.

(** * The legacy shim *)

Lemma emit_world event payload w :
  EventBusSrv.emit event payload w =
    (Normal RetUndefined,
     Rx.Subject_next {| type := legacy_tag event; payload := Some payload |}
       (set_env (console_log EventBusSrv.emit_notice (env w)) w)).
Proof. by destruct event. Qed.

Lemma emit_calls event payload w :
  Inv w -> calm w {| type := legacy_tag event; payload := Some payload |} ->
  calls (env (EventBusSrv.emit event payload w).2) =
    calls (env w) ++
    (seq 0 (length (heap w)) ≫=
       dispatch w {| type := legacy_tag event; payload := Some payload |}).
Proof.
  intros HI Hc. rewrite emit_world. simpl.
  rewrite Subject_next_calls; [done | by apply console_log_Inv | done].
Qed.

Lemma emit_console event payload w :
  Inv w ->
  (console (env w) ++ [EventBusSrv.emit_notice])
    `prefix_of` console (env (EventBusSrv.emit event payload w).2).
Proof.
  intros HI. rewrite emit_world. simpl.
  apply (ev_console _ _
           (Subject_next_evolves {| type := legacy_tag event; payload := Some payload |}
              (set_env (console_log EventBusSrv.emit_notice (env w)) w)
              (console_log_Inv EventBusSrv.emit_notice w HI))).
Qed.

(** C5. The legacy [emit] pushes on the shared stream, by [next] on the
    stream itself, the record [{type: name, payload}] for a string [name]
    and [{type: descriptor.name, payload}] for a descriptor; of a descriptor
    nothing but [name] is read.  When no handler unsubscribes anything on
    receiving the record, every open subscription of its tag is called with
    it, in the order of the subscriptions. *)
Theorem legacy_emit_pushes_record :
  (forall (event : string) payload w,
     EventBusSrv.emit (ByName event) payload w =
       (Normal RetUndefined,
        Rx.Subject_next {| type := event; payload := Some payload |}
          (set_env (console_log EventBusSrv.emit_notice (env w)) w))) /\
  (forall (event : AppEvent) payload w,
     EventBusSrv.emit (ByDescriptor event) payload w =
       (Normal RetUndefined,
        Rx.Subject_next {| type := name event; payload := Some payload |}
          (set_env (console_log EventBusSrv.emit_notice (env w)) w))) /\
  (forall (d d' : AppEvent) payload w,
     name d = name d' ->
     EventBusSrv.emit (ByDescriptor d) payload w =
     EventBusSrv.emit (ByDescriptor d') payload w) /\
  (forall b ops event payload,
     let w := world (exec ops (program b)) in
     calm w {| type := legacy_tag event; payload := Some payload |} ->
     calls (env (EventBusSrv.emit event payload w).2) =
       calls (env w) ++
       (seq 0 (length (heap w)) ≫=
          dispatch w {| type := legacy_tag event; payload := Some payload |})).
Proof.
  split_and!.
  - done.
  - done.
  - intros d d' payload w Hname. unfold EventBusSrv.emit. by rewrite Hname.
  - intros b ops event payload w Hcalm.
    apply emit_calls; [apply Inv_program | done].
Qed.

(** Two descriptors of the same name, and a legacy [emit] to two
    subscriptions, the handler of the first of which throws. *)
Lemma legacy_emit_pushes_record_witness :
  let b := only 1 throwing in
  let w := world (exec [call_dollar_on Srv (mkBusEventType "foo") 1;
                        call_on (ByDescriptor (mkAppEvent "foo" [])) 2] (program b)) in
  EventBusSrv.emit (ByDescriptor (mkAppEvent "foo" [])) (JsNum 1) w =
    EventBusSrv.emit (ByDescriptor (mkAppEvent "foo" [("x", JsNum 2)])) (JsNum 1) w /\
  calls (env (EventBusSrv.emit (ByName "foo") (JsNum 1) w).2) =
    [mkCall 0 1 (ArgEvent {| type := "foo"; payload := Some (JsNum 1) |});
     mkCall 1 2 (ArgPayload (JsNum 1))].
Proof.
  intros b w. destruct legacy_emit_pushes_record as (_ & _ & Hname & Hcalls). split.
  - by apply Hname.
  - apply (Hcalls b [call_dollar_on Srv (mkBusEventType "foo") 1;
                     call_on (ByDescriptor (mkAppEvent "foo" [])) 2]
             (ByName "foo") (JsNum 1)).
    by apply calm_only.
Defined.

(** C7. The legacy [off] reads [this.emitter], which [EventBusSrv] does not
    have: every call throws a [TypeError] and changes nothing, so a handler
    registered with the descriptor form of [on] is still called after
    [off]. *)
Theorem legacy_off_throws :
  (forall event handler w,
     EventBusSrv.off event handler w =
       (Throw (TypeError "Cannot read property 'off' of undefined"), w)) /\
  (let foo := {| name := "foo"; other := [] |} in
   let s := exec [call_on (ByDescriptor foo) 1; call_off (ByDescriptor foo) 1;
                  call_emit (ByDescriptor foo) (JsNum 7)] start in
   calls (env (world s)) = [mkCall 0 1 (ArgPayload (JsNum 7))]) /\
  (step (call_off (ByName "foo") 1) start).1 =
    Throw (TypeError "Cannot read property 'off' of undefined").
Proof.
  split_and!.
  - by intros [n|d] handler w.
  - vm_compute. reflexivity.
  - reflexivity.
Qed.

(** C8. The legacy [emit] and [on] log their deprecation notice on every
    call, but [off] logs nothing. *)
Theorem legacy_off_logs_no_notice :
  (forall b ops event payload,
     let w := world (exec ops (program b)) in
     (console (env w) ++ [EventBusSrv.emit_notice])
       `prefix_of` console (env (EventBusSrv.emit event payload w).2)) /\
  (forall event handler w,
     console (env (EventBusSrv.on event handler w).2) =
       console (env w) ++ [EventBusSrv.on_notice]) /\
  (forall event handler w,
     console (env (EventBusSrv.off event handler w).2) = console (env w)) /\
  console (env (world (step (call_off (ByName "foo") 1) start).2)) = [].
Proof.
  split_and!.
  - intros b ops event payload w. apply emit_console, Inv_program.
  - by intros [n|d] handler w.
  - by intros [n|d] handler w.
  - reflexivity.
Qed.




(** A subscriber of the state after a call was there before, with the same
    closures, or was made by the call for the handler it registers. *)
Lemma step_heap_lookup op s a s' :
  Inv (world s) ->
  heap (world (step op s).2) !! a = Some s' ->
  (exists s0, heap (world s) !! a = Some s0 /\
     predicate s' = predicate s0 /\ destination s' = destination s0) \/
  (a = length (heap (world s)) /\
   exists h, registers op = Some h /\
     ((exists typeFilter,
         predicate s' = EventBusSrv.typeFilter_predicate typeFilter /\
         destination s' = EventBusSrv.handler_observer h /\
         exists this, op = call_dollar_on this typeFilter h) \/
      (exists event,
         predicate s' = EventBusSrv.name_predicate event /\
         destination s' = EventBusSrv.payload_observer h /\
         closed s' = false /\
         op = call_on (ByDescriptor event) h))).
Proof.
  intros HI Ha'.
  destruct (decide (a < length (heap (world s)))) as [Hlt|Hge].
  { left. destruct (lookup_lt_is_Some_2 _ _ Hlt) as [s0 Hs0].
    destruct (evolves_lookup _ _ _ _ (step_evolves op s HI) Hs0)
      as (s'' & Hs'' & Hp & Hd & _).
    exists s0. split_and!; congruence. }
  right. apply lookup_lt_Some in Ha' as Hlt'.
  destruct op as [this e|this tf h|k|bus id|[n|d] p|[n|d] h|[n|d] h]; simpl in *.
  - rewrite dollar_emit_Subject_next, Subject_next_length in Hlt' by done. lia.
  - destruct (dollar_on_registered this tf h _ HI)
      as (st & w' & Hon & Hp & Hd & Hh & _).
    rewrite Hon in *. simpl in *. rewrite Hh in *.
    rewrite length_app in Hlt'. simpl in Hlt'.
    assert (a = length (heap (world s))) as -> by lia.
    rewrite lookup_last in Ha'. injection Ha' as <-.
    split; [done|]. exists h. split; [done|]. left. eauto 10.
  - destruct (handles s !! k); simpl in *; [|lia].
    rewrite unsubscribe_length in Hlt'. lia.
  - rewrite group_unsubscribe_length in Hlt'. lia.
  - rewrite Subject_next_length in Hlt' by (by apply console_log_Inv).
    simpl in Hlt'. lia.
  - rewrite Subject_next_length in Hlt' by (by apply console_log_Inv).
    simpl in Hlt'. lia.
  - lia.
  - rewrite length_app in Hlt'. simpl in Hlt'.
    assert (a = length (heap (world s))) as -> by lia.
    rewrite lookup_last in Ha'. injection Ha' as <-.
    split; [done|]. exists h. split; [done|]. right. exists d. simpl. done.
  - lia.
  - lia.
Qed.

Lemma fires_spares h s a value c :
  spares h s -> c ∈ fires s a value -> call_handler c <> h.
Proof.
  intros Hs Hc. destruct (closed s) eqn:Hcl.
  { rewrite fires_closed in Hc by done. by apply elem_of_nil in Hc. }
  destruct Hs as [(tf & h' & Hne & Hp & Hd)|(d & h' & Hne & Hp & Hd)].
  - rewrite (fires_dollar_on _ _ _ tf h') in Hc by done.
    destruct (String.eqb _ _); [|by apply elem_of_nil in Hc].
    apply list_elem_of_singleton in Hc. by subst.
  - rewrite (fires_on _ _ _ d h') in Hc by done.
    destruct (String.eqb _ _); [|by apply elem_of_nil in Hc].
    apply list_elem_of_singleton in Hc. by subst.
Qed.

(** A handler that no call registers is never called. *)
Lemma unregistered_never_called h ops s :
  Inv (world s) ->
  (forall a st, heap (world s) !! a = Some st -> spares h st) ->
  Forall (fun c => call_handler c <> h) (calls (env (world s))) ->
  Forall (fun op => registers op <> Some h) ops ->
  Forall (fun c => call_handler c <> h) (calls (env (world (exec ops s)))).
Proof.
  revert s. induction ops as [|op ops IH]; intros s HI Hheap Hcalls Hops; [done|].
  apply Forall_cons in Hops as [Hop Hops]. rewrite exec_cons.
  apply IH; [by apply step_Inv| | |done].
  - intros a st Ha.
    destruct (step_heap_lookup op s a st HI Ha)
      as [(s0 & Hs0 & Hp & Hd)|(_ & h' & Hreg & Hnew)].
    + destruct (Hheap a s0 Hs0) as [(tf & h' & ? & ? & ?)|(d & h' & ? & ? & ?)];
        [left; exists tf, h' | right; exists d, h']; split_and!; congruence.
    + assert (h' <> h) by congruence.
      destruct Hnew as [(tf & ? & ? & _)|(d & ? & ? & _)];
        [left; exists tf, h' | right; exists d, h']; done.
  - apply Forall_forall. intros c Hc.
    apply step_calls_elem in Hc as [Hc|(e & _ & Hc)]; [| |done].
    { rewrite Forall_forall in Hcalls. by apply Hcalls. }
    unfold dispatch in Hc. destruct (heap (world s) !! call_sub c) as [st|] eqn:Ha;
      [|by apply elem_of_nil in Hc].
    eapply fires_spares; [by eapply Hheap | done].
Qed.

(** C6. The legacy [on] with a string name logs its notice and returns: it
    registers nothing, it does not throw, and a handler given to no other
    registering call is never invoked, whatever is emitted. *)
Theorem legacy_on_string_registers_nothing :
  (forall (event : string) handler w,
     EventBusSrv.on (ByName event) handler w =
       (Normal RetUndefined, set_env (console_log EventBusSrv.on_notice (env w)) w)) /\
  (forall (event : string) handler w,
     let w' := (EventBusSrv.on (ByName event) handler w).2 in
     observers_of w' = observers_of w /\ heap w' = heap w /\
     groupSub w' = groupSub w /\ calls (env w') = calls (env w)) /\
  (forall b ops handler,
     Forall (fun op => registers op <> Some handler) ops ->
     Forall (fun c => call_handler c <> handler)
       (calls (env (world (exec ops (program b)))))).
Proof.
  split_and!.
  - done.
  - done.
  - intros b ops handler Hops. apply unregistered_never_called; try done.
    apply Inv_init_with.
Qed.

(** ** The descriptor form of [on] *)

Lemma step_handles_shape op s :
  Inv (world s) ->
  handles (step op s).2 = handles s \/
  handles (step op s).2 = handles s ++ [length (heap (world s))].
Proof.
  intros HI.
  destruct op as [this e|this tf h|k|bus id|[n|d] p|[n|d] h|[n|d] h]; simpl; auto.
  - destruct (dollar_on_registered this tf h _ HI) as (s1 & w' & -> & _). by right.
  - destruct (handles s !! k); auto.
Qed.

Lemma step_handles_new op s :
  Inv (world s) ->
  forall b, b ∈ handles (step op s).2 ->
    b ∈ handles s \/
    (b = length (heap (world s)) /\ b < length (heap (world (step op s).2))).
Proof.
  intros HI b.
  destruct op as [this e|this tf h|k|bus id|[n|d] p|[n|d] h|[n|d] h]; simpl; auto.
  - destruct (dollar_on_registered this tf h _ HI)
      as (s1 & w' & -> & _ & _ & Hh & _).
    simpl. intros [?|Hb]%elem_of_app; [by left|].
    apply list_elem_of_singleton in Hb. right. split; [done|].
    rewrite Hh, length_app. simpl. lia.
  - destruct (handles s !! k); simpl; auto.
Qed.

(** ** Subscriptions that nothing releases *)

(** A call of the client adds for a guarded subscription what the state
    before it tells. *)
Lemma step_received_guarded op s this sub :
  Inv (world s) -> guarded this sub (world s) ->
  keeps (callbacks (world s)) this sub ->
  received sub (world (step op s).2) =
    received sub (world s) ++ (emitted_by op ≫= fun e => shown (dispatch (world s) e sub)).
Proof.
  intros HI Hg Hkeeps.
  destruct op as [this' e|this' tf h|k|bus id|[n|d] p|[n|d] h|[n|d] h]; simpl;
    rewrite ?app_nil_r.
  - rewrite dollar_emit_Subject_next. by apply (Subject_next_received_guarded this).
  - destruct (dollar_on_registered this' tf h _ HI) as (s1 & w' & -> & _ & _ & Hreg).
    simpl. apply received_env. destruct Hreg as (_ & -> & _). done.
  - destruct (handles s !! k); simpl; [|done].
    apply received_env. by rewrite unsubscribe_env.
  - apply received_env. by rewrite group_unsubscribe_env.
  - rewrite (Subject_next_received_guarded this); [done|by apply console_log_Inv|done|done].
  - rewrite (Subject_next_received_guarded this); [done|by apply console_log_Inv|done|done].
  - done.
  - done.
  - done.
  - done.
Qed.

(** A call that does not release a guarded subscription leaves it guarded,
    when no handler releases it and its own handler does not throw. *)
Lemma step_guarded op s this sub s0 :
  Inv (world s) -> guarded this sub (world s) ->
  keeps (callbacks (world s)) this sub ->
  heap (world s) !! sub = Some s0 ->
  (forall value n h arg,
     destination s0 value = (h, arg) -> throws (callbacks (world s) n h arg) = false) ->
  match op with
  | call_unsubscribe k => handles s !! k <> Some sub
  | call_group_unsubscribe bus id => through (Group bus id) this = false
  | _ => True
  end ->
  guarded this sub (world (step op s).2).
Proof.
  intros HI Hg Hkeeps Hs0 Hthrow Hop.
  pose proof Hg as (Hlt & Hopen & Hkid).
  pose proof (step_evolves op s HI) as Hev.
  split_and!.
  - pose proof (evolves_length _ _ Hev). lia.
  - destruct op as [this' e|this' tf h|k|bus id|[n|d] p|[n|d] h|[n|d] h]; simpl.
    + rewrite dollar_emit_Subject_next.
      by apply (Subject_next_guarded this sub e (world s) s0 HI Hkeeps Hg Hs0), Hthrow.
    + destruct (dollar_on_registered this' tf h _ HI)
        as (s1 & w' & -> & _ & _ & Hheap & _).
      simpl. unfold is_closed in *. rewrite Hheap.
      by rewrite lookup_app_l_Some with (x := s0), Hs0 in *.
    + destruct (handles s !! k) as [b|] eqn:Hk; simpl; [|done].
      rewrite is_closed_unsubscribe. rewrite decide_False; [done|].
      intros ->. done.
    + assert (guarded this sub (Rx.run (world s) (act_group_unsubscribe (Group bus id))))
        as (_ & Hc & _).
      { apply run_guarded; [done|done|]. simpl. by rewrite Hop. }
      by rewrite run_group_unsubscribe in Hc.
    + by apply (Subject_next_guarded this sub _ _ s0 (console_log_Inv _ _ HI) Hkeeps Hg Hs0),
               Hthrow.
    + by apply (Subject_next_guarded this sub _ _ s0 (console_log_Inv _ _ HI) Hkeeps Hg Hs0),
               Hthrow.
    + done.
    + unfold is_closed in *. simpl.
      by rewrite lookup_app_l_Some with (x := s0), Hs0 in *.
    + done.
    + done.
  - intros g Hin. apply (ev_children _ _ Hev) in Hin; [|done]. by apply Hkid.
Qed.

Lemma out_of_reach_guarded a s :
  out_of_reach a s <-> guarded Srv a (world s) /\ a ∉ handles s.
Proof.
  unfold out_of_reach, guarded. split.
  - intros (? & ? & ? & Hkid). split_and!; try done. intros g Hin. by apply Hkid in Hin.
  - intros ((? & ? & Hkid) & ?). split_and!; try done. intros g Hin. by apply Hkid in Hin.
Qed.

Lemma step_out_of_reach op s a s0 :
  Inv (world s) -> out_of_reach a s ->
  keeps (callbacks (world s)) Srv a ->
  heap (world s) !! a = Some s0 ->
  (forall value n h arg,
     destination s0 value = (h, arg) -> throws (callbacks (world s) n h arg) = false) ->
  out_of_reach a (step op s).2.
Proof.
  intros HI Hout Hkeeps Hs0 Hthrow.
  apply out_of_reach_guarded in Hout as [Hg Hh].
  apply out_of_reach_guarded. split.
  - apply (step_guarded op s Srv a s0); try done.
    destruct op as [| |k|bus id| | |]; try done.
    intros Hk. apply Hh. by eapply list_elem_of_lookup_2.
  - intros Hin. apply step_handles_new in Hin as [?|[-> _]]; [done| |done].
    destruct Hg as (Hlt & _). lia.
Qed.

Lemma bind_filter_fmap {A B} (P : A -> Prop) `{!forall x, Decision (P x)}
    (f : A -> B) (l : list A) :
  (l ≫= fun x => if decide (P x) then [f x] else []) = f <$> filter P l.
Proof.
  induction l as [|x l IH]; [done|].
  rewrite bind_cons, IH, filter_cons. by destruct (decide (P x)).
Qed.

(** A subscription out of reach, whose handler does not throw, stays open
    and receives every event of its tag. *)
Lemma out_of_reach_receives post s a st event handler :
  Inv (world s) -> out_of_reach a s ->
  keeps (callbacks (world s)) Srv a ->
  never_throws (callbacks (world s)) handler ->
  heap (world s) !! a = Some st ->
  predicate st = EventBusSrv.name_predicate event ->
  destination st = EventBusSrv.payload_observer handler ->
  out_of_reach a (exec post s) /\
  received a (world (exec post s)) =
    received a (world s) ++
    ((fun e => (handler, ArgPayload (get_payload e))) <$>
       filter (fun e => type e = name event) (emitted post)).
Proof.
  revert s st. induction post as [|op post IH]; intros s st HI Hout Hkeeps Hthrow Hst Hp Hd.
  { by rewrite app_nil_r. }
  destruct (evolves_lookup _ _ _ _ (step_evolves op s HI) Hst)
    as (st' & Hst' & Hp' & Hd' & _).
  assert (out_of_reach a (step op s).2) as Hout1.
  { apply (step_out_of_reach op s a st); try done.
    intros value n h arg. rewrite Hd. intros [= <- <-]. apply Hthrow. }
  destruct (IH (step op s).2 st' (step_Inv op s HI) Hout1) as (Hout' & Hrec);
    [by rewrite step_callbacks|by rewrite step_callbacks|done|congruence|congruence|].
  split; [done|].
  rewrite exec_cons, Hrec.
  rewrite (step_received_guarded op s Srv a);
    [|done|by apply out_of_reach_guarded in Hout as [? _]|done].
  rewrite emitted_cons, filter_app, fmap_app.
  rewrite <- app_assoc. do 2 f_equal.
  rewrite <- bind_filter_fmap.
  induction (emitted_by op) as [|e l IHl]; [done|].
  rewrite !bind_cons, IHl. f_equal.
  rewrite (dispatch_on _ _ _ st event handler) by done.
  destruct Hout as (_ & -> & _). done.
Qed.

Lemma handles_allocated ops s :
  Inv (world s) ->
  Forall (fun b => b < length (heap (world s))) (handles s) ->
  Forall (fun b => b < length (heap (world (exec ops s)))) (handles (exec ops s)).
Proof.
  revert s. induction ops as [|op ops IH]; intros s HI Hall; [done|].
  rewrite exec_cons. apply IH; [by apply step_Inv|].
  pose proof (evolves_length _ _ (step_evolves op s HI)) as Hlen.
  apply Forall_forall. intros b Hb.
  apply step_handles_new in Hb as [Hb|[_ Hb]]; [|done|done].
  rewrite Forall_forall in Hall. apply Hall in Hb. lia.
Qed.

Lemma handles_program b ops :
  Forall (fun a => a < length (heap (world (exec ops (program b)))))
         (handles (exec ops (program b))).
Proof. apply handles_allocated; [apply Inv_init_with | apply Forall_nil_2]. Qed.

(** The subscription that [on(descriptor, _)] makes is out of reach when
    [on] returns. *)
Lemma on_out_of_reach b pre event handler :
  let s0 := exec pre (program b) in
  out_of_reach (length (heap (world s0)))
    (step (call_on (ByDescriptor event) handler) s0).2.
Proof.
  intros s0. pose proof (Inv_program b pre) as HI0. fold s0 in HI0.
  split_and!; simpl.
  - rewrite length_app. simpl. lia.
  - unfold is_closed. simpl. by rewrite lookup_last.
  - intros Hin. pose proof (handles_program b pre) as Hall.
    rewrite Forall_forall in Hall. apply Hall in Hin. fold s0 in Hin. lia.
  - intros g Hin. apply (wf_children _ (proj1 HI0) g) in Hin. lia.
Qed.

(** A subscriber is closed by a call that emits an event which it lets
    through to a handler that throws. *)
Lemma step_throws op s e a st h arg :
  Inv (world s) ->
  emitted_by op = [e] ->
  heap (world s) !! a = Some st ->
  (forall e', (predicate st e e').1 = true) ->
  destination st e = (h, arg) ->
  (forall n, throws (callbacks (world s) n h arg) = true) ->
  is_closed a (world (step op s).2) = true.
Proof.
  intros HI He Hst Hpass Hd Hthrow.
  destruct op as [this e0|this tf h0|k|bus id|[n|d] p|[n|d] h0|[n|d] h0]; simpl in He;
    try done; injection He as <-; simpl.
  - rewrite dollar_emit_Subject_next.
    by apply (Subject_next_throws _ _ a st h arg).
  - by apply (Subject_next_throws _ _ a st h arg); [apply console_log_Inv|..].
  - by apply (Subject_next_throws _ _ a st h arg); [apply console_log_Inv|..].
Qed.

(** C10. The legacy [on] with a descriptor subscribes a handler and returns
    [undefined]: the client gets no handle, and the subscription is on the
    stream.  When the handler never throws, then whatever the client and
    the handlers call afterwards the subscription stays open, and its
    handler receives the payload of every event emitted under the name of
    the descriptor.  When the handler throws on such an event, the
    subscription is closed and off the stream from then on, and receives
    nothing more. *)
Theorem legacy_on_descriptor_stays_subscribed b pre event handler :
  let s0 := exec pre (program b) in
  let sub := length (heap (world s0)) in
  let s1 := (step (call_on (ByDescriptor event) handler) s0).2 in
  (step (call_on (ByDescriptor event) handler) s0).1 = Normal RetUndefined /\
  handles s1 = handles s0 /\
  observers_of (world s1) = observers_of (world s0) ++ [sub] /\
  (never_throws b handler -> keeps b Srv sub ->
   forall post,
     is_closed sub (world (exec post s1)) = false /\
     sub ∈ observers_of (world (exec post s1)) /\
     received sub (world (exec post s1)) =
       (fun e => (handler, ArgPayload (get_payload e))) <$>
         filter (fun e => type e = name event) (emitted post)) /\
  (forall mid op e post,
     emitted_by op = [e] -> type e = name event ->
     (forall n, throws (b n handler (ArgPayload (get_payload e))) = true) ->
     let s2 := (step op (exec mid s1)).2 in
     is_closed sub (world (exec post s2)) = true /\
     (sub ∉ observers_of (world (exec post s2))) /\
     received sub (world (exec post s2)) = received sub (world s2)).
Proof.
  intros s0 sub s1.
  pose proof (Inv_program b pre) as HI0. fold s0 in HI0.
  pose proof (step_Inv (call_on (ByDescriptor event) handler) s0 HI0) as HI1.
  fold s1 in HI1.
  set (st := {| closed := false; parentOrParents := [];
                predicate := EventBusSrv.name_predicate event;
                destination := EventBusSrv.payload_observer handler |}).
  assert (heap (world s1) = heap (world s0) ++ [st]) as Hh by done.
  assert (heap (world s1) !! sub = Some st) as Hst by (rewrite Hh; apply lookup_last).
  assert (callbacks (world s1) = b) as Hcb.
  { unfold s1, s0. by rewrite step_callbacks, callbacks_program. }
  split_and!; try done.
  - intros Hthrow Hkeeps post.
    pose proof (on_out_of_reach b pre event handler) as Hout. fold s0 sub s1 in Hout.
    assert (received sub (world s1) = []) as Hnil.
    { unfold received. rewrite filter_none; [done|]. apply Forall_forall.
      intros c Hc. apply (wf_calls _ (proj1 HI0)) in Hc. lia. }
    destruct (out_of_reach_receives post s1 sub st event handler HI1 Hout)
      as ((Hlt & Hopen & _) & Hrec); [by rewrite Hcb|by rewrite Hcb|done|done|done|].
    split_and!; try done.
    + rewrite (wf_observers _ (proj1 (exec_Inv post s1 HI1))).
      apply list_elem_of_filter. split; [done|]. apply elem_of_seq. lia.
    + by rewrite Hrec, Hnil.
  - intros mid op e post He Ht Hthrow s2.
    pose proof (exec_Inv mid s1 HI1) as HIm.
    pose proof (step_Inv op _ HIm) as HI2. fold s2 in HI2.
    destruct (evolves_lookup _ _ _ _ (exec_evolves mid s1 HI1) Hst)
      as (st' & Hst' & Hp' & Hd' & _).
    assert (is_closed sub (world s2) = true) as Hc2.
    { apply (step_throws op _ e sub st' handler (ArgPayload (get_payload e))); try done.
      - intros e'. rewrite Hp'. simpl. by apply String.eqb_eq.
      - by rewrite Hd'.
      - intros n. rewrite exec_callbacks, Hcb. apply Hthrow. }
    assert (is_closed sub (world (exec post s2)) = true) as Hc.
    { apply (is_closed_evolves (world s2)); [by apply exec_evolves | done]. }
    split_and!; [done| |by apply closed_forever].
    apply closed_not_observed; [|done]. by apply exec_Inv.
Qed.

(** * Open until released *)

Lemma step_held op s0 this sub s st :
  Inv (world s) ->
  held (length (handles s0)) this sub s ->
  keeps (callbacks (world s)) this sub ->
  heap (world s) !! sub = Some st ->
  (forall value n h arg,
     destination st value = (h, arg) -> throws (callbacks (world s) n h arg) = false) ->
  ~ releases s0 this op ->
  held (length (handles s0)) this sub (step op s).2.
Proof.
  intros HI (Hlt & Hopen & Hh & Hkid) Hkeeps Hst Hthrow Hrel.
  assert (guarded this sub (world (step op s).2)) as (Hlt' & Hopen' & Hkid').
  { apply (step_guarded op s this sub st); try done.
    destruct op as [| |k|bus id| | |]; try done; simpl in Hrel.
    - intros Hk. apply Hrel. by apply Hh.
    - by destruct (through (Group bus id) this). }
  split_and!; try done.
  intros j. destruct (step_handles_shape op s HI) as [->| ->]; [apply Hh|].
  intros [Hj|[_ Hj]]%lookup_app_Some; [by apply Hh|].
  apply list_lookup_singleton_Some in Hj as [_ Hj]. lia.
Qed.

Lemma exec_held ops s0 this sub s st :
  Inv (world s) ->
  held (length (handles s0)) this sub s ->
  keeps (callbacks (world s)) this sub ->
  heap (world s) !! sub = Some st ->
  (forall value n h arg,
     destination st value = (h, arg) -> throws (callbacks (world s) n h arg) = false) ->
  Forall (fun u => ~ releases s0 this u) ops ->
  held (length (handles s0)) this sub (exec ops s).
Proof.
  revert s st. induction ops as [|op ops IH]; intros s st HI Hheld Hkeeps Hst Hthrow Hall;
    [done|].
  apply Forall_cons in Hall as [Hop Hall]. rewrite exec_cons.
  destruct (evolves_lookup _ _ _ _ (step_evolves op s HI) Hst)
    as (st' & Hst' & _ & Hd' & _).
  apply (IH _ st'); [by apply step_Inv| |by rewrite step_callbacks|done| |done].
  - by apply (step_held op s0 this sub s st).
  - intros value n h arg. rewrite Hd', step_callbacks. apply Hthrow.
Qed.

Lemma subscribes_held b pre this typeFilter handler sub s1 :
  subscribes (exec pre (program b)) this typeFilter handler sub s1 ->
  is_closed sub (world s1) = false ->
  held (length (handles (exec pre (program b)))) this sub s1.
Proof.
  intros Hsub Hopen.
  destruct (subscribes_facts _ _ _ _ _ _ (Inv_program b pre) Hsub)
    as (-> & Hhs & st & _ & _ & Hh & _ & _ & _ & _ & Hkid & _).
  split_and!; [|done| |done].
  - rewrite Hh, length_app. simpl. lia.
  - intros j Hj. rewrite Hhs in Hj.
    apply lookup_app_Some in Hj as [Hj|[Hge Hj]].
    + pose proof (handles_program b pre) as Hall.
      rewrite Forall_forall in Hall. apply list_elem_of_lookup_2, Hall in Hj. lia.
    + apply list_lookup_singleton_Some in Hj as [Hj _]. lia.
Qed.

(** A subscription that the client holds, that nothing releases and whose
    handler does not throw, stays open and receives every event of its
    tag. *)
Lemma held_receives b mid pre this typeFilter handler sub s1 :
  subscribes (exec pre (program b)) this typeFilter handler sub s1 ->
  is_closed sub (world s1) = false ->
  never_throws b handler -> keeps b this sub ->
  Forall (fun u => ~ releases (exec pre (program b)) this u) mid ->
  held (length (handles (exec pre (program b)))) this sub (exec mid s1) /\
  received sub (world (exec mid s1)) =
    (fun e => (handler, ArgEvent e)) <$>
      filter (fun e => type e = static_type typeFilter) (emitted mid).
Proof.
  intros Hsub Hopen Hthrow Hkeeps.
  induction mid as [|op mid IH] using rev_ind; intros Hall.
  { destruct (subscribes_later _ _ _ _ _ _ _ [] Hsub) as (_ & _ & Hnil & _).
    split; [by apply (subscribes_held b pre this typeFilter handler) | done]. }
  apply Forall_app in Hall as [Hall Hop%Forall_inv].
  destruct (IH Hall) as [Hheld Hrec].
  destruct (subscribes_later _ _ _ _ _ _ _ mid Hsub)
    as (HI & _ & _ & st & Hst & Hp & Hd & _).
  pose proof (subscribes_callbacks _ _ _ _ _ _ _ mid Hsub) as Hcb.
  rewrite exec_app. change (exec [op] ?s) with (step op s).2. split.
  - apply (step_held op _ this sub _ st); try done; [by rewrite Hcb|].
    intros value n h arg. rewrite Hd, Hcb. intros [= <- <-]. apply Hthrow.
  - rewrite (step_received_guarded op _ this sub); [|done| |by rewrite Hcb]; cycle 1.
    { destruct Hheld as (? & ? & _ & ?). by split_and!. }
    rewrite Hrec. unfold emitted. rewrite bind_app, filter_app, fmap_app. f_equal.
    simpl. rewrite app_nil_r. rewrite <- bind_filter_fmap.
    induction (emitted_by op) as [|e l IHl]; [done|].
    rewrite !bind_cons, IHl. f_equal.
    rewrite (dispatch_dollar_on _ _ _ st typeFilter handler) by done.
    destruct Hheld as (_ & -> & _). done.
Qed.

(** X1. The [closed] flag of a subscription whose handler never throws and
    that no handler releases, read off the calls of the client: it is open
    exactly when it was open as [$on] returned it and no call since has
    released it. *)
Theorem open_until_released b pre this typeFilter handler sub s1 mid :
  never_throws b handler -> keeps b this sub ->
  subscribes (exec pre (program b)) this typeFilter handler sub s1 ->
  is_closed sub (world (exec mid s1)) = false <->
  is_closed sub (world s1) = false /\
  Forall (fun u => ~ releases (exec pre (program b)) this u) mid.
Proof.
  intros Hthrow Hkeeps Hsub.
  destruct (subscribes_later _ _ _ _ _ _ _ [] Hsub) as (HI1 & _).
  split.
  - intros Hopen. split.
    + destruct (is_closed sub (world s1)) eqn:Hc; [|done].
      apply (is_closed_evolves _ _ _ (exec_evolves mid s1 HI1)) in Hc. congruence.
    + apply Forall_forall. intros u Hu Hrel.
      apply list_elem_of_split in Hu as (m1 & m2 & ->).
      pose proof (releases_closes _ _ _ _ _ _ _ m1 _ Hsub Hrel) as Hc.
      rewrite exec_app, exec_cons in Hopen.
      apply (is_closed_evolves _ (world (exec m2 (step u (exec m1 s1)).2))) in Hc;
        [congruence|].
      apply exec_evolves, step_Inv, exec_Inv, HI1.
  - intros [Hopen Hall].
    by destruct (held_receives b mid pre this typeFilter handler sub s1 Hsub Hopen
                   Hthrow Hkeeps Hall) as [(_ & ? & _) _].
Qed.

(** A subscription made on the bus itself is open when [$on] returns. *)
Lemma dollar_on_Srv_open b pre typeFilter handler sub s1 :
  subscribes (exec pre (program b)) Srv typeFilter handler sub s1 ->
  is_closed sub (world s1) = false.
Proof.
  unfold subscribes. simpl. intros [= <- <-]. unfold is_closed. simpl.
  by rewrite lookup_last.
Qed.

(** * A group after [unsubscribe()] *)

Lemma group_closed_narrows w w' g :
  narrows (groupSub w) (groupSub w') -> group_closed g w' = group_closed g w.
Proof.
  intros Hn. specialize (Hn g). unfold group_closed.
  destruct (groupSub w' !! g), (groupSub w !! g); try done. by destruct Hn.
Qed.

Lemma is_Some_narrows w w' g :
  narrows (groupSub w) (groupSub w') ->
  is_Some (groupSub w !! g) -> is_Some (groupSub w' !! g).
Proof.
  intros Hn [c Hc]. specialize (Hn g). rewrite Hc in Hn.
  by destruct (groupSub w' !! g).
Qed.

Lemma group_unsubscribe_narrows g w g' :
  g' <> g ->
  group_closed g' (EventBusGroup.unsubscribe g w) = group_closed g' w /\
  (is_Some (groupSub w !! g') -> is_Some (groupSub (EventBusGroup.unsubscribe g w) !! g')).
Proof.
  intros Hne.
  destruct (group_unsubscribe_cases g w) as [[-> _] | (c & Hg & Hc & ->)]; [done|].
  pose proof (foldl_unsubscribe_narrows (subscriptions c) (torn_down g w)) as Hn.
  split.
  - rewrite (group_closed_narrows _ _ _ Hn). unfold group_closed. simpl.
    by rewrite lookup_insert_ne.
  - intros Hs. apply (is_Some_narrows _ _ _ Hn). simpl. by rewrite lookup_insert_ne.
Qed.

Lemma lasting_trans g w1 w2 w3 : lasting g w1 w2 -> lasting g w2 w3 -> lasting g w1 w3.
Proof. intros [? ?] [? ?]. split; auto. Qed.

Lemma narrows_lasting g w w' : narrows (groupSub w) (groupSub w') -> lasting g w w'.
Proof.
  intros Hn. split; [by apply is_Some_narrows | by rewrite (group_closed_narrows _ _ _ Hn)].
Qed.

Lemma group_unsubscribe_lasting g' w g : lasting g w (EventBusGroup.unsubscribe g' w).
Proof.
  unfold lasting. destruct (decide (g = g')) as [->|Hne].
  - pose proof (group_unsubscribe_groupSub g' w) as Hg.
    unfold group_closed.
    destruct (groupSub (EventBusGroup.unsubscribe g' w) !! g') as [c|].
    + split; [eauto | done].
    + rewrite Hg. split; [by intros [? ?] | done].
  - destruct (group_unsubscribe_narrows g' w g Hne) as [-> ?]. done.
Qed.

Lemma run_lasting g w act : lasting g w (Rx.run w act).
Proof.
  destruct act as [a|g'].
  - rewrite run_unsubscribe. apply narrows_lasting, unsubscribe_narrows.
  - rewrite run_group_unsubscribe. apply group_unsubscribe_lasting.
Qed.

Lemma Subject_next_lasting g value w : Inv w -> lasting g w (Rx.Subject_next value w).
Proof.
  intros HI.
  apply (Subject_next_ind (fun w' => Inv w' /\ lasting g w w') value);
    [by intros w' [? _]| | | |by split].
  - intros w' e [HI' Hl] _ _ Hlt. split; [by apply set_env_Inv | done].
  - intros w' a s n h arg act [HI' Hl] _ _ _.
    split; [by apply run_Inv | apply (lasting_trans _ _ _ _ Hl), run_lasting].
  - intros w' a s n h arg [HI' Hl] _ _ _.
    split; [by apply unsubscribe_Inv|].
    apply (lasting_trans _ _ _ _ Hl), narrows_lasting, unsubscribe_narrows.
Qed.

Lemma step_groupSub op s g :
  Inv (world s) ->
  (is_Some (groupSub (world s) !! g) -> is_Some (groupSub (world (step op s).2) !! g)) /\
  (group_closed g (world s) = true -> group_closed g (world (step op s).2) = true).
Proof.
  intros HI.
  destruct op as [this e|this tf h|k|bus id|[n|d] p|[n|d] h|[n|d] h]; simpl; try done.
  - rewrite dollar_emit_Subject_next. by apply Subject_next_lasting.
  - destruct (dollar_on_registered this tf h _ HI) as (s1 & w' & -> & _ & _ & Hreg).
    simpl. destruct Hreg as (_ & _ & _ & _ & _ & _ & _ & _ & Hgc & Hsome).
    split; [intros; apply Hsome; by left | by rewrite Hgc].
  - destruct (handles s !! k) as [b|]; simpl; [|done].
    apply narrows_lasting, unsubscribe_narrows.
  - apply group_unsubscribe_lasting.
  - apply (Subject_next_lasting g {| type := n; payload := Some p |}
             (set_env (console_log EventBusSrv.emit_notice (env (world s))) (world s))).
    by apply console_log_Inv.
  - apply (Subject_next_lasting g {| type := name d; payload := Some p |}
             (set_env (console_log EventBusSrv.emit_notice (env (world s))) (world s))).
    by apply console_log_Inv.
Qed.

Lemma exec_groupSub ops s g :
  Inv (world s) ->
  (is_Some (groupSub (world s) !! g) -> is_Some (groupSub (world (exec ops s)) !! g)) /\
  (group_closed g (world s) = true -> group_closed g (world (exec ops s)) = true).
Proof.
  revert s. induction ops as [|op ops IH]; intros s HI; [done|].
  rewrite exec_cons.
  destruct (step_groupSub op s g HI) as [H1 H2].
  destruct (IH (step op s).2 (step_Inv op s HI)) as [H3 H4]. auto.
Qed.

(** Once something was subscribed through a group and the group was
    unsubscribed, its composite is closed in every later state. *)
Lemma group_closed_for_good b ops1 this0 typeFilter0 handler0 ops2 bus id ops3 :
  through (Group bus id) this0 = true ->
  group_closed (Group bus id)
    (world (exec (ops1 ++ call_dollar_on this0 typeFilter0 handler0 ::
                  ops2 ++ call_group_unsubscribe bus id :: ops3) (program b))) = true.
Proof.
  intros Hthrough. rewrite exec_app, exec_cons, exec_app, exec_cons.
  set (sa := exec ops1 (program b)).
  assert (Inv (world sa)) as HIa by apply Inv_program.
  set (sb := (step (call_dollar_on this0 typeFilter0 handler0) sa).2).
  assert (Inv (world sb)) as HIb by (by apply step_Inv).
  assert (is_Some (groupSub (world sb) !! Group bus id)) as Hsome.
  { subst sb. simpl.
    destruct (dollar_on_registered this0 typeFilter0 handler0 _ HIa)
      as (s1 & w' & -> & _ & _ & Hreg).
    simpl. destruct Hreg as (_ & _ & _ & _ & _ & _ & _ & _ & _ & Hsome).
    apply Hsome. by right. }
  set (sc := exec ops2 sb).
  assert (Inv (world sc)) as HIc by (by apply exec_Inv).
  apply (proj1 (exec_groupSub ops2 sb _ HIb)) in Hsome. fold sc in Hsome.
  apply exec_groupSub; [by apply step_Inv|]. simpl.
  pose proof (group_unsubscribe_groupSub (Group bus id) (world sc)) as Hg.
  unfold group_closed.
  destruct (groupSub (EventBusGroup.unsubscribe (Group bus id) (world sc)) !! Group bus id);
    [done|].
  rewrite Hg in Hsome. by destruct Hsome.
Qed.

(** X2. A subscription made through such a group is closed as [$on] returns
    it, and its handler is never called. *)
Theorem dollar_on_through_unsubscribed_group
    b ops1 this0 typeFilter0 handler0 ops2 bus id ops3
    this typeFilter handler sub s1 post :
  through (Group bus id) this0 = true ->
  through (Group bus id) this = true ->
  subscribes
    (exec (ops1 ++ call_dollar_on this0 typeFilter0 handler0 ::
           ops2 ++ call_group_unsubscribe bus id :: ops3) (program b))
    this typeFilter handler sub s1 ->
  is_closed sub (world s1) = true /\
  received sub (world (exec post s1)) = [].
Proof.
  intros Hthrough0 Hthrough Hsub.
  pose proof (group_closed_for_good b ops1 this0 typeFilter0 handler0 ops2 bus id ops3
                Hthrough0) as Hgc.
  destruct (subscribes_later _ _ _ _ _ _ _ [] Hsub) as (HI1 & _ & Hnil & _).
  destruct (subscribes_facts _ _ _ _ _ _ (Inv_program _ _) Hsub)
    as (-> & _ & st & _ & _ & Hh & _ & _ & _ & _ & _ & _ & Hcl & _).
  assert (is_closed
            (length (heap (world (exec (ops1 ++ call_dollar_on this0 typeFilter0 handler0 ::
                                        ops2 ++ call_group_unsubscribe bus id :: ops3) (program b)))))
            (world s1) = true) as Hclosed.
  { unfold is_closed. rewrite Hh, lookup_last. apply Hcl. eauto. }
  split; [done|]. rewrite closed_forever by done. exact Hnil.
Qed.

(** * One emission, call by call *)

Lemma step_length op s :
  Inv (world s) ->
  length (heap (world (step op s).2)) =
    length (heap (world s)) + length (registrations [op]).
Proof.
  intros HI.
  destruct op as [this e|this tf h|k|bus id|[n|d] p|[n|d] h|[n|d] h]; simpl.
  - rewrite dollar_emit_Subject_next, Subject_next_length by done. lia.
  - destruct (dollar_on_registered this tf h _ HI) as (s1 & w' & -> & _ & _ & Hh & _).
    simpl. by rewrite Hh, length_app.
  - destruct (handles s !! k); simpl; [rewrite unsubscribe_length|]; lia.
  - rewrite group_unsubscribe_length. lia.
  - rewrite Subject_next_length by (by apply console_log_Inv). simpl. lia.
  - rewrite Subject_next_length by (by apply console_log_Inv). simpl. lia.
  - lia.
  - by rewrite length_app.
  - lia.
  - lia.
Qed.

Lemma exec_snoc ops op s : exec (ops ++ [op]) s = (step op (exec ops s)).2.
Proof. by rewrite exec_app. Qed.

Lemma registrations_snoc ops op :
  registrations (ops ++ [op]) = registrations ops ++ registrations [op].
Proof. unfold registrations. by rewrite bind_app. Qed.

Lemma registrations_singleton op a op' :
  registrations [op] !! a = Some op' ->
  a = 0 /\ op' = op /\ is_Some (registers op).
Proof.
  unfold registrations. simpl. destruct (registers op) as [h|]; simpl; [|done].
  intros [-> ->]%list_lookup_singleton_Some. eauto.
Qed.

(** The subscriptions of a session are numbered by the calls that made
    them, and run the closures of those calls. *)
Lemma registry b ops :
  length (heap (world (exec ops (program b)))) = length (registrations ops) /\
  forall a op, registrations ops !! a = Some op ->
    exists st, heap (world (exec ops (program b))) !! a = Some st /\ runs op st.
Proof.
  induction ops as [|op ops [IHlen IH]] using rev_ind; [done|].
  rewrite exec_snoc, registrations_snoc.
  pose proof (Inv_program b ops) as HI.
  pose proof (step_length op _ HI) as Hlen.
  split; [rewrite length_app; lia|].
  intros a op' [Ha|[Hge Ha]]%lookup_app_Some.
  - destruct (IH a op' Ha) as (st & Hst & Hruns).
    destruct (evolves_lookup _ _ _ _ (step_evolves op _ HI) Hst)
      as (st' & Hst' & Hp & Hd & _).
    exists st'. split; [done|].
    destruct op' as [| |k|bus id|e p|[n|d] h|e h]; simpl in *; try done.
    + rewrite Hp, Hd. done.
    + rewrite Hp, Hd. done.
  - apply registrations_singleton in Ha as (Ha & -> & Hreg).
    assert (a = length (heap (world (exec ops (program b))))) as -> by lia.
    assert (length (registrations [op]) = 1) as Hone.
    { unfold registrations. simpl. by destruct Hreg as [h ->]. }
    destruct (lookup_lt_is_Some_2 (heap (world (step op (exec ops (program b))).2))
                (length (heap (world (exec ops (program b)))))) as [st Hst]; [lia|].
    exists st. split; [done|].
    destruct (step_heap_lookup op _ _ st HI Hst)
      as [(s0 & Hs0 & _)|(_ & h & _ & [(tf & Hp & Hd & this & ->)|(d & Hp & Hd & _ & ->)])].
    + apply lookup_lt_Some in Hs0. lia.
    + done.
    + done.
Qed.

Lemma dispatch_answer w event a op st :
  heap w !! a = Some st -> runs op st ->
  dispatch w event a = answer w event a op.
Proof.
  intros Hst Hruns. unfold dispatch, answer, is_closed. rewrite Hst.
  destruct (closed st) eqn:Hc; [by apply fires_closed|].
  destruct op as [| this tf h|k|bus id|e p|[n|d] h|e h]; simpl in Hruns; try done;
    destruct Hruns as [Hp Hd].
  - rewrite (fires_dollar_on _ _ _ tf h) by done.
    destruct (String.eqb_spec (type event) (static_type tf)); by case_decide.
  - rewrite (fires_on _ _ _ d h) by done.
    destruct (String.eqb_spec (type event) (name d)); by case_decide.
Qed.

Lemma seq_bind_imap {A B} (f : nat -> list B) (g : nat -> A -> list B) (l : list A) :
  (forall a x, l !! a = Some x -> f a = g a x) ->
  seq 0 (length l) ≫= f = mjoin (imap g l).
Proof.
  revert f g. induction l as [|x l IH]; intros f g Hfg; [done|].
  simpl. rewrite <- fmap_S_seq, list_fmap_bind.
  rewrite (Hfg 0 x) by done. f_equal.
  apply IH. intros a y Hy. by apply (Hfg (S a)).
Qed.

Lemma answer_sub w event a op : call_sub <$> answer w event a op `sublist_of` [a].
Proof.
  unfold answer. destruct (is_closed a w); [apply sublist_nil_l|].
  destruct op as [| this tf h|k|bus id|e p|[n|d] h|e h]; try apply sublist_nil_l;
    case_decide; simpl; try apply sublist_nil_l; done.
Qed.

Lemma imap_sub (g : nat -> Op -> list Call) (l : list Op) j :
  (forall a op, call_sub <$> g a op `sublist_of` [j + a]) ->
  call_sub <$> mjoin (imap g l) `sublist_of` seq j (length l).
Proof.
  revert g j. induction l as [|x l IH]; intros g j Hg; [done|].
  simpl. rewrite fmap_app. apply (sublist_app _ [j]).
  - specialize (Hg 0 x). by rewrite Nat.add_0_r in Hg.
  - apply IH. intros a op. simpl. specialize (Hg (S a) op).
    by rewrite Nat.add_succ_r in Hg.
Qed.

Lemma delivered_calls bus event w :
  Inv w -> calls (env (dollar_emit bus event w)) = calls (env w) ++ delivered bus event w.
Proof.
  intros HI. unfold delivered. rewrite dollar_emit_Subject_next.
  destruct (ev_calls _ _ (Subject_next_evolves event w HI)) as [cs ->].
  by rewrite drop_app_length.
Qed.

(** The legacy [emit] calls the handlers that [$emit] of its record calls,
    whatever they do. *)
Lemma emit_delivered bus event payload w :
  Inv w ->
  calls (env (EventBusSrv.emit event payload w).2) =
    calls (env w) ++ delivered bus {| type := legacy_tag event; payload := Some payload |} w.
Proof.
  intros HI. rewrite emit_world. simpl.
  rewrite Subject_next_set_env by done.
  rewrite <- (dollar_emit_Subject_next bus). by apply delivered_calls.
Qed.

Lemma delivered_dispatch bus event w :
  Inv w -> calm w event ->
  delivered bus event w = seq 0 (length (heap w)) ≫= dispatch w event.
Proof.
  intros HI Hcalm. unfold delivered.
  rewrite dollar_emit_Subject_next, Subject_next_calls by done.
  by rewrite drop_app_length.
Qed.

(** The handlers called in one emission are called in the order of the
    addresses of their subscriptions, and none twice, whatever they do. *)
Lemma Subscriber_next_calls_sub value w a :
  Inv w ->
  exists cs, calls (env (Rx.Subscriber_next value w a)) = calls (env w) ++ cs /\
             call_sub <$> cs `sublist_of` [a].
Proof.
  intros HI. rewrite Subscriber_next_dispatch by apply HI.
  exists (dispatch w value a). split; [done|].
  unfold dispatch. destruct (heap w !! a) as [s|]; [|apply sublist_nil_l].
  unfold fires. destruct (closed s); [apply sublist_nil_l|].
  destruct (predicate s value _) as [[] e]; [|apply sublist_nil_l].
  by destruct (destination s value).
Qed.

Lemma foldl_Subscriber_next_calls_sub value l w :
  Inv w ->
  exists cs, calls (env (foldl (Rx.Subscriber_next value) w l)) = calls (env w) ++ cs /\
             call_sub <$> cs `sublist_of` l.
Proof.
  revert w. induction l as [|a l IH]; intros w HI; simpl.
  { exists []. by rewrite app_nil_r. }
  destruct (Subscriber_next_calls_sub value w a HI) as (c1 & Hc1 & Hs1).
  destruct (IH _ (Subscriber_next_Inv value w a HI)) as (c2 & Hc2 & Hs2).
  exists (c1 ++ c2). split.
  - by rewrite Hc2, Hc1, app_assoc.
  - rewrite fmap_app. by apply (sublist_app _ [a]).
Qed.

Lemma delivered_sub bus event w :
  Inv w -> call_sub <$> delivered bus event w `sublist_of` seq 0 (length (heap w)).
Proof.
  intros HI. unfold delivered. rewrite dollar_emit_Subject_next. unfold Rx.Subject_next.
  destruct (foldl_Subscriber_next_calls_sub event (observers_of w) w HI) as (cs & -> & Hs).
  rewrite drop_app_length. etrans; [done|].
  rewrite (wf_observers _ (proj1 HI)). apply sublist_filter.
Qed.

(** X3. What one emission does, read off the calls of the session: the
    subscribing calls ([$on], and [on] with a descriptor) number the
    subscriptions in the order they were made; [$emit] through any bus goes
    through them in that order and calls no handler twice, and the legacy
    [emit] of the same record makes the same calls.  When no handler
    unsubscribes anything on receiving the event, each subscription that is
    still open and whose tag is the event's makes one call of its handler,
    with the event ([$on]) or its payload ([on]). *)
Theorem emission_by_registrations b ops bus event :
  let w := world (exec ops (program b)) in
  calls (env (dollar_emit bus event w)) = calls (env w) ++ delivered bus event w /\
  call_sub <$> delivered bus event w `sublist_of` seq 0 (length (registrations ops)) /\
  (calm w event ->
   delivered bus event w = mjoin (imap (answer w event) (registrations ops))) /\
  forall legacy p,
    calls (env (EventBusSrv.emit legacy p w).2) =
      calls (env w) ++ delivered bus {| type := legacy_tag legacy; payload := Some p |} w.
Proof.
  intros w. pose proof (Inv_program b ops) as HI. fold w in HI.
  destruct (registry b ops) as [Hlen Hreg]. fold w in Hlen, Hreg.
  split_and!.
  - by apply delivered_calls.
  - rewrite <- Hlen. by apply delivered_sub.
  - intros Hcalm. rewrite delivered_dispatch, Hlen by done.
    apply seq_bind_imap. intros a op Ha.
    destruct (Hreg a op Ha) as (st & Hst & Hruns). by apply dispatch_answer with st.
  - intros legacy p. by apply emit_delivered.
Qed.

(** * Unsubscribing and the next emission *)

Lemma filter_bind_sub (P : addr -> Prop) `{!forall a, Decision (P a)}
    (f : addr -> list Call) (l : list addr) :
  (forall a c, c ∈ f a -> call_sub c = a) ->
  filter (fun c => P (call_sub c)) (l ≫= f) =
    l ≫= fun a => if decide (P a) then f a else [].
Proof.
  intros Htag. induction l as [|a l IH]; [done|].
  rewrite !bind_cons, filter_app, IH. f_equal.
  case_decide as HP.
  - apply filter_all, Forall_forall. intros c Hc. by rewrite (Htag a c Hc).
  - apply filter_none, Forall_forall. intros c Hc. by rewrite (Htag a c Hc).
Qed.

(** What an emission delivers once some subscriptions have been closed and
    nothing else has changed. *)
Lemma delivered_after (P : addr -> Prop) `{!forall a, Decision (P a)} w w' bus event :
  Inv w -> Inv w' -> calm w event -> callbacks w' = callbacks w ->
  evolves w w' -> length (heap w') = length (heap w) ->
  (forall a, a < length (heap w) ->
     is_closed a w' = if decide (P a) then is_closed a w else true) ->
  delivered bus event w' = filter (fun c => P (call_sub c)) (delivered bus event w).
Proof.
  intros HI HI' Hcalm Hcb Hev Hlen Hcl.
  pose proof (proj1 HI) as HW.
  rewrite (delivered_dispatch bus event w' HI') by (by apply (calm_callbacks w)).
  rewrite (delivered_dispatch bus event w HI Hcalm).
  rewrite filter_bind_sub by (intros a c Hc; by apply (dispatch_tag w event a c HW)).
  rewrite Hlen. apply list_bind_ext; [|done]. intros a.
  destruct (decide (a < length (heap w))) as [Hlt|Hge].
  - specialize (Hcl a Hlt).
    destruct (lookup_lt_is_Some_2 _ _ Hlt) as [s Hs].
    destruct (evolves_lookup _ _ _ _ Hev Hs) as (s' & Hs' & Hp & Hd & _).
    unfold is_closed in Hcl. rewrite Hs, Hs' in Hcl.
    unfold dispatch. rewrite Hs, Hs'. case_decide.
    + unfold fires. by rewrite Hcl, Hp, Hd.
    + by apply fires_closed.
  - unfold dispatch. rewrite !lookup_ge_None_2 by lia. by case_decide.
Qed.

(** X4. [unsubscribe()] on a handle that [$on] returned closes that
    subscription and no other, calls no handler and logs nothing; when no
    handler unsubscribes anything on receiving the event, the next emission
    makes the calls it would have made, in the same order, less the one of
    that subscription. *)
Theorem unsubscribe_removes_one b ops k sub bus event :
  let s := exec ops (program b) in
  let s' := (step (call_unsubscribe k) s).2 in
  handles s !! k = Some sub ->
  env (world s') = env (world s) /\
  is_closed sub (world s') = true /\
  (forall a, a <> sub -> is_closed a (world s') = is_closed a (world s)) /\
  (calm (world s) event ->
   delivered bus event (world s') =
     filter (fun c => call_sub c <> sub) (delivered bus event (world s))).
Proof.
  intros s s' Hk. pose proof (Inv_program b ops) as HI. fold s in HI.
  assert (world s' = Rx.unsubscribe (world s) sub) as ->.
  { subst s'. simpl. by rewrite Hk. }
  assert (sub < length (heap (world s))) as Hlt.
  { pose proof (handles_program b ops) as Hall.
    rewrite Forall_forall in Hall. apply Hall. by eapply list_elem_of_lookup_2. }
  destruct (lookup_lt_is_Some_2 _ _ Hlt) as [st Hst].
  split_and!.
  - apply unsubscribe_env.
  - rewrite is_closed_unsubscribe, decide_True by done. by rewrite Hst.
  - intros a Ha. by rewrite is_closed_unsubscribe, decide_False.
  - intros Hcalm.
    pose proof (delivered_after (fun a => a <> sub) (world s)
                  (Rx.unsubscribe (world s) sub) bus event) as Hd.
    apply Hd.
    + apply HI.
    + by apply unsubscribe_Inv.
    + done.
    + apply unsubscribe_callbacks.
    + apply unsubscribe_evolves.
    + apply unsubscribe_length.
    + intros a _. rewrite is_closed_unsubscribe.
      destruct (decide (a = sub)) as [->|Hne].
      * rewrite Hst. by rewrite decide_False by auto.
      * by rewrite decide_True.
Qed.

Lemma released_by_allocated g w a : Wf w -> a ∈ released_by g w -> a < length (heap w).
Proof.
  intros HW. unfold released_by. destruct (group_closed g w).
  - by intros ?%elem_of_nil.
  - apply (wf_children _ HW).
Qed.

Lemma is_closed_group_unsubscribe g w b :
  Wf w ->
  is_closed b (EventBusGroup.unsubscribe g w) =
    if decide (b ∈ released_by g w) then true else is_closed b w.
Proof.
  intros HW. destruct (decide (b < length (heap w))) as [Hlt|Hge].
  - rewrite group_unsubscribe_is_closed by done.
    unfold released_by, group_closed, children_of.
    destruct (groupSub w !! g) as [c|].
    + destruct (Subscription_closed c); [|done].
      rewrite decide_False; [done|]. by intros ?%elem_of_nil.
    + rewrite decide_False; [done|]. by intros ?%elem_of_nil.
  - rewrite decide_False.
    + unfold is_closed. rewrite !lookup_ge_None_2; [done|lia|].
      rewrite group_unsubscribe_length. lia.
    + intros Hin. apply released_by_allocated in Hin; [lia|done].
Qed.

(** X5. [unsubscribe()] on a group closes the children of its composite and
    no other subscription, calls no handler and logs nothing; afterwards the
    group has nothing left to release, and, when no handler unsubscribes
    anything on receiving the event, the next emission makes the calls it
    would have made, in the same order, less those of the children. *)
Theorem group_unsubscribe_removes_its_children b ops g bus event :
  let w := world (exec ops (program b)) in
  let w' := EventBusGroup.unsubscribe g w in
  env w' = env w /\
  (forall a, is_closed a w' = if decide (a ∈ released_by g w) then true else is_closed a w) /\
  released_by g w' = [] /\
  (calm w event ->
   delivered bus event w' =
     filter (fun c => call_sub c ∉ released_by g w) (delivered bus event w)).
Proof.
  intros w w'. pose proof (Inv_program b ops) as HI. fold w in HI.
  split_and!.
  - apply group_unsubscribe_env.
  - intros a. by apply is_closed_group_unsubscribe, HI.
  - pose proof (group_unsubscribe_groupSub g w) as Hg. fold w' in Hg.
    unfold released_by, group_closed, children_of.
    destruct (groupSub w' !! g) as [c|]; [by rewrite Hg | done].
  - intros Hcalm.
    pose proof (delivered_after (fun a => a ∉ released_by g w) w w' bus event) as Hd.
    apply Hd.
    + apply HI.
    + by apply group_unsubscribe_Inv.
    + done.
    + apply group_unsubscribe_callbacks.
    + apply group_unsubscribe_evolves.
    + apply group_unsubscribe_length.
    + intros a _. unfold w'. rewrite is_closed_group_unsubscribe by apply HI.
      destruct (decide (a ∈ released_by g w)).
      * by rewrite decide_False by auto.
      * by rewrite decide_True.
Qed.

(** * The console *)

Lemma logs_dollar_on s a value typeFilter :
  predicate s = EventBusSrv.typeFilter_predicate typeFilter ->
  logs s a value = [].
Proof.
  intros Hp. unfold logs. rewrite Hp. by destruct (closed s).
Qed.

Lemma logs_on s a value event :
  closed s = false ->
  predicate s = EventBusSrv.name_predicate event ->
  logs s a value = [got_event event].
Proof.
  intros Hc Hp. unfold logs. by rewrite Hc, Hp.
Qed.

Lemma Subscriber_next_console value w a :
  Wf w -> silent (callbacks w) ->
  console (env (Rx.Subscriber_next value w a)) = console (env w) ++ chatter w value a.
Proof.
  intros HW Hsilent. unfold Rx.Subscriber_next, chatter, logs.
  destruct (heap w !! a) as [s|] eqn:Ha; [|by rewrite app_nil_r].
  destruct (closed s); [by rewrite app_nil_r|].
  destruct (wf_closures _ HW _ _ Ha) as [tf h -> ->| d h -> ->]; simpl;
    destruct (String.eqb _ _); simpl; rewrite ?invoke_env; simpl;
    by rewrite ?Hsilent, ?app_nil_r.
Qed.

(** A subscription made by [on(descriptor, _)] logs as long as it is open;
    one made by [$on] never logs. *)
Lemma chatter_evolves w w' value a :
  Wf w -> evolves w w' -> length (heap w') = length (heap w) ->
  (forall s event, heap w !! a = Some s -> predicate s = EventBusSrv.name_predicate event ->
     is_closed a w = false /\ is_closed a w' = false) ->
  chatter w' value a = chatter w value a.
Proof.
  intros HW Hev Hlen Hopen. unfold chatter.
  destruct (heap w !! a) as [s|] eqn:Hs.
  - destruct (evolves_lookup _ _ _ _ Hev Hs) as (s' & Hs' & Hp & _).
    rewrite Hs'.
    destruct (wf_closures _ HW _ _ Hs) as [tf h Hp0 _| d h Hp0 _].
    + rewrite (logs_dollar_on s a value tf) by done.
      apply (logs_dollar_on s' a value tf). congruence.
    + destruct (Hopen s d eq_refl Hp0) as [Hc Hc']. unfold is_closed in Hc, Hc'.
      rewrite Hs in Hc. rewrite Hs' in Hc'.
      rewrite (logs_on s a value d) by done.
      apply logs_on; [done|congruence].
  - rewrite lookup_ge_None_2; [done|]. apply lookup_ge_None_1 in Hs. lia.
Qed.

(** While the descriptor subscriptions are kept, each subscriber writes
    during an emission what the state before the emission tells. *)
Lemma foldl_Subscriber_next_chatter value l w :
  Inv w -> silent (callbacks w) -> legacy_kept w ->
  console (env (foldl (Rx.Subscriber_next value) w l)) =
    console (env w) ++ (l ≫= chatter w value).
Proof.
  intros HI Hsilent Hleg. induction l as [|a l IH] using rev_ind.
  - by rewrite app_nil_r.
  - rewrite foldl_app, bind_app. simpl.
    rewrite Subscriber_next_console; cycle 1.
    { apply foldl_Subscriber_next_Inv, HI. }
    { by rewrite foldl_Subscriber_next_callbacks. }
    rewrite IH, <- app_assoc. do 2 f_equal. rewrite app_nil_r.
    apply chatter_evolves.
    + apply HI.
    + by apply foldl_Subscriber_next_evolves.
    + by apply foldl_Subscriber_next_length.
    + intros s event Hs Hp.
      destruct (wf_closures _ (proj1 HI) _ _ Hs) as [tf h Hp0 _| d h Hp0 Hd].
      { rewrite Hp0 in Hp. unfold EventBusSrv.typeFilter_predicate,
          EventBusSrv.name_predicate in Hp.
        apply (f_equal (fun f => console (f value {| console := []; calls := [] |}).2))
          in Hp.
        done. }
      destruct (Hleg a s d h Hs Hp0 Hd) as (Hg & Hkeeps & Hthrow).
      split; [apply Hg|].
      apply (foldl_Subscriber_next_guarded Srv a value l w s); try done.
      intros _ n h' arg. rewrite Hd. intros [= <- <-]. apply Hthrow.
Qed.

(** The lines of one [next] on the stream: each open subscriber, in the
    order of the addresses, writes what its filter logs. *)
Lemma Subject_next_console value w :
  Inv w -> silent (callbacks w) -> legacy_kept w ->
  console (env (Rx.Subject_next value w)) =
    console (env w) ++ (seq 0 (length (heap w)) ≫= chatter w value).
Proof.
  intros HI Hsilent Hleg. unfold Rx.Subject_next.
  rewrite foldl_Subscriber_next_chatter by done.
  f_equal. rewrite (wf_observers _ (proj1 HI)). apply bind_filter_nil.
  intros a Ha. unfold chatter, is_closed, logs in *.
  destruct (heap w !! a) as [s|]; [|done].
  by destruct (closed s).
Qed.

(** A subscription made by [on(descriptor, _)] is out of the client's reach
    from the start, and stays so while its handler does not throw and no
    handler unsubscribes it. *)
Lemma legacy_out_of_reach b ops a event handler :
  never_throws b handler -> keeps b Srv a ->
  registrations ops !! a = Some (call_on (ByDescriptor event) handler) ->
  out_of_reach a (exec ops (program b)).
Proof.
  intros Hthrow Hkeeps.
  induction ops as [|op ops IH] using rev_ind; [done|].
  rewrite exec_snoc, registrations_snoc.
  pose proof (Inv_program b ops) as HI.
  destruct (registry b ops) as [Hlen Hreg].
  intros [Ha|[Hge Ha]]%lookup_app_Some.
  - destruct (Hreg a _ Ha) as (st & Hst & _ & Hd).
    apply (step_out_of_reach op _ a st); try done.
    + by apply IH.
    + by rewrite callbacks_program.
    + intros value n h arg. rewrite Hd, callbacks_program. intros [= <- <-]. apply Hthrow.
  - apply registrations_singleton in Ha as (Ha & <- & _).
    assert (a = length (heap (world (exec ops (program b))))) as -> by lia.
    apply on_out_of_reach.
Qed.

Lemma seq_bind_lookup {A B} (f : nat -> list B) (g : A -> list B) (l : list A) :
  (forall a x, l !! a = Some x -> f a = g x) ->
  seq 0 (length l) ≫= f = l ≫= g.
Proof.
  revert f. induction l as [|x l IH]; intros f Hfg; [done|].
  simpl. rewrite <- fmap_S_seq, list_fmap_bind.
  rewrite (Hfg 0 x) by done. f_equal.
  apply IH. intros a y Hy. by apply (Hfg (S a)).
Qed.

Lemma registrations_described ops :
  (registrations ops ≫= fun op => got_event <$> described op) =
    got_event <$> (ops ≫= described).
Proof.
  induction ops as [|op ops IH]; [done|].
  unfold registrations in *. rewrite !bind_cons, bind_app, fmap_app, IH. f_equal.
  by destruct op as [| | | | |[n|d] h|].
Qed.

Lemma name_predicate_inj event event' :
  EventBusSrv.name_predicate event = EventBusSrv.name_predicate event' -> event = event'.
Proof.
  intros Hp.
  apply (f_equal (fun f => console (f {| type := EmptyString; payload := None |}
                                      {| console := []; calls := [] |}).2)) in Hp.
  simpl in Hp. congruence.
Qed.

Lemma registered_legacy_kept b ops :
  (forall a event handler,
     registrations ops !! a = Some (call_on (ByDescriptor event) handler) ->
     never_throws b handler /\ keeps b Srv a) ->
  legacy_kept (world (exec ops (program b))).
Proof.
  intros Hsafe a s d h Hs Hp Hd.
  destruct (registry b ops) as [Hlen Hreg].
  destruct (lookup_lt_is_Some_2 (registrations ops) a) as [op Hop].
  { rewrite <- Hlen. by eapply lookup_lt_Some. }
  destruct (Hreg a op Hop) as (st & Hst & Hruns).
  assert (st = s) as -> by congruence.
  assert (op = call_on (ByDescriptor d) h) as ->.
  { destruct op as [| this tf h'|k|bus id|e p|[n|d'] h'|e h']; simpl in Hruns; try done;
      destruct Hruns as [Hp' Hd'].
    - rewrite Hd in Hd'.
      apply (f_equal (fun f => (f {| type := EmptyString; payload := None |}).2)) in Hd'.
      done.
    - rewrite Hp in Hp'. apply name_predicate_inj in Hp' as ->.
      rewrite Hd in Hd'.
      apply (f_equal (fun f => (f {| type := EmptyString; payload := None |}).1)) in Hd'.
      simpl in Hd'. by subst. }
  destruct (Hsafe a d h Hop) as [Hthrow Hkeeps].
  rewrite callbacks_program. split_and!; [|done|done].
  by apply out_of_reach_guarded, (legacy_out_of_reach b ops a d h).
Qed.

(** What the open subscribers write for one value: one line for each
    descriptor that [on] has subscribed with, in the order of the calls. *)
Lemma chatter_registrations b ops value :
  legacy_kept (world (exec ops (program b))) ->
  seq 0 (length (heap (world (exec ops (program b))))) ≫=
      chatter (world (exec ops (program b))) value =
    got_event <$> (ops ≫= described).
Proof.
  intros Hleg.
  destruct (registry b ops) as [Hlen Hreg].
  rewrite Hlen, <- registrations_described.
  apply seq_bind_lookup. intros a op Ha.
  destruct (Hreg a op Ha) as (st & Hst & Hruns).
  unfold chatter. rewrite Hst.
  destruct op as [| this tf h|k|bus id|e p|[n|d] h|e h]; simpl in Hruns; try done;
    destruct Hruns as [Hp Hd].
  - by apply logs_dollar_on with tf.
  - apply logs_on; [|done].
    destruct (Hleg a st d h Hst Hp Hd) as ((_ & Hopen & _) & _).
    unfold is_closed in Hopen. by rewrite Hst in Hopen.
Qed.

Lemma chatter_heap w w' value a :
  heap w' = heap w -> chatter w' value a = chatter w value a.
Proof. unfold chatter. by intros ->. Qed.

(** X6. The console, call by call, when no handler writes to it, no handler
    subscribed by [on(descriptor, _)] throws, and no handler unsubscribes
    such a subscription.  The legacy [emit] and [on] write their
    deprecation notice; every emission, typed or legacy, then makes the
    filter of each subscription that [on(descriptor, _)] ever made write
    ['got event'] with its descriptor, whether or not the event is for it;
    [$on], [off] and both kinds of [unsubscribe] write nothing. *)
Theorem console_call_by_call b ops op :
  silent b ->
  (forall a event handler,
     registrations ops !! a = Some (call_on (ByDescriptor event) handler) ->
     never_throws b handler /\ keeps b Srv a) ->
  console (env (world (exec (ops ++ [op]) (program b)))) =
    console (env (world (exec ops (program b)))) ++ logged_by (ops ≫= described) op.
Proof.
  intros Hsilent Hsafe.
  rewrite exec_snoc. pose proof (Inv_program b ops) as HI.
  pose proof (registered_legacy_kept b ops Hsafe) as Hleg.
  pose proof (chatter_registrations b ops) as Hch.
  pose proof (callbacks_program b ops) as Hcb.
  set (s := exec ops (program b)) in *.
  destruct op as [this e|this tf h|k|bus id|ev p|[n|d] h|[n|d] h]; simpl.
  - rewrite dollar_emit_Subject_next, Subject_next_console; [|done|by rewrite Hcb|done].
    by rewrite Hch.
  - destruct (dollar_on_registered this tf h _ HI) as (s1 & w' & -> & _ & _ & _ & He & _).
    simpl. by rewrite He, app_nil_r.
  - destruct (handles s !! k); simpl; [rewrite unsubscribe_env|]; by rewrite app_nil_r.
  - by rewrite group_unsubscribe_env, app_nil_r.
  - rewrite emit_world. simpl.
    rewrite Subject_next_console;
      [|by apply console_log_Inv|simpl; by rewrite Hcb|done].
    simpl. rewrite <- app_assoc. do 2 f_equal.
    rewrite <- (Hch {| type := legacy_tag ev; payload := Some p |}) by done.
    apply list_bind_ext; [|done]. intros a. by apply chatter_heap.
  - done.
  - done.
  - by rewrite app_nil_r.
  - by rewrite app_nil_r.
Qed.

(** * What a composite holds *)

Lemma splice_out_sublist x l : Rx.splice_out x l `sublist_of` l.
Proof.
  induction l as [|y l IH]; simpl; [done|].
  case_decide; [by apply sublist_cons | by apply sublist_skip].
Qed.

Lemma splice_out_NoDup x l : NoDup l -> x ∉ Rx.splice_out x l.
Proof.
  intros Hl. rewrite splice_out_filter by done.
  rewrite list_elem_of_filter. by intros [? _].
Qed.

Lemma children_of_remove a w p g :
  children_of g (Rx.remove a w p) =
    if decide (g = p) then Rx.splice_out a (children_of g w) else children_of g w.
Proof.
  unfold Rx.remove, children_of.
  destruct (groupSub w !! p) as [c|] eqn:Hp; simpl.
  - case_decide as Hg.
    + subst. by rewrite lookup_insert_eq, Hp.
    + by rewrite lookup_insert_ne.
  - case_decide as Hg; [|done]. subst. by rewrite Hp.
Qed.

Lemma foldl_remove_children a l w g :
  children_of g (foldl (Rx.remove a) w l) `sublist_of` children_of g w /\
  (g ∈ l -> NoDup (children_of g w) -> a ∉ children_of g (foldl (Rx.remove a) w l)).
Proof.
  revert w. induction l as [|p l IH]; intros w; simpl.
  { split; [done|]. by intros ?%elem_of_nil. }
  destruct (IH (Rx.remove a w p)) as [Hsub Hout].
  assert (children_of g (Rx.remove a w p) `sublist_of` children_of g w) as Hone.
  { rewrite children_of_remove. case_decide; [apply splice_out_sublist | done]. }
  split; [by etrans|].
  intros Hg Hnd. apply elem_of_cons in Hg as [->|Hg].
  - intros Hin. apply (elem_of_sublist _ _ _ Hin) in Hsub.
    rewrite children_of_remove, decide_True in Hsub by done.
    by apply splice_out_NoDup in Hsub.
  - apply Hout; [done|]. by apply sublist_NoDup with (children_of g w).
Qed.

Lemma kids_ok_init b : kids_ok (init_with b).
Proof. intros g. split; [apply NoDup_nil_2 | by intros a ?%elem_of_nil]. Qed.

Lemma subscribe_kids_ok p observer w : kids_ok w -> kids_ok (Rx.subscribe p observer w).2.
Proof.
  intros HK g. destruct (HK g) as [Hnd Hkid]. split; [done|].
  intros a Ha. destruct (Hkid a Ha) as (s & Hs & Hc & Hp).
  exists s. split; [|done]. simpl. by apply lookup_app_l_Some.
Qed.

Lemma unsubscribe_kids_ok w a : kids_ok w -> kids_ok (Rx.unsubscribe w a).
Proof.
  intros HK. unfold Rx.unsubscribe.
  destruct (heap w !! a) as [s|] eqn:Ha; [|done].
  destruct (closed s) eqn:Hc; [done|].
  set (w1 := set_heap _ w).
  intros g. destruct (HK g) as [Hnd Hkid].
  destruct (foldl_remove_children a (parentOrParents s) w1 g) as [Hsub Hout].
  destruct (foldl_remove_frame a (parentOrParents s) w1) as (_ & Hheap & _).
  change (children_of g (set_observers _ ?w2)) with (children_of g w2).
  change (children_of g w1) with (children_of g w) in *.
  split; [by apply sublist_NoDup with (children_of g w)|].
  intros b Hb. pose proof (elem_of_sublist _ _ _ Hb Hsub) as Hb0.
  destruct (Hkid b Hb0) as (sb & Hsb & Hcb & Hpb).
  assert (b <> a) as Hne.
  { intros ->. assert (sb = s) as -> by congruence. by apply Hout in Hb. }
  exists sb. split; [|done]. simpl. rewrite Hheap. simpl.
  by rewrite list_lookup_insert_ne.
Qed.

Lemma adopt_kids_ok g child s c w :
  groupSub w !! g = Some c -> heap w !! child = Some s ->
  closed s = false -> g ∉ parentOrParents s ->
  kids_ok w -> kids_ok (adopt g child s c w).
Proof.
  intros Hg Hs Hc Hp HK g'. destruct (HK g') as [Hnd Hkid].
  rewrite (children_of_adopt _ _ _ _ _ _ Hg).
  assert (forall a, a ∈ children_of g' w ->
            exists s', heap (adopt g child s c w) !! a = Some s' /\
                       closed s' = false /\ g' ∈ parentOrParents s') as Hold.
  { intros a Ha. destruct (Hkid a Ha) as (sa & Hsa & Hca & Hpa).
    simpl. destruct (decide (a = child)) as [->|Hne].
    - assert (sa = s) as -> by congruence.
      exists (adopted g s). rewrite list_lookup_insert_eq by (by eapply lookup_lt_Some).
      split_and!; [done|done|]. simpl. apply elem_of_app. by left.
    - exists sa. by rewrite list_lookup_insert_ne. }
  case_decide as Hgg; [subst g'|done].
  split.
  - apply NoDup_app. split_and!; [done| |apply NoDup_singleton].
    intros a Ha ->%list_elem_of_singleton.
    destruct (Hkid child Ha) as (sa & Hsa & _ & Hpa).
    assert (sa = s) as -> by congruence. done.
  - intros a [Ha| ->%list_elem_of_singleton]%elem_of_app; [by apply Hold|].
    exists (adopted g s). simpl.
    rewrite list_lookup_insert_eq by (by eapply lookup_lt_Some).
    split_and!; [done|done|]. apply elem_of_app. right. by apply list_elem_of_singleton.
Qed.

Lemma add_kids_ok g child w : kids_ok w -> kids_ok (Rx.add g child w).2.
Proof.
  intros HK.
  destruct (groupSub w !! g) as [c|] eqn:Hg; cycle 1.
  { unfold Rx.add. by rewrite Hg. }
  destruct (heap w !! child) as [s|] eqn:Hs; cycle 1.
  { unfold Rx.add. by rewrite Hg, Hs. }
  destruct (add_cases g child w c s Hg Hs)
    as [(_ & ->)|[(_ & _ & ->)|[(_ & _ & _ & ->)|(Hc & _ & Hp & ->)]]]; simpl.
  - done.
  - by apply unsubscribe_kids_ok.
  - done.
  - by apply adopt_kids_ok.
Qed.

Lemma addToGroupSub_kids_ok g child w :
  kids_ok w -> kids_ok (EventBusGroup.addToGroupSub g child w).2.
Proof.
  intros HK. unfold EventBusGroup.addToGroupSub.
  destruct (groupSub w !! g) as [c|] eqn:Hg; [by apply add_kids_ok|].
  apply add_kids_ok. intros g'.
  change (set_groupSub _ w) with (fresh_groupSub g w).
  rewrite children_of_fresh by done.
  destruct (HK g') as [Hnd Hkid]. split; [done|]. intros a Ha.
  destruct (Hkid a Ha) as (s & Hs & ?). by exists s.
Qed.

Lemma dollar_on_kids_ok this typeFilter handler w :
  kids_ok w -> kids_ok (dollar_on this typeFilter handler w).2.
Proof.
  intros HK. induction this as [|bus IH id]; simpl.
  - by apply subscribe_kids_ok.
  - unfold EventBusGroup.dollar_on.
    destruct (dollar_on bus typeFilter handler w) as [childSub w1].
    by apply addToGroupSub_kids_ok.
Qed.

Lemma foldl_unsubscribe_kids_ok l w : kids_ok w -> kids_ok (foldl Rx.unsubscribe w l).
Proof.
  revert w. induction l as [|a l IH]; intros w HK; simpl; [done|].
  by apply IH, unsubscribe_kids_ok.
Qed.

Lemma group_unsubscribe_kids_ok g w : kids_ok w -> kids_ok (EventBusGroup.unsubscribe g w).
Proof.
  intros HK.
  destruct (group_unsubscribe_cases g w) as [[-> _] | (c & Hg & Hc & ->)]; [done|].
  apply foldl_unsubscribe_kids_ok. intros g'.
  unfold children_of. simpl. destruct (decide (g' = g)) as [->|Hne].
  - rewrite lookup_insert_eq. simpl.
    split; [apply NoDup_nil_2 | by intros a ?%elem_of_nil].
  - rewrite lookup_insert_ne by done. apply (HK g').
Qed.

Lemma Subject_next_kids_ok value w :
  Inv w -> kids_ok w -> kids_ok (Rx.Subject_next value w).
Proof.
  intros HI HK.
  apply (Subject_next_ind (fun w' => Inv w' /\ kids_ok w') value);
    [by intros w' [? _]| | | |done].
  - intros w' e [HI' HK'] _ _ Hlt. split; [by apply set_env_Inv | done].
  - intros w' a s n h arg act [HI' HK'] _ _ _. split; [by apply run_Inv|].
    destruct act as [b|g].
    + rewrite run_unsubscribe. by apply unsubscribe_kids_ok.
    + rewrite run_group_unsubscribe. by apply group_unsubscribe_kids_ok.
  - intros w' a s n h arg [HI' HK'] _ _ _.
    split; [by apply unsubscribe_Inv | by apply unsubscribe_kids_ok].
Qed.

Lemma step_kids_ok op s :
  Inv (world s) -> kids_ok (world s) -> kids_ok (world (step op s).2).
Proof.
  intros HI HK.
  destruct op as [this e|this tf h|k|bus id|[n|d] p|[n|d] h|[n|d] h]; simpl; try done.
  - rewrite dollar_emit_Subject_next. by apply Subject_next_kids_ok.
  - pose proof (dollar_on_kids_ok this tf h _ HK) as HK'.
    by destruct (dollar_on this tf h (world s)).
  - destruct (handles s !! k); simpl; [by apply unsubscribe_kids_ok | done].
  - by apply group_unsubscribe_kids_ok.
  - apply Subject_next_kids_ok; [by apply console_log_Inv | done].
  - apply Subject_next_kids_ok; [by apply console_log_Inv | done].
  - by apply (subscribe_kids_ok _ _
                (set_env (console_log EventBusSrv.on_notice (env (world s))) (world s))).
Qed.

Lemma exec_kids_ok ops s :
  Inv (world s) -> kids_ok (world s) -> kids_ok (world (exec ops s)).
Proof.
  revert s. induction ops as [|op ops IH]; intros s HI HK; [done|].
  rewrite exec_cons. apply IH; [by apply step_Inv | by apply step_kids_ok].
Qed.

(** X7. What the composite of a group holds: no subscription twice, and a
    subscription that [$on] returned exactly while it is open and was made
    through the group.  A subscription unsubscribed by its own handle, or
    through another group, is dropped from the composite at once. *)
Theorem group_holds_its_open_subscriptions b pre this typeFilter handler sub s1 mid g :
  subscribes (exec pre (program b)) this typeFilter handler sub s1 ->
  let w := world (exec mid s1) in
  NoDup (children_of g w) /\
  (sub ∈ children_of g w <-> through g this = true /\ is_closed sub w = false).
Proof.
  intros Hsub w.
  destruct (subscribes_later _ _ _ _ _ _ _ mid Hsub)
    as (HI & _ & _ & st & Hst & _ & _ & Hin & Hout).
  fold w in HI, Hst, Hout.
  assert (kids_ok w) as HK.
  { unfold subscribes in Hsub.
    assert (s1 = (step (call_dollar_on this typeFilter handler) (exec pre (program b))).2) as Hs1
      by (by rewrite Hsub).
    unfold w. rewrite Hs1.
    apply exec_kids_ok; [apply step_Inv, Inv_program|].
    apply step_kids_ok; [apply Inv_program|].
    apply exec_kids_ok; [apply Inv_init_with | apply kids_ok_init]. }
  destruct (HK g) as [Hnd Hkid]. split; [done|]. split.
  - intros Hc. split.
    + destruct (through g this) eqn:Ht; [done|]. by apply Hout in Hc.
    + destruct (Hkid sub Hc) as (s & Hs & Hcl & _).
      unfold is_closed. by rewrite Hs.
  - intros [Ht Hopen]. unfold is_closed in Hopen. rewrite Hst in Hopen.
    destruct (Hin g Ht) as [?|Hp]; [congruence|].
    destruct (proj2 HI sub st g Hst Hopen Hp) as [(c & Hc & _ & Hchild)|[_ ?%elem_of_nil]];
      [|done].
    unfold children_of. by rewrite Hc.
Qed.

(** * The life of a subscription *)

Lemma before_release_split s0 this mid :
  Forall (fun u => ~ releases s0 this u) (before_release s0 this mid) /\
  (mid = before_release s0 this mid \/
   exists u post, releases s0 this u /\ mid = before_release s0 this mid ++ u :: post).
Proof.
  induction mid as [|u mid [IHall IH]]; simpl; [by auto|].
  case_decide as Hrel.
  - split; [done|]. right. by exists u, mid.
  - split; [by apply Forall_cons|].
    destruct IH as [IH|(u' & post & Hrel' & IH)].
    + left. by rewrite <- IH.
    + right. exists u', post. split; [done|]. simpl. by rewrite <- IH.
Qed.

(** X8. Everything that a subscription made by [$on] ever receives, when
    its handler never throws and no handler releases it: nothing if it is
    closed as [$on] returns it; otherwise the events of its tag, each once
    and in the order of emission, that were emitted from the return of
    [$on] up to the first call of the client that releases it. *)
Theorem dollar_on_receives_until_released b pre this typeFilter handler sub s1 mid :
  never_throws b handler -> keeps b this sub ->
  subscribes (exec pre (program b)) this typeFilter handler sub s1 ->
  received sub (world (exec mid s1)) =
    if is_closed sub (world s1) then []
    else (fun e => (handler, ArgEvent e)) <$>
           filter (fun e => type e = static_type typeFilter)
             (emitted (before_release (exec pre (program b)) this mid)).
Proof.
  intros Hthrow Hkeeps Hsub.
  destruct (subscribes_later _ _ _ _ _ _ _ [] Hsub) as (HI1 & _ & Hnil & _).
  simpl in HI1, Hnil.
  destruct (is_closed sub (world s1)) eqn:Hc.
  { by rewrite closed_forever. }
  destruct (before_release_split (exec pre (program b)) this mid) as [Hall Hmid].
  remember (before_release (exec pre (program b)) this mid) as live eqn:Hlive.
  destruct (held_receives b live pre this typeFilter handler sub s1 Hsub Hc Hthrow Hkeeps
              Hall) as [_ Hrec].
  destruct Hmid as [->|(u & post & Hrel & ->)]; [done|].
  by rewrite (released_receives_nothing _ _ _ _ _ _ _ live u post Hsub Hrel).
Qed.

(** * The call trace *)

Lemma called_as_mono op es es' c :
  (forall e, e ∈ es -> e ∈ es') -> called_as op es c -> called_as op es' c.
Proof.
  intros Hes. destruct op as [| this tf h|k|bus id|e p|[n|d] h|e h]; simpl; try done.
  - intros [Hh (e & He & ?)]. eauto 10.
  - intros [Hh (e & He & ?)]. eauto 10.
Qed.

Lemma emitted_snoc ops op : emitted (ops ++ [op]) = emitted ops ++ emitted_by op.
Proof. unfold emitted. rewrite bind_app. simpl. by rewrite app_nil_r. Qed.

(** X9. Every handler call of a session is accounted for by a subscribing
    call: it is made by a subscription that [$on] or [on(descriptor, _)]
    created, calls the handler given there, and passes an event that was
    emitted and carries the tag subscribed to ([$on]), or the payload of
    such an event ([on]). *)
Theorem handlers_called_as_registered b ops c :
  c ∈ calls (env (world (exec ops (program b)))) ->
  exists op,
    registrations ops !! call_sub c = Some op /\ called_as op (emitted ops) c.
Proof.
  induction ops as [|op ops IH] using rev_ind.
  { by intros ?%elem_of_nil. }
  pose proof (Inv_program b ops) as HI.
  rewrite exec_snoc, registrations_snoc, emitted_snoc.
  intros [Hc|(e & He & Hc)]%step_calls_elem; [| |done].
  - destruct (IH Hc) as (op' & Hop' & Hcalled).
    exists op'. split; [by apply lookup_app_l_Some|].
    eapply called_as_mono; [|done]. intros e He. apply elem_of_app. by left.
  - remember (call_sub c) as a eqn:Hsub. symmetry in Hsub.
    destruct (dispatch_tag _ _ _ _ (proj1 HI) Hc) as [_ Hlt].
    destruct (registry b ops) as [Hlen Hreg].
    destruct (lookup_lt_is_Some_2 (registrations ops) a) as [op' Hop']; [lia|].
    destruct (Hreg a op' Hop') as (st & Hst & Hruns).
    rewrite (dispatch_answer _ _ _ op' st Hst Hruns) in Hc.
    exists op'. split; [by apply lookup_app_l_Some|].
    assert (e ∈ emitted ops ++ emitted_by op) as He' by (apply elem_of_app; by right).
    unfold answer in Hc. destruct (is_closed a _); [by apply elem_of_nil in Hc|].
    destruct op' as [| this tf h|k|bus id|e' p|[n|d] h|e' h]; simpl in *; try done;
      case_decide; try (by apply elem_of_nil in Hc);
      apply list_elem_of_singleton in Hc; subst c; simpl; eauto 10.
Qed.

(** X12. The call trace, call by call: a call of the client invokes
    handlers only by emitting, and then exactly those that the emission of
    its event delivers; [$on], [on], [off] and both kinds of [unsubscribe]
    invoke no handler of any subscription. *)
Theorem calls_call_by_call b ops op :
  let w := world (exec ops (program b)) in
  calls (env (world (exec (ops ++ [op]) (program b)))) =
    calls (env w) ++ (emitted_by op ≫= fun e => delivered Srv e w).
Proof.
  intros w. pose proof (Inv_program b ops) as HI. fold w in HI.
  rewrite exec_snoc. fold w.
  destruct op as [this e|this tf h|k|bus id|[n|d] p|[n|d] h|[n|d] h]; simpl;
    rewrite ?app_nil_r.
  - rewrite dollar_emit_Subject_next, <- (dollar_emit_Subject_next Srv).
    by apply delivered_calls.
  - destruct (dollar_on_registered this tf h _ HI) as (s1 & w' & Hon & _ & _ & _ & He & _).
    unfold w in Hon. rewrite Hon. simpl. by rewrite He.
  - destruct (handles _ !! k); simpl; [by rewrite unsubscribe_env | done].
  - by rewrite group_unsubscribe_env.
  - apply (emit_delivered Srv (ByName n) p w HI).
  - apply (emit_delivered Srv (ByDescriptor d) p w HI).
  - done.
  - done.
  - done.
  - done.
Qed.

(** * The observers of the stream *)

(** X10. The observers of the stream are the open subscriptions, each once
    and in the order of the subscribing calls: [unsubscribe()], on a handle
    or on a group, leaves no closed subscription behind on the stream. *)
Theorem stream_observes_open_subscriptions b ops :
  let w := world (exec ops (program b)) in
  observers_of w =
    filter (fun a => is_closed a w = false) (seq 0 (length (registrations ops))).
Proof.
  intros w. destruct (registry b ops) as [<- _].
  apply wf_observers, Inv_program.
Qed.

(** * Closed on arrival *)

(** An emission during which no handler unsubscribes a group closes no
    composite. *)
Lemma Subject_next_group_closed g value w :
  Inv w -> leaves_groups (callbacks w) ->
  group_closed g (Rx.Subject_next value w) = group_closed g w.
Proof.
  intros HI Hb.
  enough (Inv (Rx.Subject_next value w) /\
          callbacks (Rx.Subject_next value w) = callbacks w /\
          group_closed g (Rx.Subject_next value w) = group_closed g w) as (_ & _ & Hg);
    [done|].
  apply (Subject_next_ind
           (fun w' => Inv w' /\ callbacks w' = callbacks w /\
                      group_closed g w' = group_closed g w) value);
    [by intros w' [? _]| | | |done].
  - intros w' e (HI' & Hcb & Hg) _ _ Hlt. split_and!; [by apply set_env_Inv|done|done].
  - intros w' a s n h arg act (HI' & Hcb & Hg) _ _ Hact.
    split_and!; [by apply run_Inv|by rewrite run_callbacks|].
    destruct act as [a'|g'].
    + rewrite run_unsubscribe, <- Hg. apply group_closed_narrows, unsubscribe_narrows.
    + rewrite Hcb in Hact. by apply Hb in Hact.
  - intros w' a s n h arg (HI' & Hcb & Hg) _ _ _.
    split_and!; [by apply unsubscribe_Inv|by rewrite unsubscribe_callbacks|].
    rewrite <- Hg. apply group_closed_narrows, unsubscribe_narrows.
Qed.

Lemma step_group_closed g op s :
  Inv (world s) -> leaves_groups (callbacks (world s)) ->
  unsubscribes_group g op = false ->
  group_closed g (world (step op s).2) = group_closed g (world s).
Proof.
  intros HI HQ Hop.
  destruct op as [this e|this tf h|k|bus id|[n|d] p|[n|d] h|[n|d] h]; simpl; try done.
  - rewrite dollar_emit_Subject_next. by apply Subject_next_group_closed.
  - destruct (dollar_on_registered this tf h _ HI) as (s1 & w' & -> & _ & _ & Hreg).
    simpl. by destruct Hreg as (_ & _ & _ & _ & _ & _ & _ & _ & -> & _).
  - destruct (handles s !! k) as [b|]; simpl; [|done].
    apply group_closed_narrows, unsubscribe_narrows.
  - simpl in Hop. apply bool_decide_eq_false in Hop.
    by destruct (group_unsubscribe_narrows (Group bus id) (world s) g Hop) as [-> _].
  - by rewrite Subject_next_group_closed; [|apply console_log_Inv|].
  - by rewrite Subject_next_group_closed; [|apply console_log_Inv|].
Qed.

Lemma step_groupSub_used g op s used :
  Inv (world s) ->
  (is_Some (groupSub (world s) !! g) <-> used = true) ->
  is_Some (groupSub (world (step op s).2) !! g) <-> used || adds_through g op = true.
Proof.
  intros HI Hused. split.
  - intros Hsome. destruct used; [done|]. simpl.
    destruct (adds_through g op) eqn:Hadd; [done|]. exfalso.
    assert (groupSub (world s) !! g = None) as Hnone.
    { apply eq_None_not_Some. intros Hs. by apply Hused in Hs. }
    apply (step_groupSub_None g op s HI Hadd) in Hnone.
    rewrite Hnone in Hsome. by destruct Hsome.
  - intros [Hu|Hadd]%orb_true_iff.
    + apply (step_groupSub op s g HI). by apply Hused.
    + destruct op as [|this tf h| | | | |]; simpl in Hadd; try done.
      destruct (dollar_on_registered this tf h _ HI) as (s1 & w' & Hon & _ & _ & Hreg).
      simpl. rewrite Hon. simpl.
      destruct Hreg as (_ & _ & _ & _ & _ & _ & _ & _ & _ & Hsome).
      apply Hsome. by right.
Qed.

Lemma step_group_unsubscribe_closed bus id s :
  is_Some (groupSub (world s) !! Group bus id) ->
  group_closed (Group bus id) (world (step (call_group_unsubscribe bus id) s).2) = true.
Proof.
  intros Hsome. simpl.
  pose proof (group_unsubscribe_groupSub (Group bus id) (world s)) as Hg.
  unfold group_closed.
  destruct (groupSub (EventBusGroup.unsubscribe (Group bus id) (world s)) !! Group bus id);
    [done|].
  rewrite Hg in Hsome. by destruct Hsome.
Qed.

(** Whether a group is closed, read off the calls. *)
Lemma group_closed_exec g ops s used :
  Inv (world s) -> leaves_groups (callbacks (world s)) ->
  (is_Some (groupSub (world s) !! g) <-> used = true) ->
  group_closed g (world s) = false ->
  group_closed g (world (exec ops s)) = unsubscribed_for_good g used ops.
Proof.
  revert s used. induction ops as [|op ops IH]; intros s used HI HQ Hused Hopen; [done|].
  rewrite exec_cons. simpl.
  destruct (used && unsubscribes_group g op) eqn:Hnow.
  - apply andb_true_iff in Hnow as [-> Hop].
    destruct op as [| | |bus id| | |]; simpl in Hop; try done.
    apply bool_decide_eq_true in Hop as ->.
    apply exec_groupSub; [by apply step_Inv|].
    apply step_group_unsubscribe_closed. by apply Hused.
  - apply IH; [by apply step_Inv | by rewrite step_callbacks | by apply step_groupSub_used |].
    destruct (unsubscribes_group g op) eqn:Hop.
    + rewrite andb_true_r in Hnow. subst used.
      destruct op as [| | |bus id| | |]; simpl in Hop; try done.
      apply bool_decide_eq_true in Hop as ->. simpl.
      assert (groupSub (world s) !! Group bus id = None) as Hnone.
      { apply eq_None_not_Some. intros Hs. by apply Hused in Hs. }
      unfold group_closed. by rewrite group_unsubscribe_None.
    + by rewrite step_group_closed.
Qed.

(** X11. In a program whose handlers never unsubscribe a group, [$on]
    returns a subscription that is already closed exactly when it goes
    through a group that was unsubscribed after some [$on] had gone through
    it; in every other case the subscription is open on return. *)
Theorem closed_on_arrival b pre this typeFilter handler sub s1 :
  leaves_groups b ->
  subscribes (exec pre (program b)) this typeFilter handler sub s1 ->
  is_closed sub (world s1) = true <->
  exists g, through g this = true /\ unsubscribed_for_good g false pre = true.
Proof.
  intros Hb Hsub.
  destruct (subscribes_facts _ _ _ _ _ _ (Inv_program b pre) Hsub)
    as (-> & _ & st & _ & _ & Hh & _ & _ & _ & _ & _ & _ & Hcl & _).
  assert (is_closed (length (heap (world (exec pre (program b))))) (world s1) = closed st)
    as ->.
  { unfold is_closed. by rewrite Hh, lookup_last. }
  rewrite Hcl.
  assert (forall g, group_closed g (world (exec pre (program b))) =
                    unsubscribed_for_good g false pre) as Hg.
  { intros g. apply group_closed_exec; [apply Inv_init_with|done| |done].
    simpl. rewrite lookup_empty. split; [by intros [? ?] | done]. }
  split; intros (g & Ht & Hc); exists g; by rewrite ?Hg in *.
Qed.

(** * Worked sessions *)



(** An event is emitted, then [$on] is called through a group, three events
    are emitted, and the group is unsubscribed; the handler throws on its
    first call. *)
Lemma dollar_on_no_replay_witness :
  let b := only 1 throwing in
  let A := mkBusEventType "A" in
  let pre := [call_dollar_emit Srv (new_BusEvent A)] in
  let s1 := exec (pre ++ [call_dollar_on (Group Srv 0) A 1]) (program b) in
  let mid := [call_dollar_emit Srv (new_BusEventWithPayload A (JsNum 1));
              call_dollar_emit Srv (new_BusEvent (mkBusEventType "B"));
              call_emit (ByName "A") (JsNum 2)] in
  received 0 (world s1) = [] /\
  (exists es,
     es `sublist_of` emitted mid /\
     Forall (fun e => type e = static_type A) es /\
     received 0 (world (exec mid s1)) = (fun e => (1, ArgEvent e)) <$> es) /\
  (forall u post,
     releases (exec pre (program b)) (Group Srv 0) u ->
     received 0 (world (exec (mid ++ u :: post) s1)) =
       received 0 (world (exec mid s1))).
Proof.
  intros b A pre s1 mid.
  apply (dollar_on_no_replay b pre (Group Srv 0) A 1 0 s1 mid).
  reflexivity.
Defined.

(** One subscription through group 0 and one on the bus itself; group 0 is
    unsubscribed.  The handler of the second throws. *)
Lemma group_unsubscribe_releases_its_own_witness :
  let b := only 2 throwing in
  let A := mkBusEventType "A" in
  let e := new_BusEvent A in
  let s1 := exec [call_dollar_on (Group Srv 0) A 1] (program b) in
  let s2 := exec [call_dollar_on Srv A 2] s1 in
  is_closed 0 (world (exec [call_dollar_on Srv A 2; call_group_unsubscribe Srv 0] s1)) = true /\
  received 1 (dollar_emit Srv e (EventBusGroup.unsubscribe (Group Srv 0) (world s2))) =
    [(2, ArgEvent e)].
Proof.
  intros b A e s1 s2.
  destruct group_unsubscribe_releases_its_own as [Hown Hframe].
  split.
  - apply (Hown b [] (Group Srv 0) A 1 0 s1 [call_dollar_on Srv A 2] Srv 0 []);
      reflexivity.
  - apply (Hframe b [call_dollar_on (Group Srv 0) A 1] Srv A 2 1 s2 [] Srv 0 Srv e);
      try reflexivity.
    apply keeps_only, Forall_nil_2.
Defined.

(** [on] with a descriptor; legacy and typed emissions follow, and the
    handler of a typed subscription throws. *)
Lemma legacy_on_descriptor_stays_subscribed_witness :
  let b := only 2 throwing in
  let foo := mkAppEvent "foo" [] in
  let A := mkBusEventType "foo" in
  let post := [call_emit (ByName "foo") (JsNum 7);
               call_dollar_on Srv A 2;
               call_dollar_emit Srv (new_BusEventWithPayload A (JsNum 8));
               call_emit (ByDescriptor foo) (JsNum 9)] in
  let s1 := (step (call_on (ByDescriptor foo) 1) (program b)).2 in
  is_closed 0 (world (exec post s1)) = false /\
  received 0 (world (exec post s1)) =
    [(1, ArgPayload (JsNum 7)); (1, ArgPayload (JsNum 8)); (1, ArgPayload (JsNum 9))].
Proof.
  intros b foo A post s1.
  destruct (legacy_on_descriptor_stays_subscribed b [] foo 1)
    as (_ & _ & _ & Hstays & _).
  destruct (Hstays (never_throws_only 2 throwing 1 ltac:(lia))
              (keeps_only 2 throwing Srv 0 (Forall_nil_2 _)) post)
    as (Hopen & _ & Hrec).
  split; [exact Hopen | exact Hrec].
Defined.

(** C10, as it is stated.  The handler given to [on] throws on its first
    call: rxjs unsubscribes the subscription, which is off the stream and
    misses the next event, though the client has called nothing but
    [emit]. *)
Lemma legacy_on_descriptor_handler_throws :
  let foo := mkAppEvent "foo" [] in
  let s1 := exec [call_on (ByDescriptor foo) 1] (program (only 1 throwing)) in
  let s2 := exec [call_emit (ByName "foo") (JsNum 7)] s1 in
  let s3 := exec [call_emit (ByName "foo") (JsNum 8)] s2 in
  is_closed 0 (world s1) = false /\
  is_closed 0 (world s2) = true /\
  observers_of (world s2) = [] /\
  received 0 (world s3) = [(1, ArgPayload (JsNum 7))].
Proof. vm_compute. by repeat split. Qed.

(** A second subscription through group 0, made after the group was
    unsubscribed. *)
Lemma dollar_on_through_unsubscribed_group_witness :
  let b := only 1 throwing in
  let A := mkBusEventType "A" in
  let pre := [call_dollar_on (Group Srv 0) A 1; call_group_unsubscribe Srv 0] in
  let s1 := exec (pre ++ [call_dollar_on (Group Srv 0) A 2]) (program b) in
  is_closed 1 (world s1) = true /\
  received 1 (world (exec [call_dollar_emit (Group Srv 0) (new_BusEvent A)] s1)) = [].
Proof.
  intros b A pre s1.
  apply (dollar_on_through_unsubscribed_group
           b [] (Group Srv 0) A 1 [] Srv 0 [] (Group Srv 0) A 2 1 s1); reflexivity.
Defined.

(** A subscription on the bus itself, events for it and for a handler that
    throws, and calls that do not release it. *)
Lemma open_until_released_witness :
  let b := only 2 throwing in
  let A := mkBusEventType "A" in
  let s1 := exec [call_dollar_on Srv A 1] (program b) in
  let mid := [call_dollar_on (Group Srv 0) A 2;
              call_dollar_emit Srv (new_BusEvent A);
              call_group_unsubscribe Srv 0;
              call_unsubscribe 1; call_off (ByName "A") 1] in
  is_closed 0 (world (exec mid s1)) = false <->
  is_closed 0 (world s1) = false /\
  Forall (fun u => ~ releases (program b) Srv u) mid.
Proof.
  intros b A s1 mid. apply (open_until_released b [] Srv A 1 0 s1 mid).
  - apply never_throws_only. lia.
  - apply keeps_only, Forall_nil_2.
  - reflexivity.
Defined.

(** Three subscriptions, one through a group and one by [on]; the handler
    of the first throws. *)
Lemma emission_by_registrations_witness :
  let b := only 1 throwing in
  let A := mkBusEventType "A" in
  let e := new_BusEventWithPayload A (JsNum 1) in
  let ops := [call_dollar_on Srv A 1; call_dollar_on (Group Srv 0) A 2;
              call_on (ByDescriptor (mkAppEvent "A" [])) 3] in
  let w := world (exec ops (program b)) in
  delivered Srv e w = mjoin (imap (answer w e) (registrations ops)) /\
  calls (env (EventBusSrv.emit (ByName "A") (JsNum 1) w).2) =
    calls (env w) ++ delivered Srv e w.
Proof.
  intros b A e ops w.
  destruct (emission_by_registrations b ops Srv e) as (_ & _ & Hcalm & Hlegacy).
  split.
  - apply Hcalm. by apply calm_only.
  - apply (Hlegacy (ByName "A") (JsNum 1)).
Defined.

(** Two subscriptions, the second through a group; the handle of the first
    is unsubscribed. *)
Lemma unsubscribe_removes_one_witness :
  let b := only 2 throwing in
  let A := mkBusEventType "A" in
  let e := new_BusEvent A in
  let s := exec [call_dollar_on Srv A 1; call_dollar_on (Group Srv 0) A 2] (program b) in
  let s' := (step (call_unsubscribe 0) s).2 in
  env (world s') = env (world s) /\
  is_closed 0 (world s') = true /\
  (forall a, a <> 0 -> is_closed a (world s') = is_closed a (world s)) /\
  delivered Srv e (world s') =
    filter (fun c => call_sub c <> 0) (delivered Srv e (world s)).
Proof.
  intros b A e s s'.
  destruct (unsubscribe_removes_one b
              [call_dollar_on Srv A 1; call_dollar_on (Group Srv 0) A 2] 0 0 Srv e)
    as (Henv & Hsub & Hrest & Hnext); [reflexivity|].
  split_and!; [exact Henv|exact Hsub|exact Hrest|].
  apply Hnext. by apply calm_only.
Defined.

(** Two subscriptions through group 0 and one on the bus; the group is
    unsubscribed. *)
Lemma group_unsubscribe_removes_its_children_witness :
  let b := only 3 throwing in
  let A := mkBusEventType "A" in
  let e := new_BusEvent A in
  let ops := [call_dollar_on (Group Srv 0) A 1; call_dollar_on Srv A 2;
              call_dollar_on (Group Srv 0) A 3] in
  let w := world (exec ops (program b)) in
  let w' := EventBusGroup.unsubscribe (Group Srv 0) w in
  released_by (Group Srv 0) w' = [] /\
  delivered Srv e w' =
    filter (fun c => call_sub c ∉ released_by (Group Srv 0) w) (delivered Srv e w).
Proof.
  intros b A e ops w w'.
  destruct (group_unsubscribe_removes_its_children b ops (Group Srv 0) Srv e)
    as (_ & _ & Hnone & Hnext).
  split; [exact Hnone|]. apply Hnext. by apply calm_only.
Defined.

(** [on] with a descriptor, a typed subscription whose handler throws, an
    event for it, and a legacy [emit]. *)
Lemma console_call_by_call_witness :
  let b := only 1 throwing in
  let foo := mkAppEvent "foo" [] in
  let A := mkBusEventType "A" in
  let ops := [call_on (ByDescriptor foo) 2; call_dollar_on Srv A 1;
              call_dollar_emit Srv (new_BusEvent A)] in
  let op := call_emit (ByName "bar") (JsNum 1) in
  console (env (world (exec (ops ++ [op]) (program b)))) =
    console (env (world (exec ops (program b)))) ++ logged_by (ops ≫= described) op.
Proof.
  intros b foo A ops op.
  apply (console_call_by_call b ops op).
  - by apply silent_only.
  - intros a event handler Ha. split; [|apply keeps_only, Forall_nil_2].
    destruct a as [|[|a]]; simpl in Ha; [|done|done].
    injection Ha as _ <-. apply never_throws_only. lia.
Defined.

(** A subscription through group 0, then one on the bus itself, whose
    handler unsubscribes the first when it is called. *)
Lemma group_holds_its_open_subscriptions_witness :
  let b := only 2 (unsubscribing 0) in
  let A := mkBusEventType "A" in
  let s1 := exec [call_dollar_on (Group Srv 0) A 1] (program b) in
  let w := world (exec [call_dollar_on Srv A 2; call_dollar_emit Srv (new_BusEvent A)] s1) in
  NoDup (children_of (Group Srv 0) w) /\
  (0 ∈ children_of (Group Srv 0) w <->
   through (Group Srv 0) (Group Srv 0) = true /\ is_closed 0 w = false).
Proof.
  intros b A s1.
  apply (group_holds_its_open_subscriptions b [] (Group Srv 0) A 1 0 s1
           [call_dollar_on Srv A 2; call_dollar_emit Srv (new_BusEvent A)] (Group Srv 0)).
  reflexivity.
Defined.

(** A subscription on the bus; an event, [unsubscribe()] on the handle, and
    one more event; the handler of another subscription throws. *)
Lemma dollar_on_receives_until_released_witness :
  let b := only 2 throwing in
  let A := mkBusEventType "A" in
  let s1 := exec [call_dollar_on Srv A 1] (program b) in
  let mid := [call_dollar_on Srv A 2;
              call_dollar_emit Srv (new_BusEventWithPayload A (JsNum 1));
              call_unsubscribe 0;
              call_dollar_emit Srv (new_BusEventWithPayload A (JsNum 2))] in
  received 0 (world (exec mid s1)) =
    if is_closed 0 (world s1) then []
    else (fun e => (1, ArgEvent e)) <$>
           filter (fun e => type e = static_type A)
             (emitted (before_release (program b) Srv mid)).
Proof.
  intros b A s1 mid.
  apply (dollar_on_receives_until_released b [] Srv A 1 0 s1 mid).
  - apply never_throws_only. lia.
  - apply keeps_only, Forall_nil_2.
  - reflexivity.
Defined.

(** One subscription, whose handler throws, and one event of its tag. *)
Lemma handlers_called_as_registered_witness :
  let A := mkBusEventType "A" in
  let e := new_BusEvent A in
  let ops := [call_dollar_on Srv A 1; call_dollar_emit Srv e] in
  let c := mkCall 0 1 (ArgEvent e) in
  exists op, registrations ops !! call_sub c = Some op /\ called_as op (emitted ops) c.
Proof.
  intros A e ops c.
  apply (handlers_called_as_registered (only 1 throwing) ops c).
  vm_compute. apply list_elem_of_here.
Defined.

(** Group 0 is unsubscribed after a subscription through it; a second
    subscription goes through it.  The handler of the first throws. *)
Lemma closed_on_arrival_witness :
  let b := only 1 throwing in
  let A := mkBusEventType "A" in
  let pre := [call_dollar_on (Group Srv 0) A 1; call_dollar_emit Srv (new_BusEvent A);
              call_group_unsubscribe Srv 0] in
  let s1 := exec (pre ++ [call_dollar_on (Group Srv 0) A 2]) (program b) in
  is_closed 1 (world s1) = true <->
  exists g, through g (Group Srv 0) = true /\ unsubscribed_for_good g false pre = true.
Proof.
  intros b A pre s1.
  apply (closed_on_arrival b pre (Group Srv 0) A 2 1 s1).
  - apply leaves_groups_only, Forall_nil_2.
  - reflexivity.
Defined.
